(** * Predictive-maintenance pipeline: cleaning, features, anomaly scoring

    A shallow embedding of [predictive_maintenance/pipeline.py] and
    [predictive_maintenance/anomaly_detection.py].

    Modelling choices.
    - A [DataFrame] is a list of rows in positional order.  A row carries
      the two key columns ([timestamp], [machine_id]) as fields, its float
      columns as a finite map from the column label to a cell, and its
      boolean columns as a finite map from the label to a [bool].
    - A float cell is [option Q]: [None] is NaN (a missing value), [Some q]
      a number.  Arithmetic is exact: binary64 rounding and the infinities
      are not modelled.  The square root used by the standard deviations is
      a parameter [sqrt] of the development, of which only [sqrt 0 = 0] is
      ever assumed.
    - Key columns are never missing: [machine_id] is a string and
      [timestamp] an integer instant.
    - The pandas operations the code calls ([drop_duplicates],
      [sort_values], [groupby(...).transform], [ffill], [bfill], [fillna],
      [clip], [rolling], [diff], [quantile]) are modelled by their documented
      meaning on such tables.  Log lines are not modelled.
    - The top-level functions ([clean_data], [compute_z_scores], ...) give
      the table each Python function returns.  Module [Imp] embeds the same
      functions statement by statement over a heap of DataFrame objects,
      with [df.copy()], in-place updates and the exceptions raised by
      [load_data], by column look-ups and by [clean_data] on a table
      without rows.
    - The file system is a finite map from a path to the frame its CSV
      holds.  [pd.read_csv(..., parse_dates=["timestamp"])] raises a
      [ValueError] naming the date column when that column is absent from
      the file; malformed CSV text is not modelled.  [save_processed_data]
      writes a file and leaves the table as it is: it is not modelled.
    - [data_generator.py] draws from two seeded random generators.  The
      numbers they give are parameters of the development (a stream per
      seed), so that what is proved of the generated table holds whatever
      is drawn.  A time stamp is an instant in seconds;
      [generator_arguments] gives the arguments the Python function does
      not reject. *)

From Stdlib Require Import QArith Qround Qabs Lqa.
From stdpp Require Import gmap strings list fin_maps.

(** ** Float cells *)

(** A float64 cell; [None] is NaN. *)
Abbreviation cell := (option Q).

Definition cell_sub (a b : cell) : cell :=
  match a, b with
  | Some x, Some y => Some (x - y)%Q
  | _, _ => None
  end.

Definition cell_add (a b : cell) : cell :=
  match a, b with
  | Some x, Some y => Some (x + y)%Q
  | _, _ => None
  end.

Definition cell_mul (a b : cell) : cell :=
  match a, b with
  | Some x, Some y => Some (x * y)%Q
  | _, _ => None
  end.

(** Division as the pipeline uses it: the divisor has had its zeros
    replaced by NaN beforehand, a zero divisor is answered by NaN here. *)
Definition cell_div (a b : cell) : cell :=
  match a, b with
  | Some x, Some y => if Qeq_bool y 0 then None else Some (x / y)%Q
  | _, _ => None
  end.

(** [Series.fillna(v)] with a scalar (or per-column) fill value. *)
Definition fillna (v : cell) (xs : list cell) : list cell :=
  (λ x, match x with Some _ => x | None => v end) <$> xs.

(** [Series.replace(0, np.nan)]. *)
Definition replace_zero_nan (xs : list cell) : list cell :=
  (λ x, match x with
        | Some q => if Qeq_bool q 0 then None else Some q
        | None => None
        end) <$> xs.

(** The non-missing values of a series, in order ([skipna]). *)
Definition non_null (xs : list cell) : list Q := omap id xs.

Definition Qsum (ys : list Q) : Q := foldr Qplus 0%Q ys.

Definition Qlen (ys : list Q) : Q := inject_Z (Z.of_nat (length ys)).

(** [Series.mean()]: the mean of the non-missing values, NaN if there are
    none. *)
Definition mean (xs : list cell) : cell :=
  match non_null xs with
  | [] => None
  | ys => Some (Qsum ys / Qlen ys)%Q
  end.

(** Sum of squared deviations from [m]. *)
Definition sq_dev (m : Q) (ys : list Q) : Q :=
  Qsum ((λ y, (y - m) * (y - m))%Q <$> ys).

(** [Series.ffill()]: a missing value takes the last value seen before it. *)
Fixpoint ffill_from (last : cell) (xs : list cell) : list cell :=
  match xs with
  | [] => []
  | Some q :: xs' => Some q :: ffill_from (Some q) xs'
  | None :: xs' => last :: ffill_from last xs'
  end.

Definition ffill (xs : list cell) : list cell := ffill_from None xs.

(** [Series.bfill()]: a missing value takes the next value after it. *)
Fixpoint bfill (xs : list cell) : list cell :=
  match xs with
  | [] => []
  | x :: xs' =>
      let r := bfill xs' in
      match x with
      | Some _ => x :: r
      | None => default None (head r) :: r
      end
  end.

(** [Series.clip(lower=lo, upper=hi)]; NaN stays NaN. *)
Definition clip (lo hi : Q) (x : cell) : cell :=
  match x with
  | None => None
  | Some q =>
      if Qlt_le_dec q lo then Some lo
      else if Qlt_le_dec hi q then Some hi
      else Some q
  end.

(** [Series.diff()]: current minus previous, NaN on the first position. *)
Definition diff (xs : list cell) : list cell :=
  imap (λ k x, match k with
               | O => None
               | S j => cell_sub x (default None (xs !! j))
               end) xs.

(** The trailing window of at most [w] readings that ends at position [k]. *)
Definition window (w k : nat) (xs : list cell) : list cell :=
  drop (S k - w) (take (S k) xs).

(** [Series.rolling(w, min_periods=1).agg()] for an aggregate [agg] that
    is NaN when the window holds too few values. *)
Definition rolling (w : nat) (agg : list cell → cell) (xs : list cell)
  : list cell :=
  imap (λ k _, agg (window w k xs)) xs.

(** Insertion sort of numbers, used by [quantile]. *)
Fixpoint Qinsert (x : Q) (ys : list Q) : list Q :=
  match ys with
  | [] => [x]
  | y :: ys' => if Qle_bool x y then x :: ys else y :: Qinsert x ys'
  end.

Definition Qsort (ys : list Q) : list Q := foldr Qinsert [] ys.

(** [Series.quantile(q)] with the default linear interpolation: the
    non-missing values are sorted, the virtual index is [q * (n - 1)], and
    the result interpolates between its two neighbours.  NaN for an empty
    series. *)
Definition quantile (q : Q) (xs : list cell) : cell :=
  let ys := Qsort (non_null xs) in
  match ys with
  | [] => None
  | y0 :: _ =>
      let h := (q * inject_Z (Z.of_nat (length ys - 1)))%Q in
      let i := Z.to_nat (Qfloor h) in
      let g := (h - inject_Z (Qfloor h))%Q in
      let a := default y0 (ys !! i) in
      let b := default a (ys !! S i) in
      Some (a + (b - a) * g)%Q
  end.

(** ** Rows and tables *)

Record row : Type := Row {
  timestamp : Z;
  machine_id : string;
  num : gmap string cell;
  flag : gmap string bool
}.

Abbreviation table := (list row).

(** Reading a float cell; a label the row does not carry reads as NaN (in
    module [Imp] the look-up of an absent column raises [KeyError]
    instead). *)
Definition getnum (r : row) (c : string) : cell := default None (num r !! c).

Definition getflag (r : row) (c : string) : bool := default false (flag r !! c).

Definition set_num (r : row) (c : string) (v : cell) : row :=
  {| timestamp := timestamp r; machine_id := machine_id r;
     num := <[c := v]> (num r); flag := flag r |}.

Definition set_flag (r : row) (c : string) (b : bool) : row :=
  {| timestamp := timestamp r; machine_id := machine_id r;
     num := num r; flag := <[c := b]> (flag r) |}.

(** [df[c]] for a float column. *)
Definition column (c : string) (t : table) : list cell :=
  (λ r, getnum r c) <$> t.

(** [df[c] = vs] for a float column.  The assignment is aligned on the
    row positions: a position the series does not reach receives NaN. *)
Definition set_column (c : string) (vs : list cell) (t : table) : table :=
  imap (λ i r, set_num r c (default None (vs !! i))) t.

(** [df[c] = bs] for a boolean column. *)
Definition set_flag_column (c : string) (bs : list bool) (t : table) : table :=
  imap (λ i r, set_flag r c (default false (bs !! i))) t.

(** The pair [drop_duplicates(subset=["timestamp", "machine_id"])] compares. *)
Definition key (r : row) : Z * string := (timestamp r, machine_id r).

(** [df.drop_duplicates(subset=[...])], [keep="first"]: a row is dropped
    when its key has been seen on an earlier row. *)
Fixpoint drop_duplicates_from (seen : list (Z * string)) (t : table) : table :=
  match t with
  | [] => []
  | r :: t' =>
      if decide (key r ∈ seen) then drop_duplicates_from seen t'
      else r :: drop_duplicates_from (key r :: seen) t'
  end.

Definition drop_duplicates (t : table) : table := drop_duplicates_from [] t.

(** [df.duplicated(subset=[...])]: the rows [drop_duplicates] removes. *)
Fixpoint duplicated_from (seen : list (Z * string)) (t : table) : table :=
  match t with
  | [] => []
  | r :: t' =>
      if decide (key r ∈ seen) then r :: duplicated_from seen t'
      else duplicated_from (key r :: seen) t'
  end.

Definition duplicated (t : table) : table := duplicated_from [] t.

(** The order of [sort_values(["machine_id", "timestamp"])]: machine
    identifiers by string order, then timestamps. *)
Definition row_leb (a b : row) : bool :=
  if decide (machine_id a = machine_id b)
  then (timestamp a <=? timestamp b)%Z
  else String.leb (machine_id a) (machine_id b).

Fixpoint insert_row (r : row) (t : table) : table :=
  match t with
  | [] => [r]
  | x :: t' => if row_leb r x then r :: t else x :: insert_row r t'
  end.

(** [df.sort_values(["machine_id", "timestamp"])]: sorting on several
    columns is stable, rows with equal keys keep their relative order. *)
Definition sort_values (t : table) : table := foldr insert_row [] t.

(** The first row of [t] that carries key [k]. *)
Definition first_with_key (k : Z * string) (t : table) : option row :=
  List.find (λ r, bool_decide (key r = k)) t.

(** ** Grouping by machine *)

(** [df.groupby("machine_id")[c]]: the column [c] with, on every row, the
    machine the row belongs to. *)
Definition groupby (c : string) (t : table) : list (string * cell) :=
  (λ r, (machine_id r, getnum r c)) <$> t.

(** The partition of machine [m]: its readings, in table order. *)
Definition partition (m : string) (g : list (string * cell)) : list cell :=
  (filter (λ p, p.1 = m) g).*2.

(** [grp.transform(f)] for a function [f] from a series to a series of
    the same length: the row at position [i] receives the entry of
    [f (partition)] at the place the row has within its partition.  The
    result keeps the order of the table. *)
Definition transform (f : list cell → list cell) (g : list (string * cell))
  : list cell :=
  imap (λ i p,
          default None
            (f (partition p.1 g) !! length (partition p.1 (take i g)))) g.

(** [grp.transform("mean")] and the like: every row receives the
    aggregate of its partition. *)
Definition transform_agg (agg : list cell → cell) (g : list (string * cell))
  : list cell :=
  (λ p, agg (partition p.1 g)) <$> g.

(** ** Comparisons on cells: any comparison with NaN is false *)

Definition Qlt_bool (x y : Q) : bool := negb (Qle_bool y x).

Definition cell_ltb (a b : cell) : bool :=
  match a, b with
  | Some x, Some y => Qlt_bool x y
  | _, _ => false
  end.

Definition cell_abs (a : cell) : cell := Qabs <$> a.

(** ** Constants of the two modules *)

(** [VALUE_RANGES] of pipeline.py, in insertion order. *)
Definition VALUE_RANGES : list (string * (Q * Q)) :=
  [ ("temperature_c", (0, 200)%Q);
    ("vibration_mm_s", (0, 50)%Q);
    ("pressure_bar", (0, 30)%Q);
    ("cycle_time_s", (1 # 10, 120)%Q);
    ("operating_hours", (0, 100000)%Q) ].

Definition WINDOW_SIZE : nat := 10.

(** [list(VALUE_RANGES.keys())]. *)
Definition numeric_cols : list string := fst <$> VALUE_RANGES.

Definition Z_THRESHOLD : Q := 3.

Definition IQR_MULTIPLIER : Q := 3 # 2.

Definition SENSOR_COLS : list string :=
  [ "temperature_c"; "vibration_mm_s"; "pressure_bar"; "cycle_time_s" ].

(** A rational square root, exact on the squares of rationals; it
    instantiates the parameter [sqrt] when the development is run. *)
Definition Qsqrt (q : Q) : Q :=
  Qmake (Z.sqrt (Qnum q * Zpos (Qden q))) (Qden q).

Section Pipeline.

(** The square root of the numeric library. *)
Variable sqrt : Q → Q.

(** [Series.std()], [ddof = 1]: NaN unless there are two values or more. *)
Definition std (xs : list cell) : cell :=
  let ys := non_null xs in
  match mean xs with
  | None => None
  | Some m =>
      if decide (length ys ≤ 1) then None
      else Some (sqrt (sq_dev m ys / (Qlen ys - 1)))%Q
  end.

(** *** pipeline.py, [clean_data] *)

(** [s.ffill().bfill()]. *)
Definition ffill_bfill (s : list cell) : list cell := bfill (ffill s).

(** Lines 114-120: every numeric column is forward- and backward-filled
    within its machine, and what is still missing takes the mean of the
    column (of the table before the assignment). *)
Definition fill_missing (df : table) : table :=
  let filled c :=
    fillna (mean (column c df)) (transform ffill_bfill (groupby c df)) in
  foldl (λ acc c, set_column c (filled c) acc) df numeric_cols.

(** Lines 125-126: [df[col] = df[col].clip(lower=lo, upper=hi)] for every
    entry of [VALUE_RANGES]. *)
Definition clip_column (acc : table) (e : string * (Q * Q)) : table :=
  set_column e.1 (clip e.2.1 e.2.2 <$> column e.1 acc) acc.

Definition clip_ranges (df : table) : table := foldl clip_column df VALUE_RANGES.

(** The table [clean_data] returns.  On a table without rows the Python
    function returns nothing: it raises (see [Imp.clean_data]); what is
    stated of the result of [clean_data] is stated of tables with a row. *)
Definition clean_data (df : table) : table :=
  clip_ranges (fill_missing (sort_values (drop_duplicates df))).

(** *** pipeline.py, [engineer_features] *)

Definition roll_mean_column (col : string) (df : table) : list cell :=
  transform (rolling WINDOW_SIZE mean) (groupby col df).

Definition roll_std_column (col : string) (df : table) : list cell :=
  transform (λ s, fillna (Some 0%Q) (rolling WINDOW_SIZE std s)) (groupby col df).

Definition diff_column (col : string) (df : table) : list cell :=
  transform (λ s, fillna (Some 0%Q) (diff s)) (groupby col df).

(** One turn of the loop of lines 162-170. *)
Definition add_features (acc : table) (col : string) : table :=
  set_column (col +:+ "_diff") (diff_column col acc)
    (set_column (col +:+ "_roll_std") (roll_std_column col acc)
       (set_column (col +:+ "_roll_mean") (roll_mean_column col acc) acc)).

Definition engineer_features (df : table) : table :=
  foldl add_features (sort_values df) numeric_cols.

(** *** anomaly_detection.py *)

(** Lines 79-81: [(df[col] - mean) / std.replace(0, nan)], then
    [fillna(0)]. *)
Definition zscore_column (col : string) (df : table) : list cell :=
  fillna (Some 0%Q)
    (zip_with cell_div
       (zip_with cell_sub (column col df) (transform_agg mean (groupby col df)))
       (replace_zero_nan (transform_agg std (groupby col df)))).

(** The z-score a row receives, from its reading and the readings of its
    partition. *)
Definition zscore_cell (x : cell) (p : list cell) : cell :=
  match cell_div (cell_sub x (mean p))
          (match std p with
           | Some q => if Qeq_bool q 0 then None else Some q
           | None => None
           end) with
  | Some z => Some z
  | None => Some 0%Q
  end.

Definition add_zscore (acc : table) (col : string) : table :=
  set_column (col +:+ "_zscore") (zscore_column col acc) acc.

Definition compute_z_scores (df : table) (cols : list string) : table :=
  foldl add_zscore df cols.

(** Line 109: [(df[zscore_cols].abs() > threshold).any(axis=1)]. *)
Definition zscore_exceeds (threshold : Q) (cols : list string) (r : row) : bool :=
  existsb (λ zc, cell_ltb (Some threshold) (cell_abs (getnum r zc)))
    ((λ c, c +:+ "_zscore") <$> cols).

Definition flag_zscore_anomalies (df : table) (cols : list string)
    (threshold : Q) : table :=
  set_flag_column "anomaly_zscore" (zscore_exceeds threshold cols <$> df) df.

(** Lines 144-157. The dictionary maps a column to its pair
    (lower, upper). *)
Definition iqr_bounds_of (multiplier : Q) (xs : list cell) : cell * cell :=
  let q1 := quantile (1 # 4) xs in
  let q3 := quantile (3 # 4) xs in
  let iqr := cell_sub q3 q1 in
  (cell_sub q1 (cell_mul (Some multiplier) iqr),
   cell_add q3 (cell_mul (Some multiplier) iqr)).

Definition compute_iqr_bounds (df : table) (cols : list string)
    (multiplier : Q) : gmap string (cell * cell) :=
  foldl (λ bounds col, <[col := iqr_bounds_of multiplier (column col df)]> bounds)
    ∅ cols.

(** Lines 183-188: [(df[col] < lo) | (df[col] > hi)] per column, then
    [any(axis=1)]. *)
Definition outside_bounds (bounds : gmap string (cell * cell)) (r : row)
    (col : string) : bool :=
  let b := default (None, None) (bounds !! col) in
  cell_ltb (getnum r col) b.1 || cell_ltb b.2 (getnum r col).

Definition flag_iqr_anomalies (df : table) (bounds : gmap string (cell * cell))
    (cols : list string) : table :=
  set_flag_column "anomaly_iqr"
    ((λ r, existsb (outside_bounds bounds r) cols) <$> df) df.

(** Line 219: [df["anomaly_zscore"] | df["anomaly_iqr"]]. *)
Definition flag_column (c : string) (t : table) : list bool :=
  (λ r, getflag r c) <$> t.

Definition combined_anomaly_score (df : table) : table :=
  set_flag_column "anomaly_combined"
    (zip_with orb (flag_column "anomaly_zscore" df) (flag_column "anomaly_iqr" df))
    df.

Definition run_anomaly_detection (df : table) : table :=
  let df := compute_z_scores df SENSOR_COLS in
  let df := flag_zscore_anomalies df SENSOR_COLS Z_THRESHOLD in
  let bounds := compute_iqr_bounds df SENSOR_COLS IQR_MULTIPLIER in
  let df := flag_iqr_anomalies df bounds SENSOR_COLS in
  combined_anomaly_score df.

End Pipeline.

(** ** The functions over a heap of DataFrame objects *)

Module Imp.

(** What a [ValueError] of a run says: the column labels that [load_data]
    or the CSV reader report as missing, or pandas' "No objects to
    concatenate", raised by [groupby(...).transform] with a function when
    the table has no row, hence no group. *)
Inductive value_error : Type :=
| MissingColumns (missing : gset string)
| NoObjectsToConcatenate.

(** What a Python run of the pipeline can raise.  [Dangling] is no Python
    exception: it marks the use of a reference that the heap does not
    hold, which no well-formed call produces. *)
Inductive exn : Type :=
| FileNotFoundError (filepath : string)
| ValueError (what : value_error)
| KeyError (label : string)
| Dangling (r : nat).

(** A DataFrame object: the labels of its columns and its rows. *)
Record frame : Type := Frame {
  columns : gset string;
  rows : table
}.

(** The heap: DataFrame objects by address; a new object takes the next
    address. *)
Abbreviation heap := (list frame).

Definition M (A : Type) : Type := heap → (exn + A) * heap.

#[global] Instance M_ret : MRet M := λ A a h, (inr a, h).

#[global] Instance M_bind : MBind M := λ A B k m h,
  match m h with
  | (inl e, h') => (inl e, h')
  | (inr a, h') => k a h'
  end.

Definition raise {A : Type} (e : exn) : M A := λ h, (inl e, h).

Definition deref (r : nat) : M frame := λ h,
  match h !! r with
  | Some f => (inr f, h)
  | None => (inl (Dangling r), h)
  end.

Definition alloc (f : frame) : M nat := λ h, (inr (length h), h ++ [f]).

Definition store (r : nat) (f : frame) : M unit := λ h, (inr (), <[r := f]> h).

(** [df.copy()]. *)
Definition copy (df : nat) : M nat := f ← deref df; alloc f.

(** Selecting columns by label: [KeyError] on the first absent one. *)
Definition require (df : nat) (labels : list string) : M unit :=
  f ← deref df;
  match filter (λ c, c ∉ columns f) labels with
  | [] => mret ()
  | c :: _ => raise (KeyError c)
  end.

(** An update of the object itself ([inplace=True], [df[c] = ...]): the
    rows become [g rows], the labels [new] are added. *)
Definition update (df : nat) (new : list string) (g : table → table) : M unit :=
  f ← deref df;
  store df (Frame (columns f ∪ list_to_set new) (g (rows f))).

(** [grp.transform(f)] over the groups of a table without rows: pandas
    applies [f] group by group and concatenates the results, and with no
    group there is nothing to concatenate. *)
Definition require_rows (df : nat) : M unit :=
  f ← deref df;
  match rows f with
  | [] => raise (ValueError NoObjectsToConcatenate)
  | _ :: _ => mret ()
  end.

Fixpoint for_each {A : Type} (l : list A) (body : A → M unit) : M unit :=
  match l with
  | [] => mret ()
  | a :: l' => body a ;; for_each l' body
  end.

(** The files a run can open: a path holds a parsed CSV table or nothing. *)
Abbreviation files := (gmap string frame).

(** The columns [load_data] asks for. *)
Definition required : gset string :=
  {[ "timestamp"; "machine_id"; "label" ]} ∪ list_to_set numeric_cols.

(** [pd.read_csv(filepath, parse_dates=[...])] on a file that exists:
    the reader raises [ValueError] itself, naming them, when columns
    listed in [parse_dates] are absent; otherwise the table is a new
    object. *)
Definition read_csv (f : frame) (parse_dates : list string) : M nat :=
  match filter (λ c, c ∉ columns f) parse_dates with
  | [] => alloc f
  | absent => raise (ValueError (MissingColumns (list_to_set absent)))
  end.

(** pipeline.py, lines 70-81. *)
Definition load_data (fs : files) (filepath : string) : M nat :=
  match fs !! filepath with
  | None => raise (FileNotFoundError filepath)
  | Some f =>
      df ← read_csv f ["timestamp"];
      let missing := required ∖ columns f in
      if decide (missing = ∅) then mret df
      else raise (ValueError (MissingColumns missing))
  end.

Section WithSqrt.

Variable sqrt : Q → Q.

(** pipeline.py, lines 106-129.  The fill of lines 116-120 starts with
    [groupby("machine_id")[numeric_cols].transform(lambda ...)], which
    raises on a table left without rows. *)
Definition clean_data (df : nat) : M nat :=
  df ← copy df;
  (require df ["timestamp"; "machine_id"] ;;
   update df [] drop_duplicates ;;
   require df ["machine_id"; "timestamp"] ;;
   update df [] sort_values ;;
   require df ("machine_id" :: numeric_cols) ;;
   require_rows df ;;
   update df [] fill_missing ;;
   for_each VALUE_RANGES (λ e,
     require df [e.1] ;;
     update df [] (λ t, clip_column t e))) ;;
  mret df.

(** pipeline.py, lines 158-175; [sort_values] without [inplace] returns a
    new object. *)
Definition engineer_features (df : nat) : M nat :=
  tmp ← copy df;
  require tmp ["machine_id"; "timestamp"] ;;
  f ← deref tmp;
  df ← alloc (Frame (columns f) (sort_values (rows f)));
  for_each numeric_cols (λ col,
    require df ["machine_id"; col] ;;
    update df [col +:+ "_roll_mean"; col +:+ "_roll_std"; col +:+ "_diff"]
      (λ t, add_features sqrt t col)) ;;
  mret df.

(** anomaly_detection.py, lines 76-83. *)
Definition compute_z_scores (df : nat) (cols : list string) : M nat :=
  df ← copy df;
  for_each cols (λ col,
    require df ["machine_id"; col] ;;
    update df [col +:+ "_zscore"] (λ t, add_zscore sqrt t col)) ;;
  mret df.

(** anomaly_detection.py, lines 107-112. *)
Definition flag_zscore_anomalies (df : nat) (cols : list string)
    (threshold : Q) : M nat :=
  df ← copy df;
  (require df ((λ c, c +:+ "_zscore") <$> cols) ;;
   update df ["anomaly_zscore"]
     (λ t, flag_zscore_anomalies t cols threshold)) ;;
  mret df.

(** anomaly_detection.py, lines 144-157; the table is only read. *)
Definition compute_iqr_bounds (df : nat) (cols : list string)
    (multiplier : Q) : M (gmap string (cell * cell)) :=
  require df cols ;;
  f ← deref df;
  mret (compute_iqr_bounds (rows f) cols multiplier).

(** anomaly_detection.py, lines 181-191; [bounds[col]] raises [KeyError]
    as well when the dictionary has no entry for [col]. *)
Definition flag_iqr_anomalies (df : nat) (bounds : gmap string (cell * cell))
    (cols : list string) : M nat :=
  df ← copy df;
  (for_each cols (λ col,
     match bounds !! col with
     | None => raise (KeyError col)
     | Some _ => require df [col]
     end) ;;
   update df ["anomaly_iqr"] (λ t, flag_iqr_anomalies t bounds cols)) ;;
  mret df.

(** anomaly_detection.py, lines 218-222. *)
Definition combined_anomaly_score (df : nat) : M nat :=
  df ← copy df;
  (require df ["anomaly_zscore"; "anomaly_iqr"] ;;
   update df ["anomaly_combined"] combined_anomaly_score) ;;
  mret df.

(** anomaly_detection.py, lines 242-247. *)
Definition run_anomaly_detection (df : nat) : M nat :=
  df ← compute_z_scores df SENSOR_COLS;
  df ← flag_zscore_anomalies df SENSOR_COLS Z_THRESHOLD;
  bounds ← compute_iqr_bounds df SENSOR_COLS IQR_MULTIPLIER;
  df ← flag_iqr_anomalies df bounds SENSOR_COLS;
  df ← combined_anomaly_score df;
  mret df.

(** pipeline.py, lines 229-234, without the export to a file. *)
Definition run_pipeline (fs : files) (raw_path : string) : M nat :=
  df ← load_data fs raw_path;
  df ← clean_data df;
  df ← engineer_features df;
  mret df.

(** main.py, steps 2 and 3: the pipeline, then the scoring. *)
Definition main (fs : files) (raw_path : string) : M nat :=
  df_processed ← run_pipeline fs raw_path;
  run_anomaly_detection df_processed.

End WithSqrt.

(** The table a run leaves at the reference it returns. *)
Definition result (o : (exn + nat) * heap) : exn + frame :=
  match o.1 with
  | inl e => inl e
  | inr r => match o.2 !! r with
             | Some f => inr f
             | None => inl (Dangling r)
             end
  end.

End Imp.

(** ** Notions used by the statements and their proofs *)

Inductive Sorted_rows : table → Prop :=
| Sorted_nil : Sorted_rows []
| Sorted_cons (x : row) (t : table) :
    Forall (λ y, row_leb x y = true) t → Sorted_rows t → Sorted_rows (x :: t).

Definition fill_row (vals : string → option Q) (r : row) : row :=
  foldl (λ r c, set_num r c (vals c)) r numeric_cols.

Definition clip_entry (r : row) (e : string * (Q * Q)) : row :=
  set_num r e.1 (clip e.2.1 e.2.2 (getnum r e.1)).

Definition clip_row (r : row) : row := foldl clip_entry r VALUE_RANGES.

Definition filled (df : table) (c : string) : list (option Q) :=
  fillna (mean (column c df)) (transform ffill_bfill (groupby c df)).

Definition settled (xs : list (option Q)) : Prop :=
  Forall is_Some xs ∨ Forall (λ x, x = None) xs.

Definition column_has_value (c : string) (t : table) : Prop :=
  ∃ r, r ∈ t ∧ getnum r c ≠ None.

Definition clean_row (s : table) (i : nat) (r : row) : row :=
  clip_row (fill_row (λ c, default None (filled s c !! i)) r).

(** The labels of the z-score columns do not collide with the columns they
    are computed from. *)
Definition zscore_labels_fresh (cols : list string) : Prop :=
  ∀ c c', c ∈ cols → c' ∈ cols → c ≠ c' +:+ "_zscore".

(** Machine [m] reads the constant [x] in column [c]. *)
Definition constant_on (df : table) (m c : string) (x : Q) : Prop :=
  ∀ r, r ∈ df → machine_id r = m → getnum r c = Some x.

Definition combine_row (r : row) : row :=
  set_flag r "anomaly_combined"
    (getflag r "anomaly_zscore" || getflag r "anomaly_iqr").

(** A reading lies strictly outside the interval [lower, upper]; a missing
    reading or bound is never outside. *)
Definition strictly_outside (x lower upper : option Q) : Prop :=
  ∃ v, x = Some v ∧
       ((∃ lo, lower = Some lo ∧ (v < lo)%Q) ∨ (∃ hi, upper = Some hi ∧ (hi < v)%Q)).

(** The table with every row moved to the machine [f] names. *)
Definition relabel (f : string → string) (df : table) : table :=
  (λ r, {| timestamp := timestamp r; machine_id := f (machine_id r);
           num := num r; flag := flag r |}) <$> df.

(** One machine, one sensor, the readings 1, 2, 3, 4, 100. *)
Definition spike_table : table :=
  (λ p, {| timestamp := p.1; machine_id := "M1";
           num := {[ "temperature_c" := Some (inject_Z p.2) ]}; flag := ∅ |})
    <$> [(0, 1); (1, 2); (2, 3); (3, 4); (4, 100)]%Z.

Definition feature_suffixes : list string := ["_roll_mean"; "_roll_std"; "_diff"].

(** The labels of the derived columns are new and pairwise distinct. *)
Definition feature_labels_fresh (cols : list string) : Prop :=
  (∀ c c' sfx, c ∈ cols → c' ∈ cols → sfx ∈ feature_suffixes → c ≠ c' +:+ sfx)
  ∧ (∀ c c' sfx sfx', c ∈ cols → c' ∈ cols →
       sfx ∈ feature_suffixes → sfx' ∈ feature_suffixes →
       c +:+ sfx = c' +:+ sfx' → c = c' ∧ sfx = sfx').

(** What [require] answers on a frame. *)
Definition req_result (labels : list string) (f : Imp.frame) : Imp.exn + unit :=
  match filter (λ c, c ∉ Imp.columns f) labels with
  | [] => inr ()
  | c :: _ => inl (Imp.KeyError c)
  end.

(** The frame [update] leaves. *)
Definition upd (new : list string) (g : table → table) (f : Imp.frame) : Imp.frame :=
  Imp.Frame (Imp.columns f ∪ list_to_set new) (g (Imp.rows f)).

(** A block of statements that names the object on top of the heap acts on
    that object only: it answers [res] and leaves [f'] in its place,
    whatever lies below. *)
Definition acts_on_top {A : Type} (body : nat → Imp.M A) (f : Imp.frame)
    (Q : Imp.exn + A → Imp.frame → Prop) : Prop :=
  ∃ res f', Q res f' ∧ ∀ h0, body (length h0) (h0 ++ [f]) = (res, h0 ++ [f']).

(** A block that succeeds on the object on top of the heap. *)
Definition top_ok (body : nat → Imp.M unit) (f f' : Imp.frame) : Prop :=
  ∀ h0, body (length h0) (h0 ++ [f]) = (inr (), h0 ++ [f']).

(** A function of a reference that works on objects of its own: it leaves
    the heap it is given as it is and allocates after it.  On success the
    object it returns, [f'], is the last one allocated. *)
Definition outcome (out : Imp.exn + Imp.frame) (junk h : list Imp.frame)
  : (Imp.exn + nat) * list Imp.frame :=
  match out with
  | inl e => (inl e, h ++ junk)
  | inr f' => (inr (length h + length junk), h ++ junk ++ [f'])
  end.

Definition returns_copy (F : nat → Imp.M nat) (f : Imp.frame)
    (Q : Imp.exn + Imp.frame → Prop) : Prop :=
  ∃ out junk, Q out ∧ ∀ h df, h !! df = Some f → F df h = outcome out junk h.

(** A function of a reference that only reads the object. *)
Definition reads {B : Type} (G : nat → Imp.M B) (f : Imp.frame) : Prop :=
  ∃ res, ∀ h df, h !! df = Some f → G df h = (res, h).

Definition anything {A : Type} : Imp.exn + A → Imp.frame → Prop := λ _ _, True.

Definition any_outcome : Imp.exn + Imp.frame → Prop := λ _, True.

(** The five calls of [run_anomaly_detection], with the configuration as
    arguments. *)
Definition scoring_run (sqrt : Q → Q) (cols : list string) (threshold multiplier : Q)
    (df : nat) : Imp.M nat :=
  df ← Imp.compute_z_scores sqrt df cols;
  df ← Imp.flag_zscore_anomalies df cols threshold;
  bounds ← Imp.compute_iqr_bounds df cols multiplier;
  df ← Imp.flag_iqr_anomalies df bounds cols;
  df ← Imp.combined_anomaly_score df;
  mret df.

(** The labels [clean_data] selects. *)
Definition clean_needs : list string := "timestamp" :: "machine_id" :: numeric_cols.

Definition zscore_label (c : string) : list string := [c +:+ "_zscore"].

Definition feature_labels (c : string) : list string :=
  [c +:+ "_roll_mean"; c +:+ "_roll_std"; c +:+ "_diff"].

(** The labels the [ValueError] of [load_data] names on the table [f]. *)
Definition reported_missing (f : Imp.frame) : gset string :=
  if decide ("timestamp" ∈ Imp.columns f) then Imp.required ∖ Imp.columns f
  else list_to_set ["timestamp"].

(** What a call leaves of the heap [h] it was given and of its argument. *)
Definition argument_unchanged (h : list Imp.frame) (df : nat) (f : Imp.frame)
    (o : (Imp.exn + nat) * list Imp.frame) : Prop :=
  o.2 !! df = Some f
  ∧ h `prefix_of` o.2
  ∧ ∀ r, o.1 = inr r → length h ≤ r ∧ is_Some (o.2 !! r).

Definition sensor_row (ts : Z) (m : string)
    (temperature vibration pressure cycle hours : option Q) : row :=
  {| timestamp := ts; machine_id := m;
     num := list_to_map
              [ ("temperature_c", temperature); ("vibration_mm_s", vibration);
                ("pressure_bar", pressure); ("cycle_time_s", cycle);
                ("operating_hours", hours) ];
     flag := ∅ |}.

(** The flat signal of the test suite: one machine, a hundred rows, every
    sensor constant. *)
Definition flat_table : table :=
  replicate 100
    {| timestamp := 0; machine_id := "M1";
       num := list_to_map
                [ ("temperature_c", Some 60%Q); ("vibration_mm_s", Some 1%Q);
                  ("pressure_bar", Some 6%Q); ("cycle_time_s", Some 12%Q) ];
       flag := ∅ |}.

(** Raw readings of two machines, unordered, with a repeated key, a
    missing value and two values out of range. *)
Definition raw_table : table :=
  [ sensor_row 2 "M2" (Some 250) (Some 1) (Some 6) (Some 12) (Some 10);
    sensor_row 1 "M1" (Some 60) None (Some 6) (Some 12) (Some 5);
    sensor_row 1 "M1" (Some 99) (Some 9) (Some 9) (Some 9) (Some 9);
    sensor_row 2 "M1" (Some 61) (Some 2) (Some 6) (Some (1 # 20)) (Some 6);
    sensor_row 1 "M2" (Some 70) (Some 1) (Some 7) (Some 13) (Some 9) ]%Q.

Definition raw_frame : Imp.frame :=
  Imp.Frame
    (list_to_set [ "timestamp"; "machine_id"; "label"; "temperature_c";
                   "vibration_mm_s"; "pressure_bar"; "cycle_time_s";
                   "operating_hours" ])
    raw_table.

Definition raw_files : gmap string Imp.frame :=
  {[ "data/raw_sensor_data.csv" := raw_frame ]}.

(** A CSV file of a header line and no data line: every required column,
    no row. *)
Definition header_only_frame : Imp.frame :=
  Imp.Frame (Imp.columns raw_frame) [].

Definition header_only_files : gmap string Imp.frame :=
  {[ "data/raw_sensor_data.csv" := header_only_frame ]}.

(** A CSV file that lacks the columns [timestamp] and [label]. *)
Definition no_timestamp_frame : Imp.frame :=
  Imp.Frame
    (list_to_set [ "machine_id"; "temperature_c"; "vibration_mm_s";
                   "pressure_bar"; "cycle_time_s"; "operating_hours" ])
    raw_table.

Definition no_timestamp_files : gmap string Imp.frame :=
  {[ "data/raw_sensor_data.csv" := no_timestamp_frame ]}.

(** A table whose temperature column holds no value at all. *)
Definition null_column_table : table :=
  [ sensor_row 1 "M1" None (Some 1) (Some 6) (Some 12) (Some 5);
    sensor_row 2 "M1" None (Some 2) (Some 6) (Some 12) (Some 6) ]%Q.

(** ** Notions used by the further properties *)

(** The rows of machine [m], in table order. *)
Definition rows_of (m : string) (t : table) : table :=
  filter (λ r, machine_id r = m) t.

(** A label [engineer_features] writes. *)
Definition derived_label (c : string) : Prop :=
  ∃ c' sfx, c' ∈ numeric_cols ∧ sfx ∈ feature_suffixes ∧ c = c' +:+ sfx.

(** The row [compute_z_scores] makes of a row [r] of the table [df]: one
    z-score per configured column, from the reading of the row and the
    readings of its machine. *)
Definition zscore_row (sqrt : Q → Q) (df : table) (cols : list string)
    (r : row) : row :=
  foldl (λ acc c,
           set_num acc (c +:+ "_zscore")
             (zscore_cell sqrt (getnum r c)
                (partition (machine_id r) (groupby c df))))
    r cols.

(** Numbers in ascending order. *)
Inductive Qsorted : list Q → Prop :=
| Qsorted_nil : Qsorted []
| Qsorted_cons (x : Q) (l : list Q) :
    Forall (λ y, (x <= y)%Q) l → Qsorted l → Qsorted (x :: l).

(** The value [quantile] reads off the sorted numbers [ys] at the virtual
    index [h]; [y0] stands in for an index out of range. *)
Definition interpolate (ys : list Q) (y0 h : Q) : Q :=
  let i := Z.to_nat (Qfloor h) in
  let a := default y0 (ys !! i) in
  let b := default a (ys !! S i) in
  (a + (b - a) * (h - inject_Z (Qfloor h)))%Q.

(** A block of statements that names the object on top of the heap
    answers [res] and leaves [f'] in place of [f], whatever lies below. *)
Definition runs_on_top (body : nat → Imp.M unit) (f : Imp.frame)
    (res : Imp.exn + unit) (f' : Imp.frame) : Prop :=
  ∀ h0, body (length h0) (h0 ++ [f]) = (res, h0 ++ [f']).

(** The labels of the three flags of the scoring. *)
Definition flag_labels : list string :=
  ["anomaly_zscore"; "anomaly_iqr"; "anomaly_combined"].

(** ** data_generator.py

    The two random generators the module seeds are sources of numbers
    from outside: [random_stream seed k] is the value of the [k]-th call
    of [random.random()] after [random.seed(seed)], a number in [0, 1),
    and [normal_stream seed k] the [k]-th standard normal draw after
    [np.random.seed(seed)].  A computation that draws carries the number
    of draws made from each. *)

Definition MACHINES : list string :=
  ["MED-INJ-01"; "MED-INJ-02"; "MED-AUTO-01"; "MED-PUMP-01"].

(** [BASE_PARAMS]: per sensor, the mean and the standard deviation. *)
Definition BASE_PARAMS : list (string * (Q * Q)) :=
  [ ("temperature_c", (65, 2)%Q);
    ("vibration_mm_s", (12 # 10, 15 # 100)%Q);
    ("pressure_bar", (65 # 10, 3 # 10)%Q);
    ("cycle_time_s", (12, 1 # 2)%Q) ].

Definition ANOMALY_FACTOR : Q * Q := (14 # 10, 22 # 10)%Q.

(** [datetime(2024, 1, 1, 0, 0, 0)], in seconds. *)
Definition default_start_time : Z := 1704067200.

(** [max(a, b)] of Python: the first of the largest. *)
Definition py_max (a b : Q) : Q := if Qlt_le_dec a b then b else a.

(** Rounding to the nearest integer, ties to the even one. *)
Definition round_half_even (x : Q) : Z :=
  let f := Qfloor x in
  let r := (x - inject_Z f)%Q in
  if Qlt_le_dec r (1 # 2) then f
  else if Qlt_le_dec (1 # 2) r then (f + 1)%Z
  else if Z.even f then f else (f + 1)%Z.

(** [round(x, ndigits)]. *)
Definition round (x : Q) (ndigits : nat) : Q :=
  (inject_Z (round_half_even (x * inject_Z (10 ^ Z.of_nat ndigits)))
   / inject_Z (10 ^ Z.of_nat ndigits))%Q.

Section Generator.

Variable random_stream : Z → nat → Q.
Variable normal_stream : Z → nat → Q.

(** The draws made so far: from [random], from [np.random]. *)
Definition draws : Type := nat * nat.

(** [random.random()]. *)
Definition random_random (seed : Z) (d : draws) : Q * draws :=
  (random_stream seed d.1, (S d.1, d.2)).

(** [random.uniform(a, b)]: [a + (b - a) * random()]. *)
Definition random_uniform (seed : Z) (a b : Q) (d : draws) : Q * draws :=
  let '(u, d) := random_random seed d in ((a + (b - a) * u)%Q, d).

(** [np.random.normal(loc, scale)]. *)
Definition np_random_normal (seed : Z) (loc scale : Q) (d : draws) : Q * draws :=
  ((loc + scale * normal_stream seed d.2)%Q, (d.1, S d.2)).

(** data_generator.py, lines 102-105: one turn of the loop over
    [BASE_PARAMS]. *)
Definition sample_sensor (seed : Z) (factor : Q) (st : row * draws)
    (e : string * (Q * Q)) : row * draws :=
  let '(value, d) := np_random_normal seed e.2.1 e.2.2 st.2 in
  let value := (value * factor)%Q in
  (set_num st.1 e.1 (Some (py_max 0 (round value 3))), d).

(** data_generator.py, lines 98-109. *)
Definition _generate_sample (seed : Z) (machine_id : string) (timestamp : Z)
    (operating_hours : Q) (anomaly : bool) (d : draws) : row * draws :=
  let '(factor, d) :=
    if anomaly then random_uniform seed ANOMALY_FACTOR.1 ANOMALY_FACTOR.2 d
    else (1%Q, d) in
  let row := {| timestamp := timestamp; machine_id := machine_id;
                num := ∅; flag := ∅ |} in
  let '(row, d) := foldl (sample_sensor seed factor) (row, d) BASE_PARAMS in
  let row := set_num row "operating_hours" (Some (round operating_hours 1)) in
  let row := set_num row "label" (Some (if anomaly then 1%Q else 0%Q)) in
  (row, d).

(** Line 156: the operating hours each machine starts from, drawn in the
    order of [MACHINES]. *)
Definition initial_hours (seed : Z) (st : gmap string Q * draws) (m : string)
  : gmap string Q * draws :=
  let '(h, d) := random_uniform seed 500 5000 st.2 in (<[m := h]> st.1, d).

(** The state of the loop of lines 158-163. *)
Record gen_state : Type := GenState {
  op_hours : gmap string Q;
  records : table;
  drawn : draws
}.

(** One turn of the loop, lines 159-163.  The time stamp is an instant in
    seconds; that it is a [datetime] is part of [generator_arguments]
    below. *)
Definition generate_step (seed : Z) (anomaly_rate : Q) (start_time : Z)
    (interval_seconds : Z) (st : gen_state) (i : nat) : gen_state :=
  let machine := default EmptyString (MACHINES !! (i mod length MACHINES)) in
  let ts := (start_time + Z.of_nat i * interval_seconds)%Z in
  let '(u, d) := random_random seed (drawn st) in
  let is_anomaly := Qlt_bool u anomaly_rate in
  let hours :=
    (default 0 (op_hours st !! machine) + inject_Z interval_seconds / 3600)%Q in
  let '(r, d) := _generate_sample seed machine ts hours is_anomaly d in
  {| op_hours := <[machine := hours]> (op_hours st);
     records := records st ++ [r];
     drawn := d |}.

(** Lines 149-163: the seeds fix the two streams, the machines get
    their starting hours, then one sample is made per index; a negative
    [n_samples] gives an empty range. *)
Definition generate_loop (n_samples : Z) (anomaly_rate : Q)
    (start_time : option Z) (interval_seconds : Z) (seed : Z) : gen_state :=
  let start_time := default default_start_time start_time in
  let '(hours, d) := foldl (initial_hours seed) (∅, (0, 0)) MACHINES in
  foldl (generate_step seed anomaly_rate start_time interval_seconds)
    {| op_hours := hours; records := []; drawn := d |}
    (seq 0 (Z.to_nat n_samples)).

(** data_generator.py, lines 149-172: the rows of the DataFrame. *)
Definition generate_sensor_data (n_samples : Z) (anomaly_rate : Q)
    (start_time : option Z) (interval_seconds : Z) (seed : Z) : table :=
  records (generate_loop n_samples anomaly_rate start_time interval_seconds seed).

End Generator.

(** The first and the last second of [datetime]: the years 1 to 9999. *)
Definition datetime_min : Z := -62135596800.

Definition datetime_max : Z := 253402300799.

(** The largest [timedelta], in seconds: 999999999 days and 86399
    seconds. *)
Definition timedelta_max : Z := 999999999 * 86400 + 86399.

(** The arguments on which [generate_sensor_data] runs to its end, and on
    which [generate_loop] gives what it computes.  [np.random.seed] takes
    a seed from 0 to [2^32 - 1] and raises [ValueError] on another one;
    [start_time + timedelta(seconds=i * interval_seconds)] raises
    [OverflowError] when the sum is no [datetime]; the step is within the
    range of [timedelta], so that its length in hours is a float. *)
Definition generator_arguments (n_samples start_time interval_seconds seed : Z)
  : Prop :=
  (0 ≤ seed < 2 ^ 32)%Z
  ∧ (Z.abs interval_seconds ≤ timedelta_max)%Z
  ∧ ∀ i : nat, i < Z.to_nat n_samples →
      (datetime_min ≤ start_time + Z.of_nat i * interval_seconds
       ≤ datetime_max)%Z.

(** What the generator puts on the row of sample [i]. *)
Definition generated_row (start_time interval_seconds : Z) (i : nat) (r : row)
  : Prop :=
  timestamp r = (start_time + Z.of_nat i * interval_seconds)%Z
  ∧ machine_id r = default EmptyString (MACHINES !! (i mod length MACHINES))
  ∧ (∀ c, c ∈ SENSOR_COLS → ∃ v, getnum r c = Some v ∧ (0 <= v)%Q)
  ∧ is_Some (getnum r "operating_hours")
  ∧ (getnum r "label" = Some 0%Q ∨ getnum r "label" = Some 1%Q).

(** ** Sample tables for the further properties *)

(** Two machines in order, no repeated key: a missing temperature after a
    reading, a machine without any vibration reading, and a missing
    pressure on the first row of a machine. *)
Definition gap_table : table :=
  [ sensor_row 1 "M1" (Some 60) (Some 1) (Some 6) (Some 12) (Some 5);
    sensor_row 2 "M1" None (Some 3) (Some 6) (Some 12) (Some 6);
    sensor_row 1 "M2" (Some 70) None None (Some 13) (Some 9);
    sensor_row 2 "M2" (Some 72) None (Some 7) (Some 13) (Some 10) ]%Q.

(** Two rows out of order, nothing missing, every reading in range. *)
Definition complete_table : table :=
  [ sensor_row 1 "M2" (Some 70) (Some 1) (Some 7) (Some 13) (Some 9);
    sensor_row 2 "M1" (Some 61) (Some 2) (Some 6) (Some 12) (Some 6) ]%Q.

(** A row whose temperature z-score is 5. *)
Definition scored_table : table :=
  [ {| timestamp := 0; machine_id := "M1";
       num := {[ "temperature_c_zscore" := Some 5%Q ]}; flag := ∅ |} ].

(** Constant streams of draws. *)
Definition constant_stream (q : Q) : Z → nat → Q := λ _ _, q.

(** ** The sort order *)

Lemma row_leb_refl (a : row) : row_leb a a = true.
Proof. unfold row_leb. rewrite decide_True by done. apply Z.leb_refl. Qed.

Lemma row_leb_key (a b : row) : key a = key b → row_leb a b = true.
Proof.
  intros [= Ht Hm]. unfold row_leb. rewrite decide_True by done.
  rewrite Ht. apply Z.leb_refl.
Qed.

Lemma string_leb_trans (s1 s2 s3 : string) :
  String.leb s1 s2 = true → String.leb s2 s3 = true → String.leb s1 s3 = true.
Proof.
  intros H1 H2. apply Is_true_true. apply Is_true_true in H1, H2.
  exact (transitivity (R := String.le) H1 H2).
Qed.

Lemma string_leb_antisym (s1 s2 : string) :
  String.leb s1 s2 = true → String.leb s2 s1 = true → s1 = s2.
Proof. apply String.leb_antisym. Qed.

Lemma row_leb_total (a b : row) : row_leb a b = true ∨ row_leb b a = true.
Proof.
  unfold row_leb. destruct (decide (machine_id a = machine_id b)) as [e|n].
  - rewrite decide_True by done.
    destruct (Z.leb_spec (timestamp a) (timestamp b)); [by left|right].
    apply Z.leb_le. lia.
  - rewrite decide_False by done. apply String.leb_total.
Qed.

Lemma row_leb_trans (a b c : row) :
  row_leb a b = true → row_leb b c = true → row_leb a c = true.
Proof.
  unfold row_leb.
  destruct (decide (machine_id a = machine_id b)) as [e1|n1],
           (decide (machine_id b = machine_id c)) as [e2|n2].
  - rewrite decide_True by congruence. rewrite !Z.leb_le. lia.
  - rewrite decide_False by congruence. rewrite e1. auto.
  - rewrite decide_False by congruence. rewrite e2. auto.
  - intros H1 H2. destruct (decide (machine_id a = machine_id c)) as [e3|n3].
    + rewrite e3 in H1. exfalso. apply n2. symmetry.
      by apply string_leb_antisym.
    + by apply string_leb_trans with (machine_id b).
Qed.

(** ** [drop_duplicates] keeps first occurrences *)

Lemma drop_duplicates_from_cons (seen : list (Z * string)) (r : row) (t : table) :
  drop_duplicates_from seen (r :: t)
  = if decide (key r ∈ seen) then drop_duplicates_from seen t
    else r :: drop_duplicates_from (key r :: seen) t.
Proof. reflexivity. Qed.

Lemma drop_duplicates_from_filter (seen : list (Z * string)) (t : table) :
  drop_duplicates_from seen t = filter (λ r, key r ∉ seen) (drop_duplicates t).
Proof.
  unfold drop_duplicates. revert seen.
  induction t as [|r t IH]; intros seen; [done|].
  rewrite !drop_duplicates_from_cons.
  rewrite (decide_False (P := key r ∈ [])) by apply not_elem_of_nil.
  rewrite (IH [key r]). destruct (decide (key r ∈ seen)) as [Hin|Hin].
  - rewrite filter_cons_False by (simpl; tauto).
    rewrite IH, list_filter_filter. apply list_filter_iff.
    intros x. rewrite list_elem_of_singleton. split; [|tauto].
    intros Hx. split; [done|]. intros E. apply Hx. by rewrite E.
  - rewrite filter_cons_True by done. f_equal.
    rewrite IH, list_filter_filter. apply list_filter_iff.
    intros x. rewrite not_elem_of_cons, list_elem_of_singleton. tauto.
Qed.

Lemma drop_duplicates_cons (r : row) (t : table) :
  drop_duplicates (r :: t) = r :: filter (λ x, key x ≠ key r) (drop_duplicates t).
Proof.
  unfold drop_duplicates at 1. rewrite drop_duplicates_from_cons.
  rewrite (decide_False (P := key r ∈ [])) by apply not_elem_of_nil. f_equal.
  rewrite drop_duplicates_from_filter. apply list_filter_iff.
  intros x. by rewrite list_elem_of_singleton.
Qed.

Lemma drop_duplicates_filter (P : Z * string → Prop) `{!∀ k, Decision (P k)}
    (t : table) :
  drop_duplicates (filter (λ r, P (key r)) t)
  = filter (λ r, P (key r)) (drop_duplicates t).
Proof.
  induction t as [|r t IH]; [done|].
  rewrite drop_duplicates_cons. destruct (decide (P (key r))) as [Hp|Hp].
  - rewrite !filter_cons_True by done. rewrite drop_duplicates_cons, IH.
    f_equal. rewrite !list_filter_filter. apply list_filter_iff. tauto.
  - rewrite !filter_cons_False by done. rewrite IH.
    rewrite list_filter_filter. apply list_filter_iff.
    intros x. split; [|tauto]. intros Hx. split; [done|]. congruence.
Qed.

Lemma drop_duplicates_elem (r : row) (t : table) :
  r ∈ drop_duplicates t → r ∈ t.
Proof.
  revert r. induction t as [|x t IH]; intros r; [done|].
  rewrite drop_duplicates_cons, !elem_of_cons, list_elem_of_filter.
  intros [->|[_ H]]; auto.
Qed.

Lemma drop_duplicates_keys (k : Z * string) (t : table) :
  k ∈ key <$> t ↔ k ∈ key <$> drop_duplicates t.
Proof.
  induction t as [|x t IH]; [done|].
  rewrite drop_duplicates_cons, !fmap_cons, !elem_of_cons, IH.
  rewrite !list_elem_of_fmap.
  split.
  - intros [->|(y & -> & Hy)]; [by left|].
    destruct (decide (key y = key x)) as [e|n]; [by left|right].
    exists y. split; [done|]. apply list_elem_of_filter. done.
  - intros [->|(y & -> & Hy)]; [by left|right].
    apply list_elem_of_filter in Hy as [_ Hy]. eauto.
Qed.

Lemma drop_duplicates_NoDup (t : table) : NoDup (key <$> drop_duplicates t).
Proof.
  induction t as [|x t IH]; [constructor|].
  rewrite drop_duplicates_cons, fmap_cons. constructor.
  - rewrite list_elem_of_fmap. intros (y & E & Hy).
    apply list_elem_of_filter in Hy as [Hy _]. congruence.
  - eapply sublist_NoDup; [exact IH|]. apply fmap_sublist, sublist_filter.
Qed.

Lemma drop_duplicates_first (r : row) (t : table) :
  r ∈ drop_duplicates t ↔ first_with_key (key r) t = Some r.
Proof.
  unfold first_with_key. revert r.
  induction t as [|x t IH]; intros r; simpl.
  - split; [by rewrite elem_of_nil|done].
  - rewrite drop_duplicates_cons, elem_of_cons, list_elem_of_filter.
    destruct (bool_decide_reflect (key x = key r)) as [e|n].
    + split; [|intros [= ->]; by left].
      intros [->|[Hne _]]; [done|]. by destruct Hne.
    + rewrite IH. split.
      * intros [->|[_ H]]; [by destruct n|done].
      * intros H. right. split; [congruence|done].
Qed.

Lemma drop_duplicates_id (t : table) :
  NoDup (fmap key t) → drop_duplicates t = t.
Proof.
  induction t as [|x t IH]; [done|]. rewrite fmap_cons. intros Hnd.
  apply NoDup_cons in Hnd as [Hx Hnd].
  rewrite drop_duplicates_cons, IH by done. f_equal.
  clear IH Hnd. induction t as [|y t IH]; [done|].
  rewrite fmap_cons in Hx. apply not_elem_of_cons in Hx as [Hxy Hx].
  rewrite filter_cons_True by congruence. f_equal. auto.
Qed.

Lemma drop_duplicates_length (t : table) :
  length (drop_duplicates t) + length (duplicated t) = length t.
Proof.
  unfold drop_duplicates, duplicated. generalize (@nil (Z * string)).
  induction t as [|x t IH]; intros seen; [done|]. simpl.
  destruct (decide (key x ∈ seen)); simpl.
  - rewrite <- (IH seen). lia.
  - rewrite <- (IH (key x :: seen)). lia.
Qed.

(** ** The stable sort *)

Lemma insert_row_elem (r x : row) (t : table) :
  x ∈ insert_row r t ↔ x = r ∨ x ∈ t.
Proof.
  induction t as [|y t IH]; simpl.
  - rewrite list_elem_of_singleton, elem_of_nil. tauto.
  - destruct (row_leb r y); rewrite !elem_of_cons; [tauto|].
    rewrite IH. tauto.
Qed.

Lemma insert_row_sorted (r : row) (t : table) :
  Sorted_rows t → Sorted_rows (insert_row r t).
Proof.
  induction 1 as [|x t Hx Ht IH]; simpl.
  - repeat constructor.
  - destruct (row_leb r x) eqn:E.
    + constructor; [|by constructor]. constructor; [done|].
      eapply Forall_impl; [exact Hx|]. intros y Hy. simpl in Hy.
      by apply row_leb_trans with x.
    + constructor; [|done]. apply Forall_forall. intros y Hy.
      apply insert_row_elem in Hy as [->|Hy].
      * destruct (row_leb_total r x); congruence.
      * rewrite Forall_forall in Hx. auto.
Qed.

Lemma sort_values_sorted (t : table) : Sorted_rows (sort_values t).
Proof.
  induction t as [|r t IH]; [constructor|]. by apply insert_row_sorted.
Qed.

Lemma sort_values_elem (x : row) (t : table) : x ∈ sort_values t ↔ x ∈ t.
Proof.
  induction t as [|r t IH]; [done|]. simpl.
  rewrite insert_row_elem, elem_of_cons, IH. tauto.
Qed.

Lemma insert_row_length (r : row) (t : table) :
  length (insert_row r t) = S (length t).
Proof.
  induction t as [|y t IH]; [done|]. simpl.
  destruct (row_leb r y); simpl; auto.
Qed.

Lemma sort_values_length (t : table) : length (sort_values t) = length t.
Proof.
  induction t as [|r t IH]; [done|]. simpl. by rewrite insert_row_length, IH.
Qed.

Lemma insert_row_front (r : row) (t : table) :
  Forall (λ y, row_leb r y = true) t → insert_row r t = r :: t.
Proof. destruct 1 as [|y t Hy _]; [done|]. simpl. by rewrite Hy. Qed.

Lemma sort_values_id (t : table) : Sorted_rows t → sort_values t = t.
Proof.
  induction 1 as [|x t Hx Ht IH]; [done|]. simpl. rewrite IH.
  by apply insert_row_front.
Qed.

Lemma sort_values_idemp (t : table) : sort_values (sort_values t) = sort_values t.
Proof. apply sort_values_id, sort_values_sorted. Qed.

Lemma Sorted_rows_filter (P : row → Prop) `{!∀ r, Decision (P r)} (t : table) :
  Sorted_rows t → Sorted_rows (filter P t).
Proof.
  induction 1 as [|x t Hx Ht IH]; [constructor|].
  rewrite filter_cons. destruct (decide (P x)); [|done].
  constructor; [|done]. rewrite Forall_forall in *.
  intros y [_ Hy]%list_elem_of_filter. auto.
Qed.

Lemma Sorted_rows_drop_duplicates (t : table) :
  Sorted_rows t → Sorted_rows (drop_duplicates t).
Proof.
  induction 1 as [|x t Hx Ht IH]; [constructor|].
  rewrite drop_duplicates_cons. constructor.
  - rewrite Forall_forall in *. intros y [_ Hy]%list_elem_of_filter.
    by apply Hx, drop_duplicates_elem.
  - by apply Sorted_rows_filter.
Qed.

Lemma insert_row_filter_False (P : row → Prop) `{!∀ r, Decision (P r)}
    (r : row) (t : table) :
  ¬ P r → filter P (insert_row r t) = filter P t.
Proof.
  intros Hr. induction t as [|y t IH]; simpl.
  - by rewrite filter_cons_False.
  - destruct (row_leb r y); [by rewrite filter_cons_False|].
    rewrite !(filter_cons _ y), IH. done.
Qed.

Lemma insert_row_filter_True (P : row → Prop) `{!∀ r, Decision (P r)}
    (r : row) (t : table) :
  P r → Sorted_rows t → filter P (insert_row r t) = insert_row r (filter P t).
Proof.
  intros Hr. induction 1 as [|y t Hy Ht IH]; simpl.
  - by rewrite filter_cons_True.
  - destruct (row_leb r y) eqn:E.
    + rewrite filter_cons_True by done. symmetry. apply insert_row_front.
      rewrite Forall_forall in *. intros z [_ Hz]%list_elem_of_filter.
      apply elem_of_cons in Hz as [->|Hz]; [done|].
      apply row_leb_trans with y; auto.
    + rewrite !(filter_cons _ y), IH. destruct (decide (P y)); [|done].
      simpl. by rewrite E.
Qed.

Lemma sort_values_filter (P : row → Prop) `{!∀ r, Decision (P r)} (t : table) :
  filter P (sort_values t) = sort_values (filter P t).
Proof.
  induction t as [|r t IH]; [done|]. simpl.
  rewrite filter_cons. destruct (decide (P r)) as [Hr|Hr].
  - rewrite insert_row_filter_True by auto using sort_values_sorted.
    simpl. by rewrite IH.
  - by rewrite insert_row_filter_False.
Qed.

Lemma drop_duplicates_insert_row (r : row) (t : table) :
  Sorted_rows t →
  drop_duplicates (insert_row r t)
  = insert_row r (filter (λ x, key x ≠ key r) (drop_duplicates t)).
Proof.
  induction 1 as [|x t Hx Ht IH]; [done|]. simpl.
  destruct (row_leb r x) eqn:E.
  - rewrite (drop_duplicates_cons r). symmetry. apply insert_row_front.
    rewrite Forall_forall in *. intros z [_ Hz]%list_elem_of_filter.
    apply drop_duplicates_elem, elem_of_cons in Hz as [->|Hz]; [done|].
    apply row_leb_trans with x; auto.
  - assert (key r ≠ key x) as Hne.
    { intros Hk. apply row_leb_key in Hk. congruence. }
    rewrite (drop_duplicates_cons x), IH.
    rewrite insert_row_filter_True; [|congruence|].
    2:{ by apply Sorted_rows_filter, Sorted_rows_drop_duplicates. }
    rewrite (drop_duplicates_cons x), filter_cons_True by congruence.
    simpl. rewrite E. do 2 f_equal.
    rewrite !list_filter_filter. apply list_filter_iff. tauto.
Qed.

(** Deduplicating before the stable sort or after it gives the same table. *)
Lemma sort_drop_duplicates (t : table) :
  sort_values (drop_duplicates t) = drop_duplicates (sort_values t).
Proof.
  induction t as [|r t IH]; [done|].
  rewrite drop_duplicates_cons. simpl.
  rewrite drop_duplicates_insert_row by apply sort_values_sorted.
  by rewrite <- sort_values_filter, IH.
Qed.

(** ** Rows and columns *)

Lemma getnum_set_num (r : row) (c c' : string) (v : option Q) :
  getnum (set_num r c' v) c = if decide (c = c') then v else getnum r c.
Proof.
  unfold getnum, set_num. simpl. destruct (decide (c = c')) as [->|n].
  - by rewrite lookup_insert_eq.
  - by rewrite lookup_insert_ne.
Qed.

Lemma getnum_set_num_eq (r : row) (c : string) (v : option Q) :
  getnum (set_num r c v) c = v.
Proof. rewrite getnum_set_num. by rewrite decide_True. Qed.

Lemma getnum_set_num_ne (r : row) (c c' : string) (v : option Q) :
  c ≠ c' → getnum (set_num r c' v) c = getnum r c.
Proof. intros. rewrite getnum_set_num. by rewrite decide_False. Qed.

Lemma set_num_id (r : row) (c : string) (v : option Q) :
  num r !! c = Some v → set_num r c v = r.
Proof.
  intros H. destruct r as [ts m n f]. unfold set_num. simpl in *.
  by rewrite insert_id.
Qed.

Lemma lookup_set_column (c : string) (vs : list (option Q)) (t : table) (i : nat) :
  set_column c vs t !! i
  = (λ r, set_num r c (default None (vs !! i))) <$> t !! i.
Proof. unfold set_column. by rewrite list_lookup_imap. Qed.

Lemma length_set_column (c : string) (vs : list (option Q)) (t : table) :
  length (set_column c vs t) = length t.
Proof. apply length_imap. Qed.

Lemma lookup_set_flag_column (c : string) (bs : list bool) (t : table) (i : nat) :
  set_flag_column c bs t !! i
  = (λ r, set_flag r c (default false (bs !! i))) <$> t !! i.
Proof. unfold set_flag_column. by rewrite list_lookup_imap. Qed.

Lemma length_set_flag_column (c : string) (bs : list bool) (t : table) :
  length (set_flag_column c bs t) = length t.
Proof. apply length_imap. Qed.

Lemma key_set_column (c : string) (vs : list (option Q)) (t : table) :
  key <$> set_column c vs t = key <$> t.
Proof.
  apply list_eq. intros i.
  rewrite !list_lookup_fmap, lookup_set_column. by destruct (t !! i).
Qed.

Lemma flag_set_column (c : string) (vs : list (option Q)) (t : table) :
  flag <$> set_column c vs t = flag <$> t.
Proof.
  apply list_eq. intros i.
  rewrite !list_lookup_fmap, lookup_set_column. by destruct (t !! i).
Qed.

Lemma groupby_set_column_ne (c c' : string) (vs : list (option Q)) (t : table) :
  c ≠ c' → groupby c (set_column c' vs t) = groupby c t.
Proof.
  intros Hne. apply list_eq. intros i. unfold groupby.
  rewrite !list_lookup_fmap, lookup_set_column.
  destruct (t !! i) as [r|]; [|done]. simpl.
  by rewrite getnum_set_num_ne.
Qed.

Lemma column_groupby (c : string) (t : table) : column c t = (groupby c t).*2.
Proof. unfold column, groupby. by rewrite <- list_fmap_compose. Qed.

Lemma machine_groupby (c : string) (t : table) :
  machine_id <$> t = (groupby c t).*1.
Proof. unfold groupby. by rewrite <- list_fmap_compose. Qed.

Lemma length_groupby (c : string) (t : table) : length (groupby c t) = length t.
Proof. apply length_fmap. Qed.

Lemma length_column (c : string) (t : table) : length (column c t) = length t.
Proof. apply length_fmap. Qed.

Lemma column_set_column_ne (c c' : string) (vs : list (option Q)) (t : table) :
  c ≠ c' → column c (set_column c' vs t) = column c t.
Proof. intros. by rewrite !column_groupby, groupby_set_column_ne. Qed.

Lemma column_set_column_eq (c : string) (vs : list (option Q)) (t : table) :
  length vs = length t → column c (set_column c vs t) = vs.
Proof.
  intros Hlen. apply list_eq. intros i. unfold column.
  rewrite list_lookup_fmap, lookup_set_column.
  destruct (t !! i) as [r|] eqn:E; simpl.
  - rewrite getnum_set_num_eq.
    apply lookup_lt_Some in E. rewrite <- Hlen in E.
    apply lookup_lt_is_Some in E as [v ->]. done.
  - symmetry. apply lookup_ge_None. apply lookup_ge_None in E. lia.
Qed.

Lemma set_column_id (c : string) (vs : list (option Q)) (t : table) :
  Forall2 (λ r v, num r !! c = Some v) t vs → set_column c vs t = t.
Proof.
  intros H. apply list_eq. intros i. rewrite lookup_set_column.
  destruct (t !! i) as [r|] eqn:E; [|done]. simpl.
  destruct (Forall2_lookup_l _ _ _ _ _ H E) as (v & -> & Hv). simpl.
  by rewrite set_num_id.
Qed.

Lemma fillna_length (v : option Q) (xs : list (option Q)) :
  length (fillna v xs) = length xs.
Proof. apply length_fmap. Qed.

(** ** Partitions and [transform] *)

Lemma partition_app (m : string) (g1 g2 : list (string * option Q)) :
  partition m (g1 ++ g2) = partition m g1 ++ partition m g2.
Proof. unfold partition. by rewrite filter_app, fmap_app. Qed.

Lemma partition_cons (m : string) (p : string * option Q)
    (g : list (string * option Q)) :
  partition m (p :: g)
  = if decide (p.1 = m) then p.2 :: partition m g else partition m g.
Proof.
  unfold partition. rewrite filter_cons. by destruct (decide (p.1 = m)).
Qed.

(** The place of row [i] within its partition is the number of rows of the
    same machine before it. *)
Lemma partition_lookup_pos (g : list (string * option Q)) (i : nat)
    (m : string) (x : option Q) :
  g !! i = Some (m, x) →
  partition m g !! length (partition m (take i g)) = Some x.
Proof.
  intros Hi. pose proof (take_drop_middle g i _ Hi) as Hs.
  set (pre := take i g) in *. rewrite <- Hs.
  rewrite partition_app, lookup_app_r by done.
  rewrite Nat.sub_diag, partition_cons. simpl. by rewrite decide_True.
Qed.

Lemma partition_take_S (g : list (string * option Q)) (i : nat)
    (m : string) (x : option Q) :
  g !! i = Some (m, x) →
  partition m (take (S i) g) = partition m (take i g) ++ [x].
Proof.
  intros Hi. rewrite (take_S_r g i (m, x)) by done.
  rewrite partition_app, partition_cons. simpl. rewrite decide_True by done.
  done.
Qed.

Lemma partition_take_prefix (g : list (string * option Q)) (i : nat) (m : string) :
  partition m (take i g)
  = take (length (partition m (take i g))) (partition m g).
Proof.
  pose proof (take_drop i g) as Hs. set (pre := take i g) in *.
  rewrite <- Hs, partition_app. by rewrite take_app_length.
Qed.

Lemma length_transform (f : list (option Q) → list (option Q))
    (g : list (string * option Q)) :
  length (transform f g) = length g.
Proof. apply length_imap. Qed.

Lemma length_transform_agg (agg : list (option Q) → option Q)
    (g : list (string * option Q)) :
  length (transform_agg agg g) = length g.
Proof. apply length_fmap. Qed.

Lemma lookup_transform (f : list (option Q) → list (option Q))
    (g : list (string * option Q)) (i : nat) (m : string) (x : option Q) :
  g !! i = Some (m, x) →
  transform f g !! i
  = Some (default None (f (partition m g) !! length (partition m (take i g)))).
Proof. intros Hi. unfold transform. by rewrite list_lookup_imap, Hi. Qed.

Lemma lookup_transform_agg (agg : list (option Q) → option Q)
    (g : list (string * option Q)) (i : nat) (m : string) (x : option Q) :
  g !! i = Some (m, x) →
  transform_agg agg g !! i = Some (agg (partition m g)).
Proof. intros Hi. unfold transform_agg. by rewrite list_lookup_fmap, Hi. Qed.

(** A transform that leaves every partition as it is leaves the column as
    it is. *)
Lemma transform_fixed (f : list (option Q) → list (option Q))
    (g : list (string * option Q)) :
  (∀ m, f (partition m g) = partition m g) → transform f g = g.*2.
Proof.
  intros Hf. apply list_eq. intros i. rewrite list_lookup_fmap.
  destruct (g !! i) as [[m x]|] eqn:E.
  - rewrite (lookup_transform _ _ _ _ _ E), Hf.
    by rewrite (partition_lookup_pos _ _ _ _ E).
  - apply lookup_ge_None. rewrite length_transform. by apply lookup_ge_None.
Qed.

(** ** Folds over column lists *)

Lemma foldl_invariant {A B : Type} (P : A → Prop) (f : A → B → A)
    (l : list B) (a : A) :
  P a → (∀ a' b, b ∈ l → P a' → P (f a' b)) → P (foldl f a l).
Proof.
  revert a. induction l as [|b l IH]; intros a Ha Hf; [done|]. simpl.
  apply IH.
  - apply Hf; [by left|done].
  - intros a' b' Hb. apply Hf. by right.
Qed.

Lemma foldl_snoc {A B : Type} (f : A → B → A) (l : list B) (a : A) (b : B) :
  foldl f a (l ++ [b]) = f (foldl f a l) b.
Proof. by rewrite foldl_app. Qed.

(** Right cancellation of string concatenation: it makes the labels of
    derived columns determine their base column. *)
Lemma string_length_app (s1 s2 : string) :
  String.length (s1 +:+ s2) = String.length s1 + String.length s2.
Proof. induction s1 as [|a s1 IH]; simpl; [done|]. by rewrite IH. Qed.

Lemma string_app_inj_r (suffix s1 s2 : string) :
  s1 +:+ suffix = s2 +:+ suffix → s1 = s2.
Proof.
  revert s2. induction s1 as [|a s1 IH]; intros [|b s2] H; simpl in *.
  - done.
  - apply (f_equal String.length) in H.
    rewrite ?string_length_app in H. simpl in H.
    rewrite ?string_length_app in H. lia.
  - apply (f_equal String.length) in H.
    rewrite ?string_length_app in H. simpl in H.
    rewrite ?string_length_app in H. lia.
  - injection H as -> H. f_equal. auto.
Qed.

(** ** Row-wise view of the column loops *)

Lemma foldl_set_num_key (vals : string → option Q) (cols : list string) (r : row) :
  key (foldl (λ r c, set_num r c (vals c)) r cols) = key r.
Proof. revert r. induction cols as [|c cols IH]; intros r; [done|]. simpl. by rewrite IH. Qed.

Lemma foldl_set_num_flag (vals : string → option Q) (cols : list string) (r : row) :
  flag (foldl (λ r c, set_num r c (vals c)) r cols) = flag r.
Proof. revert r. induction cols as [|c cols IH]; intros r; [done|]. simpl. by rewrite IH. Qed.

Lemma foldl_set_num_notin (vals : string → option Q) (cols : list string)
    (r : row) (c : string) :
  c ∉ cols → num (foldl (λ r c, set_num r c (vals c)) r cols) !! c = num r !! c.
Proof.
  revert r. induction cols as [|c' cols IH]; intros r Hc; [done|]. simpl.
  apply not_elem_of_cons in Hc as [Hne Hc]. rewrite IH by done.
  simpl. by rewrite lookup_insert_ne.
Qed.

Lemma foldl_set_num_in (vals : string → option Q) (cols : list string)
    (r : row) (c : string) :
  c ∈ cols → num (foldl (λ r c, set_num r c (vals c)) r cols) !! c = Some (vals c).
Proof.
  revert r. induction cols as [|c' cols IH]; intros r Hc; [by apply elem_of_nil in Hc|].
  simpl. destruct (decide (c ∈ cols)) as [Hin|Hin]; [by apply IH|].
  apply elem_of_cons in Hc as [->|Hc]; [|done].
  rewrite foldl_set_num_notin by done. simpl. by rewrite lookup_insert_eq.
Qed.

Lemma foldl_set_num_id (vals : string → option Q) (cols : list string) (r : row) :
  (∀ c, c ∈ cols → num r !! c = Some (vals c)) →
  foldl (λ r c, set_num r c (vals c)) r cols = r.
Proof.
  induction cols as [|c cols IH]; intros H; [done|]. simpl.
  rewrite set_num_id by (apply H; by left). apply IH.
  intros c' Hc'. apply H. by right.
Qed.

Lemma lookup_foldl_set_column (vals : string → list (option Q))
    (cols : list string) (t : table) (i : nat) :
  foldl (λ acc c, set_column c (vals c) acc) t cols !! i
  = (λ r, foldl (λ r c, set_num r c (default None (vals c !! i))) r cols)
      <$> t !! i.
Proof.
  revert t. induction cols as [|c cols IH]; intros t; simpl.
  - by destruct (t !! i).
  - rewrite IH, lookup_set_column. by destruct (t !! i).
Qed.

Lemma lookup_fill_missing (s : table) (i : nat) :
  fill_missing s !! i
  = fill_row (λ c, default None (filled s c !! i)) <$> s !! i.
Proof. unfold fill_missing. by rewrite lookup_foldl_set_column. Qed.

Lemma clip_column_fmap (t : table) (e : string * (Q * Q)) :
  clip_column t e = (λ r, clip_entry r e) <$> t.
Proof.
  apply list_eq. intros i. unfold clip_column.
  rewrite lookup_set_column, !list_lookup_fmap. unfold column.
  rewrite list_lookup_fmap. by destruct (t !! i).
Qed.

Lemma clip_ranges_fmap (t : table) : clip_ranges t = clip_row <$> t.
Proof.
  unfold clip_ranges, clip_row. generalize VALUE_RANGES. intros es.
  revert t. induction es as [|e es IH]; intros t; simpl.
  - by rewrite list_fmap_id.
  - rewrite IH, clip_column_fmap, <- list_fmap_compose. done.
Qed.

Lemma length_fill_missing (s : table) : length (fill_missing s) = length s.
Proof.
  unfold fill_missing. apply foldl_invariant; [done|].
  intros a c _ <-. apply length_set_column.
Qed.

Lemma key_fill_missing (s : table) : key <$> fill_missing s = key <$> s.
Proof.
  apply list_eq. intros i. rewrite !list_lookup_fmap, lookup_fill_missing.
  destruct (s !! i); [|done]. simpl. unfold fill_row. by rewrite foldl_set_num_key.
Qed.

Lemma clip_entry_key (r : row) (e : string * (Q * Q)) : key (clip_entry r e) = key r.
Proof. done. Qed.

Lemma clip_row_key (r : row) : key (clip_row r) = key r.
Proof.
  unfold clip_row. generalize VALUE_RANGES. intros es. revert r.
  induction es as [|e es IH]; intros r; [done|]. simpl. by rewrite IH.
Qed.

Lemma clip_row_flag (r : row) : flag (clip_row r) = flag r.
Proof.
  unfold clip_row. generalize VALUE_RANGES. intros es. revert r.
  induction es as [|e es IH]; intros r; [done|]. simpl. by rewrite IH.
Qed.

Lemma key_clip_ranges (t : table) : key <$> clip_ranges t = key <$> t.
Proof.
  rewrite clip_ranges_fmap, <- list_fmap_compose. apply list_fmap_ext.
  intros _ r _. apply clip_row_key.
Qed.

Lemma key_clean_data (t : table) :
  key <$> clean_data t = key <$> sort_values (drop_duplicates t).
Proof. unfold clean_data. by rewrite key_clip_ranges, key_fill_missing. Qed.

(** The column loop of [clip_ranges] touches each label once. *)
Lemma VALUE_RANGES_NoDup : NoDup VALUE_RANGES.*1.
Proof. apply (bool_decide_unpack _). by vm_compute. Qed.

Lemma numeric_cols_NoDup : NoDup numeric_cols.
Proof. exact VALUE_RANGES_NoDup. Qed.

Lemma VALUE_RANGES_ordered (c : string) (lo hi : Q) :
  (c, (lo, hi)) ∈ VALUE_RANGES → (lo <= hi)%Q.
Proof.
  unfold VALUE_RANGES. rewrite !elem_of_cons, elem_of_nil.
  intros [H|[H|[H|[H|[H|[]]]]]]; injection H as -> -> ->; by vm_compute.
Qed.

Lemma foldl_clip_entry_notin (es : list (string * (Q * Q))) (r : row) (c : string) :
  c ∉ es.*1 → num (foldl clip_entry r es) !! c = num r !! c.
Proof.
  revert r. induction es as [|e es IH]; intros r Hc; [done|]. simpl in *.
  apply not_elem_of_cons in Hc as [Hne Hc]. rewrite IH by done.
  simpl. by rewrite lookup_insert_ne.
Qed.

Lemma foldl_clip_entry_in (es : list (string * (Q * Q))) (r : row)
    (c : string) (lo hi : Q) :
  NoDup es.*1 → (c, (lo, hi)) ∈ es →
  num (foldl clip_entry r es) !! c = Some (clip lo hi (getnum r c)).
Proof.
  revert r. induction es as [|e es IH]; intros r Hnd Hc; [by apply elem_of_nil in Hc|].
  simpl in *. apply NoDup_cons in Hnd as [He Hnd].
  apply elem_of_cons in Hc as [<-|Hc].
  - rewrite foldl_clip_entry_notin by done. simpl. by rewrite lookup_insert_eq.
  - rewrite IH by done. do 2 f_equal. unfold clip_entry.
    apply getnum_set_num_ne. intros ->. apply He.
    apply list_elem_of_fmap. by exists (e.1, (lo, hi)).
Qed.

Lemma clip_row_lookup (r : row) (c : string) (lo hi : Q) :
  (c, (lo, hi)) ∈ VALUE_RANGES →
  num (clip_row r) !! c = Some (clip lo hi (getnum r c)).
Proof. apply foldl_clip_entry_in, VALUE_RANGES_NoDup. Qed.

Lemma clip_row_lookup_other (r : row) (c : string) :
  c ∉ numeric_cols → num (clip_row r) !! c = num r !! c.
Proof. apply foldl_clip_entry_notin. Qed.

Lemma foldl_clip_entry_id (es : list (string * (Q * Q))) (r : row) :
  (∀ e, e ∈ es → num r !! e.1 = Some (clip e.2.1 e.2.2 (getnum r e.1))) →
  foldl clip_entry r es = r.
Proof.
  induction es as [|e es IH]; intros H; [done|]. simpl.
  unfold clip_entry at 2. rewrite set_num_id by (apply H; by left).
  apply IH. intros e' He'. apply H. by right.
Qed.

(** ** [clip] *)

Lemma clip_range (lo hi : Q) (x : option Q) (v : Q) :
  (lo <= hi)%Q → clip lo hi x = Some v → (lo <= v <= hi)%Q.
Proof.
  intros Hlh. destruct x as [q|]; [|done]. unfold clip.
  destruct (Qlt_le_dec q lo); [intros [= <-]; split; [apply Qle_refl|done]|].
  destruct (Qlt_le_dec hi q); intros [= <-]; split; auto using Qle_refl.
Qed.

Lemma clip_fixed (lo hi : Q) (v : Q) :
  (lo <= v <= hi)%Q → clip lo hi (Some v) = Some v.
Proof.
  intros [H1 H2]. unfold clip.
  destruct (Qlt_le_dec v lo) as [H|_]; [exfalso; by apply (Qlt_not_le _ _ H)|].
  destruct (Qlt_le_dec hi v) as [H|_]; [exfalso; by apply (Qlt_not_le _ _ H)|].
  done.
Qed.

Lemma clip_idemp (lo hi : Q) (x : option Q) :
  (lo <= hi)%Q → clip lo hi (clip lo hi x) = clip lo hi x.
Proof.
  intros Hlh. destruct (clip lo hi x) as [v|] eqn:E; [|done].
  apply clip_fixed. by apply (clip_range lo hi x).
Qed.

Lemma clip_is_Some (lo hi : Q) (x : option Q) : is_Some (clip lo hi x) ↔ is_Some x.
Proof.
  destruct x as [q|]; simpl; [|done].
  split; [eauto|]. intros _. destruct (Qlt_le_dec q lo); [eauto|].
  destruct (Qlt_le_dec hi q); eauto.
Qed.

Lemma getnum_clip_row (r : row) (c : string) (lo hi : Q) :
  (c, (lo, hi)) ∈ VALUE_RANGES → getnum (clip_row r) c = clip lo hi (getnum r c).
Proof. intros He. unfold getnum at 1. by rewrite (clip_row_lookup r c lo hi He). Qed.

Lemma clip_row_idemp (r : row) : clip_row (clip_row r) = clip_row r.
Proof.
  apply foldl_clip_entry_id. intros [c [lo hi]] He. cbn [fst snd].
  rewrite (getnum_clip_row r c lo hi He), (clip_row_lookup r c lo hi He).
  f_equal. symmetry. apply clip_idemp. by apply (VALUE_RANGES_ordered c).
Qed.

Lemma clip_ranges_idemp (t : table) : clip_ranges (clip_ranges t) = clip_ranges t.
Proof.
  rewrite !clip_ranges_fmap, <- list_fmap_compose. apply list_fmap_ext.
  intros _ r _. apply clip_row_idemp.
Qed.

(** ** Filling *)

Lemma ffill_from_some (last : option Q) (xs : list (option Q)) :
  Forall is_Some xs → ffill_from last xs = xs.
Proof.
  intros H. revert last. induction H as [|x xs [q ->] _ IH]; intros last; [done|].
  simpl. by rewrite IH.
Qed.

Lemma ffill_none (xs : list (option Q)) :
  Forall (λ x, x = None) xs → ffill xs = xs.
Proof.
  unfold ffill. induction 1 as [|x xs -> _ IH]; [done|]. simpl. by rewrite IH.
Qed.

Lemma bfill_some (xs : list (option Q)) : Forall is_Some xs → bfill xs = xs.
Proof. induction 1 as [|x xs [q ->] _ IH]; [done|]. simpl. by rewrite IH. Qed.

Lemma bfill_none (xs : list (option Q)) :
  Forall (λ x, x = None) xs → bfill xs = xs.
Proof.
  induction 1 as [|x xs -> H IH]; [done|]. simpl. rewrite IH.
  destruct H as [|y ys -> _]; done.
Qed.

Lemma ffill_bfill_settled (xs : list (option Q)) :
  settled xs → ffill_bfill xs = xs.
Proof.
  unfold ffill_bfill. intros [H|H].
  - unfold ffill. rewrite ffill_from_some by done. by apply bfill_some.
  - rewrite ffill_none by done. by apply bfill_none.
Qed.

Lemma Forall_partition (P : option Q → Prop) (m : string)
    (g : list (string * option Q)) :
  Forall P g.*2 → Forall P (partition m g).
Proof.
  rewrite !Forall_forall. intros H x Hx. apply H. unfold partition in Hx.
  apply list_elem_of_fmap in Hx as (p & -> & Hp).
  apply list_elem_of_filter in Hp as [_ Hp].
  apply list_elem_of_fmap. eauto.
Qed.

Lemma settled_partition (m : string) (g : list (string * option Q)) :
  settled g.*2 → settled (partition m g).
Proof. intros [H|H]; [left|right]; by apply Forall_partition. Qed.

Lemma non_null_nil (xs : list (option Q)) :
  non_null xs = [] ↔ Forall (λ x, x = None) xs.
Proof.
  unfold non_null. induction xs as [|[q|] xs IH]; simpl.
  - split; [constructor|done].
  - split; [done|]. intros H. by apply Forall_cons in H as [? _].
  - rewrite IH. split; [by constructor|]. intros H. by apply Forall_cons in H as [_ ?].
Qed.

Lemma mean_None (xs : list (option Q)) :
  mean xs = None ↔ Forall (λ x, x = None) xs.
Proof.
  rewrite <- non_null_nil. unfold mean. by destruct (non_null xs).
Qed.

Lemma mean_is_Some (xs : list (option Q)) :
  is_Some (mean xs) ↔ ∃ x, x ∈ xs ∧ x ≠ None.
Proof.
  split.
  - intros [m Hm]. destruct (decide (Forall (λ x, x = None) xs)) as [H|H].
    + apply mean_None in H. congruence.
    + apply not_Forall_Exists in H; [|apply _].
      apply Exists_exists in H. done.
  - intros (x & Hx & Hne). destruct (mean xs) eqn:E; [eauto|].
    apply mean_None in E. rewrite Forall_forall in E. by destruct (Hne (E x Hx)).
Qed.

Lemma fillna_some (v : option Q) (xs : list (option Q)) :
  Forall is_Some xs → fillna v xs = xs.
Proof.
  unfold fillna. induction 1 as [|x xs [q ->] _ IH]; [done|].
  rewrite fmap_cons. by rewrite IH.
Qed.

Lemma fillna_none (xs : list (option Q)) :
  Forall (λ x, x = None) xs → fillna None xs = xs.
Proof.
  unfold fillna. induction 1 as [|x xs -> _ IH]; [done|].
  rewrite fmap_cons. by rewrite IH.
Qed.

Lemma fillna_settled_id (xs : list (option Q)) :
  settled xs → fillna (mean xs) xs = xs.
Proof.
  intros [H|H]; [by apply fillna_some|].
  apply mean_None in H as Hm. rewrite Hm. by apply fillna_none.
Qed.

Lemma filled_settled_id (t : table) (c : string) :
  settled (column c t) → filled t c = column c t.
Proof.
  intros H. unfold filled. rewrite transform_fixed.
  - rewrite <- column_groupby. by apply fillna_settled_id.
  - intros m. apply ffill_bfill_settled, settled_partition.
    by rewrite <- column_groupby.
Qed.

Lemma length_filled (t : table) (c : string) : length (filled t c) = length t.
Proof.
  unfold filled. by rewrite fillna_length, length_transform, length_groupby.
Qed.

Lemma filled_settled (t : table) (c : string) : settled (filled t c).
Proof.
  destruct (mean (column c t)) as [m|] eqn:E.
  - left. unfold filled, fillna. rewrite E. apply Forall_fmap, Forall_true.
    intros [q|]; simpl; eauto.
  - right. apply mean_None in E as H. rewrite filled_settled_id by by right.
    done.
Qed.

Lemma filled_is_Some (t : table) (c : string) (i : nat) (x : option Q) :
  is_Some (mean (column c t)) → filled t c !! i = Some x → is_Some x.
Proof.
  intros [m Hm]. unfold filled, fillna. rewrite Hm, list_lookup_fmap.
  destruct (transform ffill_bfill (groupby c t) !! i) as [[q|]|]; simpl;
    intros [= <-]; eauto.
Qed.

(** ** The cells [clean_data] leaves *)

Lemma lookup_clean_data (t : table) (i : nat) :
  clean_data t !! i
  = clean_row (sort_values (drop_duplicates t)) i
      <$> sort_values (drop_duplicates t) !! i.
Proof.
  unfold clean_data. rewrite clip_ranges_fmap, list_lookup_fmap.
  rewrite lookup_fill_missing. by destruct (_ !! i).
Qed.

Lemma getnum_fill_row (vals : string → option Q) (r : row) (c : string) :
  c ∈ numeric_cols → getnum (fill_row vals r) c = vals c.
Proof.
  intros Hc. unfold getnum, fill_row. by rewrite foldl_set_num_in.
Qed.

Lemma VALUE_RANGES_numeric (c : string) (lo hi : Q) :
  (c, (lo, hi)) ∈ VALUE_RANGES → c ∈ numeric_cols.
Proof. intros H. apply list_elem_of_fmap. by exists (c, (lo, hi)). Qed.

Lemma numeric_VALUE_RANGES (c : string) :
  c ∈ numeric_cols → ∃ lo hi, (c, (lo, hi)) ∈ VALUE_RANGES.
Proof. intros ([c' [lo hi]] & -> & H)%list_elem_of_fmap. eauto. Qed.

Lemma getnum_clean_row (s : table) (i : nat) (r : row) (c : string) (lo hi : Q) :
  (c, (lo, hi)) ∈ VALUE_RANGES →
  getnum (clean_row s i r) c = clip lo hi (default None (filled s c !! i)).
Proof.
  intros He. unfold clean_row. rewrite (getnum_clip_row _ c lo hi He).
  by rewrite getnum_fill_row by by apply (VALUE_RANGES_numeric c lo hi).
Qed.

Lemma num_clean_row (s : table) (i : nat) (r : row) (c : string) :
  c ∈ numeric_cols →
  num (clean_row s i r) !! c = Some (getnum (clean_row s i r) c).
Proof.
  intros (lo & hi & He)%numeric_VALUE_RANGES. unfold clean_row.
  rewrite (getnum_clip_row _ c lo hi He). by apply clip_row_lookup.
Qed.

Lemma column_clean_data (t : table) (c : string) (lo hi : Q) :
  (c, (lo, hi)) ∈ VALUE_RANGES →
  column c (clean_data t)
  = clip lo hi <$> filled (sort_values (drop_duplicates t)) c.
Proof.
  intros He. apply list_eq. intros i. unfold column.
  rewrite !list_lookup_fmap, lookup_clean_data.
  destruct (sort_values (drop_duplicates t) !! i) as [r|] eqn:E; simpl.
  - rewrite (getnum_clean_row _ _ _ _ _ _ He).
    apply lookup_lt_Some in E. rewrite <- (length_filled _ c) in E.
    apply lookup_lt_is_Some in E as [x ->]. done.
  - apply lookup_ge_None in E. rewrite <- (length_filled _ c) in E.
    apply lookup_ge_None in E. by rewrite E.
Qed.

Lemma settled_clip (lo hi : Q) (xs : list (option Q)) :
  settled xs → settled (clip lo hi <$> xs).
Proof.
  intros [H|H]; [left|right]; apply Forall_fmap; eapply Forall_impl; eauto.
  - intros x Hx. by apply clip_is_Some.
  - by intros x ->.
Qed.

Lemma column_clean_data_settled (t : table) (c : string) :
  c ∈ numeric_cols → settled (column c (clean_data t)).
Proof.
  intros (lo & hi & He)%numeric_VALUE_RANGES.
  rewrite (column_clean_data t c lo hi He). apply settled_clip, filled_settled.
Qed.

(** ** Cleaning a cleaned table *)

Lemma row_leb_keys (a b a' b' : row) :
  key a = key a' → key b = key b' → row_leb a b = row_leb a' b'.
Proof.
  unfold key, row_leb. intros [= Ha1 Ha2] [= Hb1 Hb2].
  by rewrite Ha1, Ha2, Hb1, Hb2.
Qed.

Lemma Sorted_rows_keys (t1 t2 : table) :
  key <$> t1 = key <$> t2 → Sorted_rows t1 → Sorted_rows t2.
Proof.
  intros Hk H. revert t2 Hk.
  induction H as [|x t Hx Ht IH]; intros [|y t2] Hk; try done; [constructor|].
  rewrite !fmap_cons in Hk.
  assert (key x = key y ∧ key <$> t = key <$> t2) as [Hxy Hk'].
  { split; [|by injection Hk]. unfold key. injection Hk as H1 H2 _.
    by rewrite H1, H2. }
  clear Hk. rename Hk' into Hk. constructor; [|by apply IH].
  apply Forall_forall. intros z Hz.
  apply list_elem_of_lookup in Hz as [j Hj].
  assert ((key <$> t) !! j = Some (key z)) as Hj'.
  { by rewrite Hk, list_lookup_fmap, Hj. }
  rewrite list_lookup_fmap in Hj'.
  destruct (t !! j) as [z'|] eqn:Ez; [|done].
  assert (key z' = key z) as Hzz by (simpl in Hj'; congruence).
  rewrite <- (row_leb_keys x z' y z) by done.
  rewrite Forall_forall in Hx. apply Hx.
  apply list_elem_of_lookup. eauto.
Qed.

Lemma clean_data_sorted (t : table) : Sorted_rows (clean_data t).
Proof.
  apply (Sorted_rows_keys (sort_values (drop_duplicates t))).
  - by rewrite key_clean_data.
  - apply sort_values_sorted.
Qed.

Lemma clean_data_NoDup (t : table) : NoDup (key <$> clean_data t).
Proof.
  rewrite key_clean_data, sort_drop_duplicates. apply drop_duplicates_NoDup.
Qed.

Lemma fill_missing_clean_data (t : table) :
  fill_missing (clean_data t) = clean_data t.
Proof.
  apply list_eq. intros i. rewrite lookup_fill_missing.
  destruct (clean_data t !! i) as [r|] eqn:E; [|done]. simpl. f_equal.
  apply foldl_set_num_id. intros c Hc.
  rewrite filled_settled_id by by apply column_clean_data_settled.
  unfold column. rewrite list_lookup_fmap, E. simpl.
  rewrite lookup_clean_data in E.
  destruct (sort_values (drop_duplicates t) !! i) as [r0|]; [|done].
  injection E as <-. by apply num_clean_row.
Qed.

Lemma clip_ranges_clean_data (t : table) :
  clip_ranges (clean_data t) = clean_data t.
Proof. unfold clean_data. apply clip_ranges_idemp. Qed.

(** ** What [clean_data] returns *)

(** C7. [clean_data] is idempotent: cleaning the table it returns gives
    that table again; no row is removed or moved and no cell changes. *)
Theorem clean_data_idempotent (t : table) :
  clean_data (clean_data t) = clean_data t.
Proof.
  unfold clean_data at 1.
  rewrite drop_duplicates_id by apply clean_data_NoDup.
  rewrite sort_values_id by apply clean_data_sorted.
  rewrite fill_missing_clean_data. apply clip_ranges_clean_data.
Qed.

Lemma sort_values_Permutation (t : table) : sort_values t ≡ₚ t.
Proof.
  induction t as [|r t IH]; [done|]. simpl. rewrite <- IH at 2.
  generalize (sort_values t). intros l. induction l as [|x l IHl]; [done|].
  simpl. destruct (row_leb r x); [done|].
  rewrite IHl. apply Permutation_swap.
Qed.

Lemma clean_data_retained (t : table) :
  Forall2 (λ r' r, key r' = key r ∧ flag r' = flag r ∧
                   ∀ c, c ∉ numeric_cols → num r' !! c = num r !! c)
    (clean_data t) (drop_duplicates (sort_values t)).
Proof.
  rewrite <- sort_drop_duplicates. apply Forall2_same_length_lookup. split.
  - unfold clean_data. rewrite clip_ranges_fmap, length_fmap.
    apply length_fill_missing.
  - intros i r' r Hr' Hr. rewrite lookup_clean_data, Hr in Hr'.
    injection Hr' as <-. unfold clean_row, fill_row.
    rewrite clip_row_key, clip_row_flag, foldl_set_num_key, foldl_set_num_flag.
    split; [done|]. split; [done|]. intros c Hc.
    rewrite clip_row_lookup_other by done. by apply foldl_set_num_notin.
Qed.

(** C2. [clean_data] removes the rows that repeat the (timestamp,
    machine_id) pair of another row: the keys of its result are pairwise
    distinct and are the keys of the input.  The row it keeps for a key is
    the first row with that key in the table sorted by (machine_id,
    timestamp): the result is the sorted table with every later duplicate
    dropped, then filled and clipped, and row by row it carries the key,
    the flags and the other columns of the kept row. *)
Theorem clean_data_keeps_first_after_sort (t : table) :
  clean_data t = clip_ranges (fill_missing (drop_duplicates (sort_values t)))
  ∧ (∀ r, r ∈ drop_duplicates (sort_values t)
          ↔ first_with_key (key r) (sort_values t) = Some r)
  ∧ Forall2 (λ r' r, key r' = key r ∧ flag r' = flag r ∧
                     ∀ c, c ∉ numeric_cols → num r' !! c = num r !! c)
      (clean_data t) (drop_duplicates (sort_values t))
  ∧ NoDup (key <$> clean_data t)
  ∧ (∀ k, k ∈ key <$> t ↔ k ∈ key <$> clean_data t).
Proof.
  split; [|split; [|split; [|split]]].
  - unfold clean_data. by rewrite sort_drop_duplicates.
  - intros r. apply drop_duplicates_first.
  - apply clean_data_retained.
  - apply clean_data_NoDup.
  - intros k. rewrite key_clean_data, sort_drop_duplicates.
    rewrite <- drop_duplicates_keys.
    by rewrite (fmap_Permutation key _ _ (sort_values_Permutation t)).
Qed.

Lemma length_clean_data (t : table) :
  length (clean_data t) + length (duplicated t) = length t.
Proof.
  rewrite <- (drop_duplicates_length t). f_equal.
  rewrite <- (length_fmap key), key_clean_data, length_fmap.
  apply sort_values_length.
Qed.

Lemma lookup_clean_data_getnum (t : table) (r : row) (c : string) (lo hi : Q) :
  r ∈ clean_data t → (c, (lo, hi)) ∈ VALUE_RANGES →
  ∃ i x, filled (sort_values (drop_duplicates t)) c !! i = Some x
         ∧ getnum r c = clip lo hi x.
Proof.
  intros [i Hi]%list_elem_of_lookup He. rewrite lookup_clean_data in Hi.
  destruct (sort_values (drop_duplicates t) !! i) as [r0|] eqn:E; [|done].
  injection Hi as <-. rewrite (getnum_clean_row _ _ _ _ _ _ He).
  apply lookup_lt_Some in E. rewrite <- (length_filled _ c) in E.
  apply lookup_lt_is_Some in E as [x Hx]. exists i, x. by rewrite Hx.
Qed.

(** X27. On a table with at least one row, the row count of
    [clean_data t] is that of [t] less the rows dropped as duplicates;
    every sensor value that is not missing lies in its range, bounds
    included; and a sensor column holds no missing value provided at least
    one row that survives the deduplication has a value in that column. *)
Theorem clean_data_range_and_count (t : table) :
  t ≠ [] →
  length (clean_data t) + length (duplicated t) = length t
  ∧ (∀ r c lo hi v, r ∈ clean_data t → (c, (lo, hi)) ∈ VALUE_RANGES →
       getnum r c = Some v → (lo <= v <= hi)%Q)
  ∧ (∀ c, c ∈ numeric_cols → column_has_value c (drop_duplicates t) →
       ∀ r, r ∈ clean_data t → getnum r c ≠ None).
Proof.
  intros _. split; [apply length_clean_data|]. split.
  - intros r c lo hi v Hr He Hv.
    destruct (lookup_clean_data_getnum t r c lo hi Hr He) as (i & x & _ & Hx).
    rewrite Hx in Hv. apply (clip_range lo hi x); [|done].
    by apply (VALUE_RANGES_ordered c).
  - intros c Hc (r0 & Hr0 & Hv0) r Hr.
    destruct (numeric_VALUE_RANGES c Hc) as (lo & hi & He).
    destruct (lookup_clean_data_getnum t r c lo hi Hr He) as (i & x & Hi & Hx).
    rewrite Hx. assert (is_Some x) as Hsome.
    { apply (filled_is_Some (sort_values (drop_duplicates t)) c i); [|done].
      apply mean_is_Some.
      exists (getnum r0 c). split; [|done]. apply list_elem_of_fmap.
      exists r0. split; [done|]. by apply sort_values_elem. }
    apply clip_is_Some with (lo := lo) (hi := hi) in Hsome.
    destruct Hsome as [v ->]. done.
Qed.

(** ** Means and deviations of a constant series *)

Lemma Qlen_cons (y : Q) (ys : list Q) : (Qlen (y :: ys) == 1 + Qlen ys)%Q.
Proof.
  unfold Qlen. cbn [length]. rewrite Nat2Z.inj_succ, <- Z.add_1_l.
  by rewrite inject_Z_plus.
Qed.

Lemma Qlen_nonneg (ys : list Q) : (0 <= Qlen ys)%Q.
Proof.
  unfold Qlen. change 0%Q with (inject_Z 0). rewrite <- Zle_Qle. lia.
Qed.

Lemma Qsum_const (x : Q) (ys : list Q) :
  Forall (λ y, y == x)%Q ys → (Qsum ys == Qlen ys * x)%Q.
Proof.
  induction 1 as [|y ys Hy _ IH].
  - unfold Qsum, Qlen. cbn. ring.
  - unfold Qsum in *. cbn [foldr]. rewrite Qlen_cons, IH, Hy. ring.
Qed.

Lemma sq_dev_const (x m : Q) (ys : list Q) :
  Forall (λ y, y == x)%Q ys → (m == x)%Q → (sq_dev m ys == 0)%Q.
Proof.
  intros H Hm. unfold sq_dev, Qsum. induction H as [|y ys Hy _ IH].
  - cbn. reflexivity.
  - rewrite fmap_cons. cbn [foldr]. rewrite IH, Hy, Hm. ring.
Qed.

Lemma mean_const (x : Q) (xs : list (option Q)) (m : Q) :
  Forall (λ y, y == x)%Q (non_null xs) → mean xs = Some m → (m == x)%Q.
Proof.
  unfold mean. destruct (non_null xs) as [|y ys]; [done|].
  intros H [= <-]. pose proof (Qsum_const x _ H) as Hs. rewrite Hs.
  assert (0 < Qlen (y :: ys))%Q.
  { rewrite Qlen_cons. pose proof (Qlen_nonneg ys). lra. }
  field. lra.
Qed.

Section Zscore.

Variable sqrt : Q → Q.
Hypothesis sqrt_zero : ∀ q, (q == 0)%Q → (sqrt q == 0)%Q.

(** The standard deviation of a constant series is zero, or NaN when the
    series has fewer than two values. *)
Lemma std_const (x : Q) (xs : list (option Q)) (s : Q) :
  Forall (λ y, y == x)%Q (non_null xs) → std sqrt xs = Some s → (s == 0)%Q.
Proof.
  intros H. unfold std. destruct (mean xs) as [m|] eqn:Em; [|done].
  destruct (decide (length (non_null xs) ≤ 1)); [done|].
  intros [= <-]. apply sqrt_zero.
  rewrite (sq_dev_const x) by eauto using mean_const.
  unfold Qdiv. ring.
Qed.

Lemma zscore_cell_const (x : Q) (v : option Q) (p : list (option Q)) :
  Forall (λ y, y == x)%Q (non_null p) → zscore_cell sqrt v p = Some 0%Q.
Proof.
  intros H. unfold zscore_cell. destruct (std sqrt p) as [s|] eqn:Es.
  - apply (std_const x) in Es; [|done].
    apply Qeq_bool_iff in Es. rewrite Es.
    by destruct (cell_sub v (mean p)).
  - by destruct (cell_sub v (mean p)).
Qed.

Lemma lookup_zscore_column (col : string) (df : table) (i : nat) (r : row) :
  df !! i = Some r →
  zscore_column sqrt col df !! i
  = Some (zscore_cell sqrt (getnum r col)
            (partition (machine_id r) (groupby col df))).
Proof.
  intros Hi. unfold zscore_column, fillna, replace_zero_nan, zscore_cell.
  assert (groupby col df !! i = Some (machine_id r, getnum r col)) as Hg.
  { unfold groupby. by rewrite list_lookup_fmap, Hi. }
  rewrite list_lookup_fmap, !lookup_zip_with, list_lookup_fmap.
  unfold column. rewrite list_lookup_fmap, Hi.
  rewrite !(lookup_transform_agg _ _ _ _ _ Hg). simpl.
  by destruct (cell_div _ _).
Qed.

Lemma length_zscore_column (col : string) (df : table) :
  length (zscore_column sqrt col df) = length df.
Proof.
  unfold zscore_column, replace_zero_nan.
  rewrite fillna_length, !length_zip_with, length_fmap, length_column.
  rewrite !length_transform_agg, length_groupby. lia.
Qed.

Lemma zscore_column_ext (col : string) (df df' : table) :
  groupby col df = groupby col df' →
  zscore_column sqrt col df = zscore_column sqrt col df'.
Proof. intros H. unfold zscore_column. by rewrite !column_groupby, H. Qed.

Lemma key_compute_z_scores (df : table) (cols : list string) :
  key <$> compute_z_scores sqrt df cols = key <$> df.
Proof.
  unfold compute_z_scores. apply foldl_invariant; [done|].
  intros a c _ <-. apply key_set_column.
Qed.

Lemma length_compute_z_scores (df : table) (cols : list string) :
  length (compute_z_scores sqrt df cols) = length df.
Proof. by rewrite <- (length_fmap key), key_compute_z_scores, length_fmap. Qed.

Lemma groupby_compute_z_scores (df : table) (cols : list string) (c : string) :
  (∀ c', c' ∈ cols → c ≠ c' +:+ "_zscore") →
  groupby c (compute_z_scores sqrt df cols) = groupby c df.
Proof.
  unfold compute_z_scores. revert df.
  induction cols as [|c' cols IH]; intros df H; [done|]. simpl.
  rewrite IH by (intros c'' ?; apply H; by right).
  unfold add_zscore. apply groupby_set_column_ne. apply H. by left.
Qed.

Lemma column_compute_z_scores (df : table) (cols : list string) (c : string) :
  zscore_labels_fresh cols → c ∈ cols →
  column (c +:+ "_zscore") (compute_z_scores sqrt df cols)
  = zscore_column sqrt c df.
Proof.
  unfold compute_z_scores. induction cols as [|c' cols IH] using rev_ind;
    intros Hfresh Hc; [by apply elem_of_nil in Hc|].
  rewrite foldl_snoc. unfold add_zscore at 1.
  assert (zscore_labels_fresh cols) as Hfresh'.
  { intros a b Ha Hb. apply Hfresh; apply elem_of_app; by left. }
  destruct (decide (c = c')) as [->|Hne].
  - rewrite column_set_column_eq.
    + apply zscore_column_ext. apply groupby_compute_z_scores.
      intros c'' Hc''. apply Hfresh; apply elem_of_app; [by right; left|by left].
    + rewrite length_zscore_column. done.
  - rewrite column_set_column_ne.
    + apply IH; [done|]. apply elem_of_app in Hc as [Hc|Hc]; [done|].
      apply list_elem_of_singleton in Hc. done.
    + intros E. by apply string_app_inj_r in E.
Qed.

Lemma lookup_compute_z_scores (df : table) (cols : list string) (c : string)
    (i : nat) (r' : row) :
  zscore_labels_fresh cols → c ∈ cols →
  compute_z_scores sqrt df cols !! i = Some r' →
  ∃ r, df !! i = Some r ∧ key r' = key r
       ∧ getnum r' (c +:+ "_zscore")
         = zscore_cell sqrt (getnum r c)
             (partition (machine_id r) (groupby c df)).
Proof.
  intros Hfresh Hc Hi.
  assert ((key <$> df) !! i = Some (key r')) as Hk.
  { by rewrite <- (key_compute_z_scores df cols), list_lookup_fmap, Hi. }
  rewrite list_lookup_fmap in Hk. destruct (df !! i) as [r|] eqn:E; [|done].
  exists r. split; [done|]. split; [simpl in Hk; congruence|].
  pose proof (column_compute_z_scores df cols c Hfresh Hc) as Hcol.
  apply (f_equal (λ l, l !! i)) in Hcol. unfold column in Hcol at 1.
  rewrite list_lookup_fmap, Hi, (lookup_zscore_column _ _ _ _ E) in Hcol.
  simpl in Hcol. congruence.
Qed.

End Zscore.

Lemma elem_of_partition (m c : string) (df : table) (v : option Q) :
  v ∈ partition m (groupby c df) →
  ∃ r, r ∈ df ∧ machine_id r = m ∧ getnum r c = v.
Proof.
  unfold partition, groupby. intros (p & -> & Hp)%list_elem_of_fmap.
  apply list_elem_of_filter in Hp as [Hm Hp].
  apply list_elem_of_fmap in Hp as (r & -> & Hr). eauto.
Qed.

Lemma constant_on_partition (df : table) (m c : string) (x : Q) :
  constant_on df m c x →
  Forall (λ y, y == x)%Q (non_null (partition m (groupby c df))).
Proof.
  intros H. apply Forall_forall. intros y Hy. unfold non_null in Hy.
  apply list_elem_of_omap in Hy as (v & Hv & Hy). simpl in Hy. subst v.
  apply elem_of_partition in Hv as (r & Hr & Hm & Hv).
  rewrite (H r Hr Hm) in Hv. injection Hv as ->. reflexivity.
Qed.

Lemma lookup_flag_zscore_anomalies (df : table) (cols : list string)
    (threshold : Q) (i : nat) :
  flag_zscore_anomalies df cols threshold !! i
  = (λ r, set_flag r "anomaly_zscore" (zscore_exceeds threshold cols r))
      <$> df !! i.
Proof.
  unfold flag_zscore_anomalies. rewrite lookup_set_flag_column.
  rewrite list_lookup_fmap. by destruct (df !! i).
Qed.

Lemma cell_ltb_abs_zero (threshold : Q) :
  (0 < threshold)%Q → cell_ltb (Some threshold) (cell_abs (Some 0%Q)) = false.
Proof.
  intros Hth. unfold cell_ltb, cell_abs, Qlt_bool. cbn [fmap option_fmap option_map].
  apply negb_false_iff, Qle_bool_iff. change (Qabs 0) with 0%Q. lra.
Qed.

Lemma zscore_exceeds_zero (threshold : Q) (cols : list string) (r : row) :
  (0 < threshold)%Q →
  (∀ c, c ∈ cols → getnum r (c +:+ "_zscore") = Some 0%Q) →
  zscore_exceeds threshold cols r = false.
Proof.
  intros Hth. unfold zscore_exceeds.
  induction cols as [|c cols IH]; intros H; [done|].
  rewrite fmap_cons. cbn [existsb]. rewrite IH by (intros; apply H; by right).
  rewrite (H c) by by left. by rewrite cell_ltb_abs_zero.
Qed.

Section Zscore.

Variable sqrt : Q → Q.
Hypothesis sqrt_zero : ∀ q, (q == 0)%Q → (sqrt q == 0)%Q.

Lemma compute_z_scores_constant (df : table) (cols : list string)
    (m c : string) (x : Q) (r : row) :
  zscore_labels_fresh cols → c ∈ cols → constant_on df m c x →
  r ∈ compute_z_scores sqrt df cols → machine_id r = m →
  getnum r (c +:+ "_zscore") = Some 0%Q.
Proof.
  intros Hfresh Hc Hconst [i Hi]%list_elem_of_lookup Hm.
  destruct (lookup_compute_z_scores sqrt df cols c i r Hfresh Hc Hi)
    as (r0 & Hr0 & Hk & ->).
  assert (machine_id r0 = m) as -> by (injection Hk; congruence).
  apply (zscore_cell_const sqrt sqrt_zero x).
  by apply constant_on_partition.
Qed.

(** C1. Where a machine reads a constant in a sensor column,
    [compute_z_scores] gives z-score 0 to every row of that machine for
    that sensor; and where every configured sensor is constant for the
    machine, [flag_zscore_anomalies] leaves [anomaly_zscore] false on each
    of its rows, for every threshold above 0. *)
Theorem constant_partition_not_flagged (df : table) (cols : list string)
    (m : string) :
  zscore_labels_fresh cols →
  (∀ c x r, c ∈ cols → constant_on df m c x →
     r ∈ compute_z_scores sqrt df cols → machine_id r = m →
     getnum r (c +:+ "_zscore") = Some 0%Q)
  ∧ (∀ threshold r, (0 < threshold)%Q →
       (∀ c, c ∈ cols → ∃ x, constant_on df m c x) →
       r ∈ flag_zscore_anomalies (compute_z_scores sqrt df cols) cols threshold →
       machine_id r = m → flag r !! "anomaly_zscore" = Some false).
Proof.
  intros Hfresh. split.
  { intros c x r Hc Hconst Hr Hm.
    by apply (compute_z_scores_constant df cols m c x). }
  intros threshold r' Hth Hconst [i Hi]%list_elem_of_lookup Hm.
  rewrite lookup_flag_zscore_anomalies in Hi.
  destruct (compute_z_scores sqrt df cols !! i) as [r|] eqn:E; [|done].
  injection Hi as <-. simpl in *. rewrite lookup_insert_eq. f_equal.
  apply zscore_exceeds_zero; [done|]. intros c Hc.
  destruct (Hconst c Hc) as [x Hx].
  apply (compute_z_scores_constant df cols m c x); [done..| |done].
  apply list_elem_of_lookup. eauto.
Qed.

End Zscore.

(** ** The combined flag *)

Lemma combined_anomaly_score_fmap (df : table) :
  combined_anomaly_score df = combine_row <$> df.
Proof.
  apply list_eq. intros i. unfold combined_anomaly_score, flag_column.
  rewrite lookup_set_flag_column, lookup_zip_with, !list_lookup_fmap.
  by destruct (df !! i).
Qed.

(** C3. [combined_anomaly_score] writes, on every row, the flag
    [anomaly_combined] as the boolean "or" of the row's [anomaly_zscore]
    and [anomaly_iqr]; it changes nothing else, and the flag of a row is
    computed from that row alone. *)
Theorem combined_anomaly_score_is_or (df : table) :
  combined_anomaly_score df = combine_row <$> df
  ∧ (∀ r a b, r ∈ combined_anomaly_score df →
       flag r !! "anomaly_zscore" = Some a → flag r !! "anomaly_iqr" = Some b →
       flag r !! "anomaly_combined" = Some (a || b))
  ∧ (∀ df1 df2, combined_anomaly_score (df1 ++ df2)
                = combined_anomaly_score df1 ++ combined_anomaly_score df2).
Proof.
  split; [apply combined_anomaly_score_fmap|]. split.
  - intros r' a b. rewrite combined_anomaly_score_fmap.
    intros (r & -> & _)%list_elem_of_fmap. unfold combine_row, getflag. simpl.
    rewrite !lookup_insert_ne by done. intros -> ->.
    by rewrite lookup_insert_eq.
  - intros df1 df2. by rewrite !combined_anomaly_score_fmap, fmap_app.
Qed.

(** ** IQR bounds and flags *)

Lemma Qlt_bool_iff (x y : Q) : Qlt_bool x y = true ↔ (x < y)%Q.
Proof.
  unfold Qlt_bool. rewrite negb_true_iff, <- not_true_iff_false, Qle_bool_iff.
  split; [apply Qnot_le_lt|apply Qlt_not_le].
Qed.

Lemma cell_ltb_iff (a b : option Q) :
  cell_ltb a b = true ↔ ∃ x y, a = Some x ∧ b = Some y ∧ (x < y)%Q.
Proof.
  destruct a as [x|], b as [y|]; simpl; try (split; [done|by intros (?&?&?&?&?)]).
  rewrite Qlt_bool_iff. split; [eauto|]. by intros (x' & y' & [= <-] & [= <-] & H).
Qed.

Lemma outside_bounds_iff (bounds : gmap string (option Q * option Q))
    (r : row) (c : string) :
  outside_bounds bounds r c = true
  ↔ strictly_outside (getnum r c) (default (None, None) (bounds !! c)).1
      (default (None, None) (bounds !! c)).2.
Proof.
  unfold outside_bounds, strictly_outside.
  rewrite orb_true_iff, !cell_ltb_iff. split.
  - intros [(x & y & Hx & Hy & H)|(x & y & Hx & Hy & H)]; eauto 10.
  - intros (v & Hv & [(lo & Hlo & H)|(hi & Hhi & H)]); eauto 10.
Qed.

Lemma lookup_compute_iqr_bounds (df : table) (cols : list string)
    (multiplier : Q) (c : string) :
  compute_iqr_bounds df cols multiplier !! c
  = if decide (c ∈ cols) then Some (iqr_bounds_of multiplier (column c df))
    else None.
Proof.
  unfold compute_iqr_bounds. induction cols as [|c' cols IH] using rev_ind.
  - rewrite decide_False by apply not_elem_of_nil. apply lookup_empty.
  - rewrite foldl_snoc. destruct (decide (c = c')) as [->|Hne].
    + rewrite lookup_insert_eq, decide_True; [done|].
      apply elem_of_app. right. by left.
    + rewrite lookup_insert_ne, IH by done.
      destruct (decide (c ∈ cols)) as [Hin|Hin].
      * rewrite decide_True; [done|]. apply elem_of_app. by left.
      * rewrite decide_False; [done|]. rewrite elem_of_app.
        intros [?|?%list_elem_of_singleton]; done.
Qed.

Lemma iqr_bounds_of_formula (multiplier : Q) (xs : list (option Q)) (q1 q3 : Q) :
  quantile (1 # 4) xs = Some q1 → quantile (3 # 4) xs = Some q3 →
  iqr_bounds_of multiplier xs
  = (Some (q1 - multiplier * (q3 - q1))%Q, Some (q3 + multiplier * (q3 - q1))%Q).
Proof. unfold iqr_bounds_of. by intros -> ->. Qed.

Lemma column_relabel (f : string → string) (c : string) (df : table) :
  column c (relabel f df) = column c df.
Proof. unfold column, relabel. by rewrite <- list_fmap_compose. Qed.

Lemma compute_iqr_bounds_relabel (f : string → string) (df : table)
    (cols : list string) (multiplier : Q) :
  compute_iqr_bounds (relabel f df) cols multiplier
  = compute_iqr_bounds df cols multiplier.
Proof.
  apply map_eq. intros c. by rewrite !lookup_compute_iqr_bounds, column_relabel.
Qed.

Lemma lookup_flag_iqr_anomalies (df : table)
    (bounds : gmap string (option Q * option Q)) (cols : list string) (i : nat) :
  flag_iqr_anomalies df bounds cols !! i
  = (λ r, set_flag r "anomaly_iqr" (existsb (outside_bounds bounds r) cols))
      <$> df !! i.
Proof.
  unfold flag_iqr_anomalies. rewrite lookup_set_flag_column.
  rewrite list_lookup_fmap. by destruct (df !! i).
Qed.

(** C5. [compute_iqr_bounds] gives every configured column the pair
    [Q1 - k (Q3 - Q1)], [Q3 + k (Q3 - Q1)] of the quartiles of the whole
    column ([k] is 1.5 by default), whatever machines the rows belong to;
    [flag_iqr_anomalies] sets [anomaly_iqr] on a row exactly when some
    configured sensor reads strictly outside its bounds; and on the
    readings 1, 2, 3, 4, 100 of one sensor the bounds are -1 and 7 and
    only the row reading 100 is flagged. *)
Theorem iqr_bounds_and_flags :
  (∀ df cols multiplier c q1 q3, c ∈ cols →
     quantile (1 # 4) (column c df) = Some q1 →
     quantile (3 # 4) (column c df) = Some q3 →
     compute_iqr_bounds df cols multiplier !! c
     = Some (Some (q1 - multiplier * (q3 - q1))%Q,
             Some (q3 + multiplier * (q3 - q1))%Q))
  ∧ (∀ f df cols multiplier,
       compute_iqr_bounds (relabel f df) cols multiplier
       = compute_iqr_bounds df cols multiplier)
  ∧ (∀ df bounds cols i r, df !! i = Some r →
       ∃ b, flag_iqr_anomalies df bounds cols !! i
            = Some (set_flag r "anomaly_iqr" b)
            ∧ (b = true ↔
               ∃ c, c ∈ cols ∧
                 strictly_outside (getnum r c)
                   (default (None, None) (bounds !! c)).1
                   (default (None, None) (bounds !! c)).2))
  ∧ (∃ lo hi,
       compute_iqr_bounds spike_table ["temperature_c"] IQR_MULTIPLIER
         !! "temperature_c" = Some (Some lo, Some hi)
       ∧ (lo == -1)%Q ∧ (hi == 7)%Q)
  ∧ flag_column "anomaly_iqr"
      (flag_iqr_anomalies spike_table
         (compute_iqr_bounds spike_table ["temperature_c"] IQR_MULTIPLIER)
         ["temperature_c"])
    = [false; false; false; false; true].
Proof.
  split; [|split; [|split; [|split]]].
  - intros df cols k c q1 q3 Hc H1 H3.
    rewrite lookup_compute_iqr_bounds, decide_True by done.
    by rewrite (iqr_bounds_of_formula k _ q1 q3).
  - apply compute_iqr_bounds_relabel.
  - intros df bounds cols i r Hi.
    exists (existsb (outside_bounds bounds r) cols). split.
    + by rewrite lookup_flag_iqr_anomalies, Hi.
    + rewrite existsb_exists. split.
      * intros (c & Hc & H). exists c. split; [by apply list_elem_of_In|].
        by apply outside_bounds_iff.
      * intros (c & Hc & H). exists c. split; [by apply list_elem_of_In|].
        by apply outside_bounds_iff.
  - eexists _, _. split; [by vm_compute|]. split; by vm_compute.
  - by vm_compute.
Qed.

(** ** Feature columns *)

Lemma numeric_cols_feature_labels_fresh : feature_labels_fresh numeric_cols.
Proof.
  split.
  - intros c c' sfx Hc Hc'. revert sfx. rewrite <- Forall_forall.
    revert c' Hc'. rewrite <- Forall_forall.
    revert c Hc. rewrite <- Forall_forall.
    apply (bool_decide_unpack _). by vm_compute.
  - intros c c' sfx sfx' Hc Hc' Hs Hs'. revert sfx' Hs'. rewrite <- Forall_forall.
    revert sfx Hs. rewrite <- Forall_forall.
    revert c' Hc'. rewrite <- Forall_forall.
    revert c Hc. rewrite <- Forall_forall.
    apply (bool_decide_unpack _). by vm_compute.
Qed.

Lemma roll_mean_suffix : "_roll_mean" ∈ feature_suffixes.
Proof. by apply (bool_decide_unpack _). Qed.

Lemma roll_std_suffix : "_roll_std" ∈ feature_suffixes.
Proof. by apply (bool_decide_unpack _). Qed.

Lemma diff_suffix : "_diff" ∈ feature_suffixes.
Proof. by apply (bool_decide_unpack _). Qed.

Lemma feature_labels_fresh_app (cols : list string) (c : string) :
  feature_labels_fresh (cols ++ [c]) → feature_labels_fresh cols.
Proof.
  intros [H1 H2]. split.
  - intros a b sfx Ha Hb. apply H1; apply elem_of_app; by left.
  - intros a b sfx sfx' Ha Hb. apply H2; apply elem_of_app; by left.
Qed.

Section Features.

Variable sqrt : Q → Q.

Lemma length_roll_mean_column (c : string) (t : table) :
  length (roll_mean_column c t) = length t.
Proof. unfold roll_mean_column. by rewrite length_transform, length_groupby. Qed.

Lemma length_roll_std_column (c : string) (t : table) :
  length (roll_std_column sqrt c t) = length t.
Proof. unfold roll_std_column. by rewrite length_transform, length_groupby. Qed.

Lemma length_diff_column (c : string) (t : table) :
  length (diff_column c t) = length t.
Proof. unfold diff_column. by rewrite length_transform, length_groupby. Qed.

Lemma key_add_features (acc : table) (col : string) :
  key <$> add_features sqrt acc col = key <$> acc.
Proof. unfold add_features. by rewrite !key_set_column. Qed.

Lemma length_add_features (acc : table) (col : string) :
  length (add_features sqrt acc col) = length acc.
Proof. unfold add_features. by rewrite !length_set_column. Qed.

Lemma groupby_add_features (acc : table) (col c : string) :
  (∀ sfx, sfx ∈ feature_suffixes → c ≠ col +:+ sfx) →
  groupby c (add_features sqrt acc col) = groupby c acc.
Proof.
  intros H. unfold add_features.
  rewrite !groupby_set_column_ne;
    auto using roll_mean_suffix, roll_std_suffix, diff_suffix.
Qed.

Lemma column_add_features_other (acc : table) (col c : string) :
  (∀ sfx, sfx ∈ feature_suffixes → c ≠ col +:+ sfx) →
  column c (add_features sqrt acc col) = column c acc.
Proof. intros H. by rewrite !column_groupby, groupby_add_features. Qed.

Lemma column_add_features (acc : table) (col : string) :
  column (col +:+ "_roll_mean") (add_features sqrt acc col)
  = roll_mean_column col acc
  ∧ column (col +:+ "_roll_std") (add_features sqrt acc col)
    = roll_std_column sqrt col acc
  ∧ column (col +:+ "_diff") (add_features sqrt acc col) = diff_column col acc.
Proof.
  unfold add_features.
  assert (∀ s1 s2 : string, s1 ≠ s2 → col +:+ s1 ≠ col +:+ s2) as Hne.
  { intros s1 s2 H E. by apply (inj (String.app col)) in E. }
  split; [|split].
  - rewrite !column_set_column_ne by by apply Hne.
    apply column_set_column_eq. apply length_roll_mean_column.
  - rewrite column_set_column_ne by by apply Hne.
    apply column_set_column_eq.
    by rewrite length_set_column, length_roll_std_column.
  - apply column_set_column_eq.
    by rewrite !length_set_column, length_diff_column.
Qed.

Lemma key_foldl_add_features (s : table) (cols : list string) :
  key <$> foldl (add_features sqrt) s cols = key <$> s.
Proof.
  apply foldl_invariant; [done|]. intros a c _ <-. apply key_add_features.
Qed.

Lemma groupby_foldl_add_features (s : table) (cols : list string) (c : string) :
  (∀ c' sfx, c' ∈ cols → sfx ∈ feature_suffixes → c ≠ c' +:+ sfx) →
  groupby c (foldl (add_features sqrt) s cols) = groupby c s.
Proof.
  revert s. induction cols as [|c' cols IH]; intros s H; [done|]. simpl.
  rewrite IH by (intros c'' sfx ?; apply H; by right).
  apply groupby_add_features. intros sfx. apply H. by left.
Qed.

Lemma column_foldl_add_features (s : table) (cols : list string) (c : string) :
  feature_labels_fresh cols → c ∈ cols →
  column (c +:+ "_roll_mean") (foldl (add_features sqrt) s cols)
  = roll_mean_column c s
  ∧ column (c +:+ "_roll_std") (foldl (add_features sqrt) s cols)
    = roll_std_column sqrt c s
  ∧ column (c +:+ "_diff") (foldl (add_features sqrt) s cols) = diff_column c s.
Proof.
  induction cols as [|c' cols IH] using rev_ind;
    intros Hfresh Hc; [by apply elem_of_nil in Hc|].
  rewrite foldl_snoc. destruct (decide (c = c')) as [->|Hne].
  - assert (groupby c' (foldl (add_features sqrt) s cols) = groupby c' s) as Hg.
    { apply groupby_foldl_add_features. intros c'' sfx Hc'' Hs.
      apply (proj1 Hfresh); [done| |done]. apply elem_of_app. by left. }
    destruct (column_add_features (foldl (add_features sqrt) s cols) c')
      as (-> & -> & ->).
    unfold roll_mean_column, roll_std_column, diff_column. by rewrite Hg.
  - assert (c ∈ cols) as Hc'.
    { apply elem_of_app in Hc as [?|?%list_elem_of_singleton]; done. }
    assert (c' ∈ cols ++ [c']) as Hc'' by (apply elem_of_app; right; by left).
    rewrite !column_add_features_other.
    + apply IH; [by apply (feature_labels_fresh_app cols c')|done].
    + intros sfx Hs E.
      apply (proj2 Hfresh) in E as [? _]; auto using diff_suffix.
    + intros sfx Hs E.
      apply (proj2 Hfresh) in E as [? _]; auto using roll_std_suffix.
    + intros sfx Hs E.
      apply (proj2 Hfresh) in E as [? _]; auto using roll_mean_suffix.
Qed.

End Features.

(** ** Rolling statistics and differences, position by position *)

Lemma lookup_rolling (w : nat) (agg : list (option Q) → option Q)
    (xs : list (option Q)) (k : nat) :
  k < length xs → rolling w agg xs !! k = Some (agg (window w k xs)).
Proof.
  intros Hk. unfold rolling. rewrite list_lookup_imap.
  apply lookup_lt_is_Some in Hk as [x ->]. done.
Qed.

Lemma lookup_diff_0 (xs : list (option Q)) (x : option Q) :
  xs !! 0 = Some x → diff xs !! 0 = Some None.
Proof. intros H. unfold diff. by rewrite list_lookup_imap, H. Qed.

Lemma lookup_diff_S (xs : list (option Q)) (j : nat) (x y : option Q) :
  xs !! j = Some y → xs !! S j = Some x → diff xs !! S j = Some (cell_sub x y).
Proof. intros Hy Hx. unfold diff. by rewrite list_lookup_imap, Hx, Hy. Qed.

Lemma non_null_fmap_Some (ys : list Q) : non_null (Some <$> ys) = ys.
Proof.
  unfold non_null. induction ys as [|y ys IH]; [done|].
  csimpl. by rewrite IH.
Qed.

Lemma Forall_is_Some_fmap (xs : list (option Q)) :
  Forall is_Some xs → xs = Some <$> non_null xs.
Proof.
  unfold non_null. induction 1 as [|x xs [q ->] _ IH]; [done|].
  csimpl. by rewrite <- IH.
Qed.

Lemma mean_fmap_Some (ys : list Q) :
  ys ≠ [] → mean (Some <$> ys) = Some (Qsum ys / Qlen ys)%Q.
Proof. intros H. unfold mean. rewrite non_null_fmap_Some. by destruct ys. Qed.

Section Features.

Variable sqrt : Q → Q.

Lemma std_fmap_Some (ys : list Q) :
  ys ≠ [] →
  std sqrt (Some <$> ys)
  = if decide (length ys ≤ 1) then None
    else Some (sqrt (sq_dev (Qsum ys / Qlen ys) ys / (Qlen ys - 1)))%Q.
Proof.
  intros H. unfold std. rewrite mean_fmap_Some by done.
  by rewrite non_null_fmap_Some.
Qed.

(** What a row of the sorted table [s] is given in the three derived
    columns of [c], from [hist], the readings of its machine up to and
    including the row. *)
Lemma feature_cells (s : table) (c : string) (i : nat) (r : row) :
  s !! i = Some r →
  let hist := partition (machine_id r) (groupby c (take (S i) s)) in
  let w := drop (length hist - WINDOW_SIZE) hist in
  roll_mean_column c s !! i = Some (mean w)
  ∧ roll_std_column sqrt c s !! i
    = Some (match std sqrt w with Some v => Some v | None => Some 0%Q end)
  ∧ diff_column c s !! i
    = Some (match reverse hist with
            | x :: y :: _ =>
                match cell_sub x y with Some v => Some v | None => Some 0%Q end
            | _ => Some 0%Q
            end)
  ∧ ∃ before, hist = before ++ [getnum r c].
Proof.
  intros Hi hist w.
  set (g := groupby c s). set (m := machine_id r).
  assert (g !! i = Some (m, getnum r c)) as Hg.
  { unfold g, groupby. by rewrite list_lookup_fmap, Hi. }
  set (k := length (partition m (take i g))).
  assert (hist = partition m (take (S i) g)) as Hh0.
  { unfold hist, g, groupby. by rewrite fmap_take. }
  assert (hist = partition m (take i g) ++ [getnum r c]) as Hhist.
  { rewrite Hh0. by apply partition_take_S. }
  assert (length hist = S k) as Hlen.
  { rewrite Hhist, length_app. simpl. unfold k. lia. }
  assert (hist = take (S k) (partition m g)) as Htake.
  { rewrite Hh0 at 1. rewrite (partition_take_prefix g (S i) m).
    by rewrite <- Hh0, Hlen. }
  assert (k < length (partition m g)) as Hk.
  { apply lookup_lt_is_Some. exists (getnum r c). by apply partition_lookup_pos. }
  assert (window WINDOW_SIZE k (partition m g) = w) as Hw.
  { unfold window, w. by rewrite <- Htake, Hlen. }
  split; [|split; [|split]].
  - unfold roll_mean_column. fold g. rewrite (lookup_transform _ _ _ _ _ Hg).
    fold k. by rewrite lookup_rolling, Hw by done.
  - unfold roll_std_column. fold g. rewrite (lookup_transform _ _ _ _ _ Hg).
    fold k. unfold fillna. rewrite list_lookup_fmap, lookup_rolling, Hw by done.
    simpl. by destruct (std sqrt w).
  - unfold diff_column. fold g. rewrite (lookup_transform _ _ _ _ _ Hg).
    fold k. unfold fillna. rewrite list_lookup_fmap.
    pose proof (partition_lookup_pos _ _ _ _ Hg) as Hx. fold k in Hx.
    rewrite Hhist, reverse_app. simpl.
    destruct k as [|j] eqn:Ek.
    + rewrite (lookup_diff_0 _ _ Hx). simpl.
      assert (partition m (take i g) = []) as ->; [|done].
      apply nil_length_inv. done.
    + assert (j < length (partition m g)) as Hj by lia.
      apply lookup_lt_is_Some in Hj as [y Hy].
      rewrite (lookup_diff_S _ _ _ _ Hy Hx). simpl.
      assert (partition m (take i g) = take j (partition m g) ++ [y]) as ->.
      { rewrite (partition_take_prefix g i m). fold k. rewrite Ek.
        by apply take_S_r. }
      rewrite reverse_app. simpl. by destruct (cell_sub _ y).
  - eauto.
Qed.

End Features.

Section Features.

Variable sqrt : Q → Q.

Lemma key_engineer_features (df : table) :
  key <$> engineer_features sqrt df = key <$> sort_values df.
Proof. unfold engineer_features. apply key_foldl_add_features. Qed.

Lemma lookup_engineer_features (df : table) (i : nat) (r : row) :
  sort_values df !! i = Some r →
  ∃ r', engineer_features sqrt df !! i = Some r' ∧ key r' = key r.
Proof.
  intros Hi.
  assert ((key <$> engineer_features sqrt df) !! i = Some (key r)) as H.
  { by rewrite key_engineer_features, list_lookup_fmap, Hi. }
  rewrite list_lookup_fmap in H.
  destruct (engineer_features sqrt df !! i) as [r'|]; [|done].
  exists r'. split; [done|]. simpl in H. congruence.
Qed.

Lemma getnum_lookup_column (t : table) (c : string) (i : nat) (r : row)
    (vs : list (option Q)) (v : option Q) :
  column c t = vs → t !! i = Some r → vs !! i = Some v → getnum r c = v.
Proof.
  intros <- Hi. unfold column. rewrite list_lookup_fmap, Hi. simpl. congruence.
Qed.

(** The trailing window of a non-empty history is not empty. *)
Lemma drop_window_nonempty (before : list Q) (x : Q) :
  drop (S (length before) - WINDOW_SIZE) (before ++ [x]) ≠ [].
Proof.
  intros H. apply drop_nil_inv in H. rewrite length_app in H. simpl in H.
  unfold WINDOW_SIZE in H. lia.
Qed.

(** X28. On a table in which no sensor value is missing,
    [engineer_features] returns the rows sorted by (machine_id, timestamp), and gives the row
    at each position, for each sensor column [c]: with [before ++ [x]] the
    readings of the row's machine up to and including the row and [w] the
    last [WINDOW_SIZE] = 10 of them (fewer at the start of a partition,
    at least one), the mean of [w] in [c_roll_mean]; in [c_roll_std] the
    sample standard deviation of [w], and 0 when [w] is a single reading;
    in [c_diff] the reading minus the previous one, and 0 on the first row
    of a partition.  No derived cell is missing. *)
Theorem engineer_features_derived_columns (df : table) :
  (∀ r c, r ∈ df → c ∈ numeric_cols → is_Some (getnum r c)) →
  key <$> engineer_features sqrt df = key <$> sort_values df
  ∧ (∀ i r c, sort_values df !! i = Some r → c ∈ numeric_cols →
       ∃ r' before x,
         engineer_features sqrt df !! i = Some r'
         ∧ getnum r c = Some x
         ∧ partition (machine_id r) (groupby c (take (S i) (sort_values df)))
           = Some <$> (before ++ [x])
         ∧ let w := drop (S (length before) - WINDOW_SIZE) (before ++ [x]) in
           1 ≤ length w ≤ WINDOW_SIZE
           ∧ getnum r' (c +:+ "_roll_mean") = Some (Qsum w / Qlen w)%Q
           ∧ getnum r' (c +:+ "_roll_std")
             = Some (if decide (length w ≤ 1) then 0%Q
                     else sqrt (sq_dev (Qsum w / Qlen w) w / (Qlen w - 1)))%Q
           ∧ getnum r' (c +:+ "_diff")
             = Some (match reverse before with
                     | [] => 0%Q
                     | y :: _ => (x - y)%Q
                     end))
  ∧ (∀ r' c sfx, r' ∈ engineer_features sqrt df → c ∈ numeric_cols →
       sfx ∈ feature_suffixes → is_Some (getnum r' (c +:+ sfx))).
Proof.
  intros Hclean.
  assert (∀ i r c, sort_values df !! i = Some r → c ∈ numeric_cols →
       ∃ r' before x,
         engineer_features sqrt df !! i = Some r'
         ∧ getnum r c = Some x
         ∧ partition (machine_id r) (groupby c (take (S i) (sort_values df)))
           = Some <$> (before ++ [x])
         ∧ let w := drop (S (length before) - WINDOW_SIZE) (before ++ [x]) in
           1 ≤ length w ≤ WINDOW_SIZE
           ∧ getnum r' (c +:+ "_roll_mean") = Some (Qsum w / Qlen w)%Q
           ∧ getnum r' (c +:+ "_roll_std")
             = Some (if decide (length w ≤ 1) then 0%Q
                     else sqrt (sq_dev (Qsum w / Qlen w) w / (Qlen w - 1)))%Q
           ∧ getnum r' (c +:+ "_diff")
             = Some (match reverse before with
                     | [] => 0%Q
                     | y :: _ => (x - y)%Q
                     end)) as Hrows.
  { intros i r c Hi Hc. set (s := sort_values df) in *.
    destruct (lookup_engineer_features df i r Hi) as (r' & Hr' & Hk).
    destruct (column_foldl_add_features sqrt s numeric_cols c
                numeric_cols_feature_labels_fresh Hc) as (Cm & Cs & Cd).
    destruct (feature_cells sqrt s c i r Hi) as (Fm & Fs & Fd & bc & Hhist).
    set (hist := partition (machine_id r) (groupby c (take (S i) s))) in *.
    assert (Forall is_Some hist) as Hsome.
    { apply Forall_forall. intros v Hv.
      apply elem_of_partition in Hv as (r0 & Hr0 & _ & <-).
      apply Hclean; [|done]. apply sort_values_elem. fold s.
      by apply (subseteq_take (S i)). }
    destruct (Hclean r c) as [x Hx]; [|done|].
    { apply sort_values_elem. fold s. apply list_elem_of_lookup. eauto. }
    assert (hist = Some <$> (non_null bc ++ [x])) as Hq.
    { rewrite (Forall_is_Some_fmap hist Hsome), Hhist, Hx. f_equal.
      unfold non_null. by rewrite omap_app. }
    exists r', (non_null bc), x. split; [done|]. split; [done|].
    split; [done|]. cbv zeta.
    set (w := drop (S (length (non_null bc)) - WINDOW_SIZE) (non_null bc ++ [x])).
    assert (drop (length hist - WINDOW_SIZE) hist = Some <$> w) as Hw.
    { rewrite Hq. unfold w. rewrite fmap_drop, length_fmap, length_app.
      cbn [length]. f_equal. lia. }
    assert (w ≠ []) as Hne by apply drop_window_nonempty.
    rewrite Hw in Fm, Fs.
    rewrite mean_fmap_Some in Fm by done.
    rewrite std_fmap_Some in Fs by done.
    split; [|split; [|split]].
    - unfold w. rewrite length_drop, length_app. simpl.
      unfold WINDOW_SIZE. lia.
    - by apply (getnum_lookup_column _ _ i _ _ _ Cm Hr').
    - rewrite (getnum_lookup_column _ _ i _ _ _ Cs Hr' Fs).
      by destruct (decide (length w ≤ 1)).
    - rewrite (getnum_lookup_column _ _ i _ _ _ Cd Hr' Fd).
      rewrite Hq, <- fmap_reverse, reverse_snoc.
      by destruct (reverse (non_null bc)). }
  split; [apply key_engineer_features|]. split; [exact Hrows|].
  intros r' c sfx [i Hi]%list_elem_of_lookup Hc Hs.
  assert (i < length (sort_values df)) as Hlt.
  { apply lookup_lt_Some in Hi.
    by rewrite <- (length_fmap key), key_engineer_features, length_fmap in Hi. }
  apply lookup_lt_is_Some in Hlt as [r Hr].
  destruct (Hrows i r c Hr Hc) as (r'' & before & x & Hr'' & _ & _ & _ & Hm & Hsd & Hd).
  assert (r'' = r') as -> by congruence.
  unfold feature_suffixes in Hs.
  apply elem_of_cons in Hs as [->|Hs]; [by rewrite Hm|].
  apply elem_of_cons in Hs as [->|Hs]; [by rewrite Hsd|].
  apply list_elem_of_singleton in Hs as ->. by rewrite Hd.
Qed.

End Features.

(** ** Runs over the heap *)

Lemma run_bind {A B : Type} (m : Imp.M A) (k : A → Imp.M B) (h : list Imp.frame) :
  (m ≫= k) h = match m h with
               | (inl e, h') => (inl e, h')
               | (inr a, h') => k a h'
               end.
Proof. reflexivity. Qed.

Lemma lookup_top (h0 : list Imp.frame) (f : Imp.frame) :
  (h0 ++ [f]) !! length h0 = Some f.
Proof. by rewrite lookup_app_r, Nat.sub_diag by done. Qed.

Lemma insert_top (h0 : list Imp.frame) (f f' : Imp.frame) :
  <[length h0 := f']> (h0 ++ [f]) = h0 ++ [f'].
Proof. by rewrite insert_app_r_alt, Nat.sub_diag by done. Qed.

Lemma run_require_top (labels : list string) (h0 : list Imp.frame) (f : Imp.frame) :
  Imp.require (length h0) labels (h0 ++ [f]) = (req_result labels f, h0 ++ [f]).
Proof.
  unfold Imp.require, Imp.deref, req_result. rewrite run_bind, lookup_top.
  by destruct (filter _ labels).
Qed.

Lemma run_update_top (new : list string) (g : table → table)
    (h0 : list Imp.frame) (f : Imp.frame) :
  Imp.update (length h0) new g (h0 ++ [f]) = (inr (), h0 ++ [upd new g f]).
Proof.
  unfold Imp.update, Imp.deref, Imp.store. rewrite run_bind, lookup_top.
  by rewrite insert_top.
Qed.

Lemma run_require_rows_top (h0 : list Imp.frame) (f : Imp.frame) :
  Imp.require_rows (length h0) (h0 ++ [f])
  = (match Imp.rows f with
     | [] => inl (Imp.ValueError Imp.NoObjectsToConcatenate)
     | _ :: _ => inr ()
     end, h0 ++ [f]).
Proof.
  unfold Imp.require_rows, Imp.deref. rewrite run_bind, lookup_top.
  by destruct (Imp.rows f).
Qed.

Lemma run_copy (h : list Imp.frame) (df : nat) (f : Imp.frame) :
  h !! df = Some f → Imp.copy df h = (inr (length h), h ++ [f]).
Proof. intros H. unfold Imp.copy, Imp.deref. by rewrite run_bind, H. Qed.

Lemma req_result_ok (labels : list string) (f : Imp.frame) :
  Forall (λ c, c ∈ Imp.columns f) labels → req_result labels f = inr ().
Proof.
  intros H. unfold req_result.
  assert (filter (λ c, c ∉ Imp.columns f) labels = []) as ->; [|done].
  induction H as [|c l Hc _ IH]; [done|].
  rewrite filter_cons_False; [done|]. by intros ?.
Qed.

(** *** Blocks that act on the top object *)

Lemma top_ret {A : Type} (a : A) (f : Imp.frame) (Q : Imp.exn + A → Imp.frame → Prop) :
  Q (inr a) f → acts_on_top (λ _, mret a) f Q.
Proof. intros H. by exists (inr a), f. Qed.

Lemma top_raise {A : Type} (e : Imp.exn) (f : Imp.frame)
    (Q : Imp.exn + A → Imp.frame → Prop) :
  Q (inl e) f → acts_on_top (λ _, Imp.raise e) f Q.
Proof. intros H. by exists (inl e), f. Qed.

Lemma top_require (labels : list string) (f : Imp.frame)
    (Q : Imp.exn + unit → Imp.frame → Prop) :
  Q (req_result labels f) f → acts_on_top (λ r, Imp.require r labels) f Q.
Proof.
  intros H. exists (req_result labels f), f. split; [done|].
  intros h0. apply run_require_top.
Qed.

Lemma top_require_rows (f : Imp.frame) (Q : Imp.exn + unit → Imp.frame → Prop) :
  (∀ res, Q res f) → acts_on_top (λ r, Imp.require_rows r) f Q.
Proof.
  intros H. eexists _, f. split; [apply H|].
  intros h0. apply run_require_rows_top.
Qed.

Lemma top_update (new : list string) (g : table → table) (f : Imp.frame)
    (Q : Imp.exn + unit → Imp.frame → Prop) :
  Q (inr ()) (upd new g f) → acts_on_top (λ r, Imp.update r new g) f Q.
Proof.
  intros H. exists (inr ()), (upd new g f). split; [done|].
  intros h0. apply run_update_top.
Qed.

Lemma top_bind {A B : Type} (m : nat → Imp.M A) (k : nat → A → Imp.M B)
    (f : Imp.frame) (Q : Imp.exn + B → Imp.frame → Prop) :
  acts_on_top m f (λ res f', match res with
                             | inl e => Q (inl e) f'
                             | inr a => acts_on_top (λ r, k r a) f' Q
                             end) →
  acts_on_top (λ r, m r ≫= k r) f Q.
Proof.
  intros (res & f' & HQ & Hrun). destruct res as [e|a].
  - exists (inl e), f'. split; [done|]. intros h0. by rewrite run_bind, Hrun.
  - destruct HQ as (res2 & f'' & HQ & Hrun2). exists res2, f''.
    split; [done|]. intros h0. by rewrite run_bind, Hrun, Hrun2.
Qed.

Lemma top_seq_anything {A B : Type} (m : nat → Imp.M A) (k : nat → A → Imp.M B)
    (f : Imp.frame) :
  acts_on_top m f anything → (∀ a f', acts_on_top (λ r, k r a) f' anything) →
  acts_on_top (λ r, m r ≫= k r) f anything.
Proof.
  intros (res & f' & _ & Hrun) Hk. apply top_bind. exists res, f'.
  split; [|done]. destruct res; [done|]. apply Hk.
Qed.

Lemma top_for_each_anything {A : Type} (l : list A) (body : nat → A → Imp.M unit)
    (f : Imp.frame) :
  (∀ a f', acts_on_top (λ r, body r a) f' anything) →
  acts_on_top (λ r, Imp.for_each l (body r)) f anything.
Proof.
  intros Hb. revert f. induction l as [|a l IH]; intros f; simpl.
  - by apply top_ret.
  - apply (top_seq_anything (λ r, body r a) (λ r _, Imp.for_each l (body r)));
      [apply Hb|]. intros _ f'. apply IH.
Qed.

Lemma top_ok_seq (m k : nat → Imp.M unit) (f f1 f2 : Imp.frame) :
  top_ok m f f1 → top_ok k f1 f2 → top_ok (λ r, m r ;; k r) f f2.
Proof. intros Hm Hk h0. by rewrite run_bind, Hm, Hk. Qed.

Lemma top_ok_require (labels : list string) (f : Imp.frame) :
  Forall (λ c, c ∈ Imp.columns f) labels →
  top_ok (λ r, Imp.require r labels) f f.
Proof. intros H h0. by rewrite run_require_top, req_result_ok. Qed.

Lemma top_ok_require_rows (f : Imp.frame) :
  Imp.rows f ≠ [] → top_ok (λ r, Imp.require_rows r) f f.
Proof.
  intros H h0. rewrite run_require_rows_top. by destruct (Imp.rows f).
Qed.

Lemma top_ok_update (new : list string) (g : table → table) (f : Imp.frame) :
  top_ok (λ r, Imp.update r new g) f (upd new g f).
Proof. intros h0. apply run_update_top. Qed.

Lemma top_ok_for_each {A : Type} (P : Imp.frame → Prop)
    (step : Imp.frame → A → Imp.frame) (l : list A)
    (body : nat → A → Imp.M unit) (f : Imp.frame) :
  (∀ a f0, a ∈ l → P f0 → top_ok (λ r, body r a) f0 (step f0 a) ∧ P (step f0 a)) →
  P f → top_ok (λ r, Imp.for_each l (body r)) f (foldl step f l).
Proof.
  revert f. induction l as [|a l IH]; intros f Hb HP; simpl.
  - by intros h0.
  - destruct (Hb a f) as [Ha HP']; [by left|done|].
    apply (top_ok_seq (λ r, body r a) (λ r, Imp.for_each l (body r)) f (step f a));
      [done|]. apply IH; [|done]. intros a' f0 Ha'. apply Hb. by right.
Qed.

(** *** Functions that return a copy *)

Lemma returns_copy_of_block (body : nat → Imp.M unit) (f : Imp.frame)
    (Q : Imp.exn + unit → Imp.frame → Prop) :
  acts_on_top body f Q →
  returns_copy (λ df, df' ← Imp.copy df; body df' ;; mret df') f
    (λ out, ∃ res f', Q res f' ∧
       out = match res with inl e => inl e | inr _ => inr f' end).
Proof.
  intros (res & f' & HQ & Hrun). destruct res as [e|[]].
  - exists (inl e), [f']. split; [by exists (inl e), f'|].
    intros h df Hdf. by rewrite run_bind, (run_copy _ _ _ Hdf), run_bind, Hrun.
  - exists (inr f'), []. split; [by exists (inr ()), f'|].
    intros h df Hdf. rewrite run_bind, (run_copy _ _ _ Hdf), run_bind, Hrun.
    unfold outcome. simpl. by rewrite Nat.add_0_r.
Qed.

Lemma returns_copy_weaken (F : nat → Imp.M nat) (f : Imp.frame)
    (Q : Imp.exn + Imp.frame → Prop) :
  returns_copy F f Q → returns_copy F f any_outcome.
Proof. intros (out & junk & _ & H). by exists out, junk. Qed.

Lemma lookup_returned (h junk : list Imp.frame) (f' : Imp.frame) :
  (h ++ junk ++ [f']) !! (length h + length junk) = Some f'.
Proof. rewrite app_assoc, <- length_app. apply lookup_top. Qed.

Lemma outcome_app (out : Imp.exn + Imp.frame) (junk junk' h : list Imp.frame) :
  outcome out junk' (h ++ junk) = outcome out (junk ++ junk') h.
Proof.
  unfold outcome. destruct out as [e|f'].
  - by rewrite <- !app_assoc.
  - rewrite !length_app, <- !app_assoc. do 2 f_equal. lia.
Qed.

Lemma returns_copy_bind (F K : nat → Imp.M nat) (f : Imp.frame) :
  returns_copy F f any_outcome → (∀ f1, returns_copy K f1 any_outcome) →
  returns_copy (λ df, r ← F df; K r) f any_outcome.
Proof.
  intros (out & junk & _ & HF) HK. destruct out as [e|f1].
  - exists (inl e), junk. split; [done|]. intros h df Hdf.
    by rewrite run_bind, (HF h df Hdf).
  - destruct (HK f1) as (out2 & junk2 & _ & HK2).
    exists out2, (junk ++ [f1] ++ junk2). split; [done|].
    intros h df Hdf. rewrite run_bind, (HF h df Hdf). unfold outcome at 1.
    rewrite (HK2 _ _ (lookup_returned h junk f1)).
    by rewrite (app_assoc h junk [f1]), outcome_app, outcome_app.
Qed.

Lemma returns_copy_read {B : Type} (G : nat → Imp.M B) (K : nat → B → Imp.M nat)
    (f : Imp.frame) :
  reads G f → (∀ b, returns_copy (λ df, K df b) f any_outcome) →
  returns_copy (λ df, b ← G df; K df b) f any_outcome.
Proof.
  intros (res & HG) HK. destruct res as [e|b].
  - exists (inl e), []. split; [done|]. intros h df Hdf.
    rewrite run_bind, (HG h df Hdf). unfold outcome. by rewrite app_nil_r.
  - destruct (HK b) as (out & junk & _ & HK'). exists out, junk.
    split; [done|]. intros h df Hdf. rewrite run_bind, (HG h df Hdf).
    by apply HK'.
Qed.

Lemma returns_copy_ret (F : nat → Imp.M nat) (f : Imp.frame) :
  returns_copy F f any_outcome →
  returns_copy (λ df, r ← F df; mret r) f any_outcome.
Proof.
  intros (out & junk & _ & HF). exists out, junk. split; [done|].
  intros h df Hdf. rewrite run_bind, (HF h df Hdf). by destruct out.
Qed.

(** ** Every function works on a copy *)

Lemma clean_data_local (f : Imp.frame) :
  returns_copy Imp.clean_data f any_outcome.
Proof.
  eapply returns_copy_weaken. unfold Imp.clean_data.
  apply returns_copy_of_block with (Q := anything).
  repeat first
    [ apply top_require; exact I
    | apply top_require_rows; intros; exact I
    | apply top_update; exact I
    | apply top_ret; exact I
    | apply top_raise; exact I
    | apply top_for_each_anything
    | apply top_seq_anything
    | match goal with
      | |- acts_on_top (λ _, match ?x with _ => _ end) _ _ => destruct x
      end
    | intros ].
Qed.

Lemma flag_zscore_anomalies_local (cols : list string) (threshold : Q)
    (f : Imp.frame) :
  returns_copy (λ df, Imp.flag_zscore_anomalies df cols threshold) f any_outcome.
Proof.
  eapply returns_copy_weaken. unfold Imp.flag_zscore_anomalies.
  apply returns_copy_of_block with (Q := anything).
  repeat first
    [ apply top_require; exact I
    | apply top_update; exact I
    | apply top_ret; exact I
    | apply top_raise; exact I
    | apply top_for_each_anything
    | apply top_seq_anything
    | match goal with
      | |- acts_on_top (λ _, match ?x with _ => _ end) _ _ => destruct x
      end
    | intros ].
Qed.

Lemma flag_iqr_anomalies_local (bounds : gmap string (option Q * option Q))
    (cols : list string) (f : Imp.frame) :
  returns_copy (λ df, Imp.flag_iqr_anomalies df bounds cols) f any_outcome.
Proof.
  eapply returns_copy_weaken. unfold Imp.flag_iqr_anomalies.
  apply returns_copy_of_block with (Q := anything).
  repeat first
    [ apply top_require; exact I
    | apply top_update; exact I
    | apply top_ret; exact I
    | apply top_raise; exact I
    | apply top_for_each_anything
    | apply top_seq_anything
    | match goal with
      | |- acts_on_top (λ _, match ?x with _ => _ end) _ _ => destruct x
      end
    | intros ].
Qed.

Lemma combined_anomaly_score_local (f : Imp.frame) :
  returns_copy Imp.combined_anomaly_score f any_outcome.
Proof.
  eapply returns_copy_weaken. unfold Imp.combined_anomaly_score.
  apply returns_copy_of_block with (Q := anything).
  repeat first
    [ apply top_require; exact I
    | apply top_update; exact I
    | apply top_ret; exact I
    | apply top_raise; exact I
    | apply top_for_each_anything
    | apply top_seq_anything
    | match goal with
      | |- acts_on_top (λ _, match ?x with _ => _ end) _ _ => destruct x
      end
    | intros ].
Qed.

Lemma compute_iqr_bounds_reads (cols : list string) (multiplier : Q)
    (f : Imp.frame) :
  reads (λ df, Imp.compute_iqr_bounds df cols multiplier) f.
Proof.
  exists (match req_result cols f with
          | inl e => inl e
          | inr _ => inr (compute_iqr_bounds (Imp.rows f) cols multiplier)
          end).
  intros h df Hdf. unfold Imp.compute_iqr_bounds, Imp.require, Imp.deref.
  rewrite !run_bind, Hdf. unfold req_result.
  destruct (filter _ cols); [|done]. simpl. by rewrite run_bind, Hdf.
Qed.

Section WithSqrt.

Variable sqrt : Q → Q.

Lemma compute_z_scores_local (cols : list string) (f : Imp.frame) :
  returns_copy (λ df, Imp.compute_z_scores sqrt df cols) f any_outcome.
Proof.
  eapply returns_copy_weaken. unfold Imp.compute_z_scores.
  apply returns_copy_of_block with (Q := anything).
  repeat first
    [ apply top_require; exact I
    | apply top_update; exact I
    | apply top_ret; exact I
    | apply top_raise; exact I
    | apply top_for_each_anything
    | apply top_seq_anything
    | match goal with
      | |- acts_on_top (λ _, match ?x with _ => _ end) _ _ => destruct x
      end
    | intros ].
Qed.

Lemma engineer_features_local (f : Imp.frame) :
  returns_copy (Imp.engineer_features sqrt) f any_outcome.
Proof.
  set (fs := Imp.Frame (Imp.columns f) (sort_values (Imp.rows f))).
  assert (acts_on_top
            (λ df, Imp.for_each numeric_cols (λ col,
               Imp.require df ["machine_id"; col] ;;
               Imp.update df
                 [col +:+ "_roll_mean"; col +:+ "_roll_std"; col +:+ "_diff"]
                 (λ t, add_features sqrt t col))) fs anything)
    as (res & f' & _ & Hloop).
  { repeat first
    [ apply top_require; exact I
    | apply top_update; exact I
    | apply top_ret; exact I
    | apply top_raise; exact I
    | apply top_for_each_anything
    | apply top_seq_anything
    | match goal with
      | |- acts_on_top (λ _, match ?x with _ => _ end) _ _ => destruct x
      end
    | intros ]. }
  destruct (req_result ["machine_id"; "timestamp"] f) as [e|[]] eqn:Hreq.
  - exists (inl e), [f]. split; [done|]. intros h df Hdf.
    unfold Imp.engineer_features.
    by rewrite run_bind, (run_copy _ _ _ Hdf), run_bind, run_require_top, Hreq.
  - exists (match res with inl e => inl e | inr _ => inr f' end),
           (match res with inl _ => [f; f'] | inr _ => [f] end).
    split; [done|]. intros h df Hdf. unfold Imp.engineer_features.
    rewrite run_bind, (run_copy _ _ _ Hdf), run_bind, run_require_top, Hreq.
    rewrite run_bind. unfold Imp.deref at 1. rewrite lookup_top.
    rewrite run_bind. unfold Imp.alloc at 1. rewrite run_bind.
    fold fs. rewrite (Hloop (h ++ [f])).
    destruct res as [e|[]]; unfold outcome; simpl.
    + by rewrite <- app_assoc.
    + rewrite length_app, <- app_assoc. done.
Qed.

Lemma scoring_run_local (cols : list string) (threshold multiplier : Q)
    (f : Imp.frame) :
  returns_copy (scoring_run sqrt cols threshold multiplier) f any_outcome.
Proof.
  unfold scoring_run.
  apply (returns_copy_bind (λ df, Imp.compute_z_scores sqrt df cols));
    [apply compute_z_scores_local|]. intros f1.
  apply (returns_copy_bind (λ df, Imp.flag_zscore_anomalies df cols threshold));
    [apply flag_zscore_anomalies_local|]. intros f2.
  apply (returns_copy_read
           (λ df, Imp.compute_iqr_bounds df cols multiplier)
           (λ df bounds,
              df ← Imp.flag_iqr_anomalies df bounds cols;
              df ← Imp.combined_anomaly_score df; mret df));
    [apply compute_iqr_bounds_reads|]. intros bounds.
  apply (returns_copy_bind (λ df, Imp.flag_iqr_anomalies df bounds cols));
    [apply flag_iqr_anomalies_local|]. intros f3.
  apply returns_copy_ret, combined_anomaly_score_local.
Qed.

Lemma run_anomaly_detection_local (f : Imp.frame) :
  returns_copy (Imp.run_anomaly_detection sqrt) f any_outcome.
Proof. apply (scoring_run_local SENSOR_COLS Z_THRESHOLD IQR_MULTIPLIER). Qed.

End WithSqrt.

(** ** Runs that succeed *)

Lemma run_block_ok (body : nat → Imp.M unit) (f f' : Imp.frame)
    (h : list Imp.frame) (df : nat) :
  top_ok body f f' → h !! df = Some f →
  (df' ← Imp.copy df; body df' ;; mret df') h = outcome (inr f') [] h.
Proof.
  intros Hb Hdf. rewrite run_bind, (run_copy _ _ _ Hdf), run_bind, Hb.
  unfold outcome. simpl. by rewrite Nat.add_0_r.
Qed.

(** A loop whose turns select columns and then update the object. *)
Lemma top_ok_loop {A : Type} (needs new : A → list string)
    (g : A → table → table) (l : list A) (f : Imp.frame) :
  (∀ a, a ∈ l → Forall (λ c, c ∈ Imp.columns f) (needs a)) →
  top_ok (λ r, Imp.for_each l (λ a,
            Imp.require r (needs a) ;; Imp.update r (new a) (g a))) f
    (Imp.Frame (Imp.columns f ∪ list_to_set (l ≫= new))
       (foldl (λ t a, g a t) (Imp.rows f) l)).
Proof.
  revert f. induction l as [|a l IH]; intros f Hneeds.
  - intros h0. simpl. destruct f as [cs rs]. simpl.
    by rewrite (right_id_L ∅ (∪)).
  - cbn [Imp.for_each].
    apply (top_ok_seq
             (λ r, Imp.require r (needs a) ;; Imp.update r (new a) (g a))
             (λ r, Imp.for_each l (λ a,
                Imp.require r (needs a) ;; Imp.update r (new a) (g a)))
             f (upd (new a) (g a) f)).
    + apply (top_ok_seq (λ r, Imp.require r (needs a))
               (λ r, Imp.update r (new a) (g a)) f f).
      * apply top_ok_require, Hneeds. by left.
      * apply top_ok_update.
    + assert (Imp.Frame (Imp.columns f ∪ list_to_set ((a :: l) ≫= new))
                (foldl (λ t a, g a t) (Imp.rows f) (a :: l))
              = Imp.Frame
                  (Imp.columns (upd (new a) (g a) f) ∪ list_to_set (l ≫= new))
                  (foldl (λ t a, g a t) (Imp.rows (upd (new a) (g a) f)) l))
        as ->.
      { simpl. f_equal. rewrite list_to_set_app_L. by rewrite (assoc_L (∪)). }
      apply IH. intros a' Ha'. eapply Forall_impl; [apply Hneeds; by right|].
      intros c Hc. simpl. set_solver.
Qed.

Lemma elem_of_upd (c : string) (new : list string) (g : table → table)
    (f : Imp.frame) :
  c ∈ Imp.columns f → c ∈ Imp.columns (upd new g f).
Proof. simpl. set_solver. Qed.

Lemma elem_of_upd_new (c : string) (new : list string) (g : table → table)
    (f : Imp.frame) :
  c ∈ new → c ∈ Imp.columns (upd new g f).
Proof. simpl. set_solver. Qed.

Lemma clean_data_ok (h : list Imp.frame) (df : nat) (f : Imp.frame) :
  Forall (λ c, c ∈ Imp.columns f) clean_needs → Imp.rows f ≠ [] →
  h !! df = Some f →
  Imp.clean_data df h
  = outcome (inr (Imp.Frame (Imp.columns f) (clean_data (Imp.rows f)))) [] h.
Proof.
  intros Hneeds Hrows Hdf. unfold Imp.clean_data.
  apply run_block_ok with (f := f); [|done].
  assert (∀ c, c ∈ clean_needs → c ∈ Imp.columns f) as Hin.
  { by apply Forall_forall. }
  eapply top_ok_seq; [apply top_ok_require|].
  { repeat constructor; apply Hin; by apply (bool_decide_unpack _). }
  eapply top_ok_seq; [apply top_ok_update|].
  eapply top_ok_seq; [apply top_ok_require|].
  { repeat constructor; apply elem_of_upd, Hin; by apply (bool_decide_unpack _). }
  eapply top_ok_seq; [apply top_ok_update|].
  eapply top_ok_seq; [apply top_ok_require|].
  { repeat constructor; do 2 apply elem_of_upd; apply Hin;
      by apply (bool_decide_unpack _). }
  eapply top_ok_seq; [apply top_ok_require_rows|].
  { simpl. intros E. apply Hrows.
    apply (f_equal length) in E. rewrite sort_values_length in E.
    destruct (Imp.rows f) as [|r t]; [done|].
    by rewrite drop_duplicates_cons in E. }
  eapply top_ok_seq; [apply top_ok_update|].
  assert (Imp.Frame (Imp.columns f) (clean_data (Imp.rows f))
          = Imp.Frame
              (Imp.columns (upd [] fill_missing (upd [] sort_values
                              (upd [] drop_duplicates f)))
               ∪ list_to_set (VALUE_RANGES ≫= λ _, []))
              (foldl (λ t e, clip_column t e)
                 (Imp.rows (upd [] fill_missing (upd [] sort_values
                              (upd [] drop_duplicates f)))) VALUE_RANGES)) as ->.
  { simpl. by rewrite !(right_id_L ∅ (∪)). }
  apply (top_ok_loop (λ e, [e.1]) (λ _, []) (λ e t, clip_column t e)).
  intros e He. repeat constructor. do 3 apply elem_of_upd. apply Hin.
  right. right. apply list_elem_of_fmap. eauto.
Qed.

(** On a table without rows, [clean_data] raises at the fill. *)
Lemma clean_data_empty (h : list Imp.frame) (df : nat) (f : Imp.frame) :
  Forall (λ c, c ∈ Imp.columns f) clean_needs → Imp.rows f = [] →
  h !! df = Some f →
  Imp.clean_data df h
  = (inl (Imp.ValueError Imp.NoObjectsToConcatenate), h ++ [f]).
Proof.
  intros Hneeds Hrows Hdf.
  assert (∀ c, c ∈ clean_needs → c ∈ Imp.columns f) as Hin.
  { by apply Forall_forall. }
  assert (upd [] sort_values (upd [] drop_duplicates f) = f) as Hf.
  { destruct f as [cs t]. simpl in Hrows. subst t. unfold upd. simpl.
    by rewrite !(right_id_L ∅ (∪)). }
  unfold Imp.clean_data.
  rewrite run_bind, (run_copy _ _ _ Hdf), run_bind.
  rewrite run_bind, run_require_top, req_result_ok.
  2:{ repeat constructor; apply Hin; by apply (bool_decide_unpack _). }
  rewrite run_bind, run_update_top.
  rewrite run_bind, run_require_top, req_result_ok.
  2:{ repeat constructor; apply elem_of_upd, Hin; by apply (bool_decide_unpack _). }
  rewrite run_bind, run_update_top, Hf.
  rewrite run_bind, run_require_top, req_result_ok.
  2:{ repeat constructor; apply Hin; by apply (bool_decide_unpack _). }
  by rewrite run_bind, run_require_rows_top, Hrows.
Qed.

Lemma flag_zscore_anomalies_ok (cols : list string) (threshold : Q)
    (h : list Imp.frame) (df : nat) (f : Imp.frame) :
  Forall (λ c, c ∈ Imp.columns f) ((λ c, c +:+ "_zscore") <$> cols) →
  h !! df = Some f →
  Imp.flag_zscore_anomalies df cols threshold h
  = outcome (inr (upd ["anomaly_zscore"]
                    (λ t, flag_zscore_anomalies t cols threshold) f)) [] h.
Proof.
  intros Hneeds Hdf. unfold Imp.flag_zscore_anomalies.
  apply run_block_ok with (f := f); [|done].
  eapply top_ok_seq; [by apply top_ok_require|]. apply top_ok_update.
Qed.

Lemma combined_anomaly_score_ok (h : list Imp.frame) (df : nat) (f : Imp.frame) :
  "anomaly_zscore" ∈ Imp.columns f → "anomaly_iqr" ∈ Imp.columns f →
  h !! df = Some f →
  Imp.combined_anomaly_score df h
  = outcome (inr (upd ["anomaly_combined"] combined_anomaly_score f)) [] h.
Proof.
  intros Hz Hi Hdf. unfold Imp.combined_anomaly_score.
  apply run_block_ok with (f := f); [|done].
  eapply top_ok_seq; [apply top_ok_require; by repeat constructor|].
  apply top_ok_update.
Qed.

Lemma compute_iqr_bounds_ok (cols : list string) (multiplier : Q)
    (h : list Imp.frame) (df : nat) (f : Imp.frame) :
  Forall (λ c, c ∈ Imp.columns f) cols → h !! df = Some f →
  Imp.compute_iqr_bounds df cols multiplier h
  = (inr (compute_iqr_bounds (Imp.rows f) cols multiplier), h).
Proof.
  intros Hneeds Hdf. unfold Imp.compute_iqr_bounds, Imp.require, Imp.deref.
  rewrite !run_bind, Hdf. pose proof (req_result_ok cols f Hneeds) as Hr.
  unfold req_result in Hr. destruct (filter _ cols); [|done].
  simpl. by rewrite run_bind, Hdf.
Qed.

Lemma top_ok_bounds_loop (bounds : gmap string (option Q * option Q))
    (cols : list string) (f : Imp.frame) :
  Forall (λ c, is_Some (bounds !! c) ∧ c ∈ Imp.columns f) cols →
  top_ok (λ r, Imp.for_each cols (λ col,
            match bounds !! col with
            | None => Imp.raise (Imp.KeyError col)
            | Some _ => Imp.require r [col]
            end)) f f.
Proof.
  induction 1 as [|c cols [[b Hb] Hc] _ IH]; [by intros h0|].
  cbn [Imp.for_each]. rewrite Hb.
  apply (top_ok_seq (λ r, Imp.require r [c]) _ f f); [|done].
  apply top_ok_require. by repeat constructor.
Qed.

Lemma flag_iqr_anomalies_ok (bounds : gmap string (option Q * option Q))
    (cols : list string) (h : list Imp.frame) (df : nat) (f : Imp.frame) :
  Forall (λ c, is_Some (bounds !! c) ∧ c ∈ Imp.columns f) cols →
  h !! df = Some f →
  Imp.flag_iqr_anomalies df bounds cols h
  = outcome (inr (upd ["anomaly_iqr"]
                    (λ t, flag_iqr_anomalies t bounds cols) f)) [] h.
Proof.
  intros Hneeds Hdf. unfold Imp.flag_iqr_anomalies.
  apply run_block_ok with (f := f); [|done].
  eapply top_ok_seq; [by apply top_ok_bounds_loop|]. apply top_ok_update.
Qed.

Section WithSqrt.

Variable sqrt : Q → Q.

Lemma compute_z_scores_ok (cols : list string) (h : list Imp.frame) (df : nat)
    (f : Imp.frame) :
  Forall (λ c, c ∈ Imp.columns f) ("machine_id" :: cols) → h !! df = Some f →
  Imp.compute_z_scores sqrt df cols h
  = outcome (inr (Imp.Frame
                    (Imp.columns f ∪ list_to_set (cols ≫= zscore_label))
                    (compute_z_scores sqrt (Imp.rows f) cols))) [] h.
Proof.
  intros Hneeds Hdf. unfold Imp.compute_z_scores.
  apply run_block_ok with (f := f); [|done].
  apply (top_ok_loop (λ c, ["machine_id"; c]) zscore_label
           (λ c t, add_zscore sqrt t c)).
  apply Forall_cons in Hneeds as [Hm Hcols]. rewrite Forall_forall in Hcols.
  intros c Hc. repeat constructor; auto.
Qed.

Lemma engineer_features_ok (h : list Imp.frame) (df : nat) (f : Imp.frame) :
  Forall (λ c, c ∈ Imp.columns f) clean_needs → h !! df = Some f →
  Imp.engineer_features sqrt df h
  = outcome (inr (Imp.Frame
                    (Imp.columns f ∪ list_to_set (numeric_cols ≫= feature_labels))
                    (engineer_features sqrt (Imp.rows f)))) [f] h.
Proof.
  intros Hneeds Hdf. unfold Imp.engineer_features.
  assert (∀ c, c ∈ clean_needs → c ∈ Imp.columns f) as Hin.
  { by apply Forall_forall. }
  rewrite run_bind, (run_copy _ _ _ Hdf), run_bind, run_require_top.
  rewrite req_result_ok.
  2:{ repeat constructor; apply Hin; by apply (bool_decide_unpack _). }
  rewrite run_bind. unfold Imp.deref at 1. rewrite lookup_top.
  rewrite run_bind. unfold Imp.alloc at 1. rewrite run_bind.
  pose proof (top_ok_loop (λ c, ["machine_id"; c]) feature_labels
                (λ c t, add_features sqrt t c) numeric_cols
                (Imp.Frame (Imp.columns f) (sort_values (Imp.rows f)))) as Hloop.
  rewrite Hloop.
  - unfold outcome. simpl. rewrite length_app. by rewrite <- app_assoc.
  - intros c Hc. repeat constructor; simpl; apply Hin.
    + by apply (bool_decide_unpack _).
    + by do 2 right.
Qed.

Lemma SENSOR_COLS_numeric (c : string) : c ∈ SENSOR_COLS → c ∈ numeric_cols.
Proof.
  revert c. apply Forall_forall. by apply (bool_decide_unpack _).
Qed.

(** The scoring selects the machine and the sensor columns only. *)
Lemma run_anomaly_detection_ok (h : list Imp.frame) (df : nat) (f : Imp.frame) :
  Forall (λ c, c ∈ Imp.columns f) ("machine_id" :: SENSOR_COLS) → h !! df = Some f →
  ∃ cs junk,
    Imp.run_anomaly_detection sqrt df h
    = outcome (inr (Imp.Frame cs (run_anomaly_detection sqrt (Imp.rows f))))
        junk h.
Proof.
  intros Hneeds Hdf. unfold Imp.run_anomaly_detection.
  assert (∀ c, c ∈ SENSOR_COLS → c ∈ Imp.columns f) as Hin.
  { apply Forall_cons in Hneeds as [_ H]. by apply Forall_forall. }
  set (f1 := Imp.Frame (Imp.columns f ∪ list_to_set (SENSOR_COLS ≫= zscore_label))
               (compute_z_scores sqrt (Imp.rows f) SENSOR_COLS)).
  set (f2 := upd ["anomaly_zscore"]
               (λ t, flag_zscore_anomalies t SENSOR_COLS Z_THRESHOLD) f1).
  set (bounds := compute_iqr_bounds (Imp.rows f2) SENSOR_COLS IQR_MULTIPLIER).
  set (f3 := upd ["anomaly_iqr"]
               (λ t, flag_iqr_anomalies t bounds SENSOR_COLS) f2).
  set (f4 := upd ["anomaly_combined"] combined_anomaly_score f3).
  exists (Imp.columns f4), [f1; f2; f3].
  rewrite run_bind, (compute_z_scores_ok SENSOR_COLS h df f Hneeds Hdf).
  fold f1. unfold outcome at 1. cbn [length app]. rewrite Nat.add_0_r.
  rewrite run_bind, (flag_zscore_anomalies_ok _ _ _ _ f1).
  2:{ apply Forall_forall. intros c Hc. unfold f1. cbn [Imp.columns].
      apply elem_of_union_r, elem_of_list_to_set.
      apply list_elem_of_fmap in Hc as (c' & -> & Hc').
      apply list_elem_of_bind. exists c'. split; [|done].
      unfold zscore_label. by left. }
  2:{ apply lookup_top. }
  fold f2. unfold outcome at 1. cbn [length app]. rewrite Nat.add_0_r.
  assert (∀ c, c ∈ SENSOR_COLS → c ∈ Imp.columns f2) as Hin2.
  { intros c Hc. apply elem_of_upd. unfold f1. cbn [Imp.columns].
    apply elem_of_union_l. by apply Hin. }
  rewrite run_bind, (compute_iqr_bounds_ok _ _ _ _ f2).
  2:{ by apply Forall_forall. }
  2:{ apply lookup_top. }
  fold bounds.
  rewrite run_bind, (flag_iqr_anomalies_ok _ _ _ _ f2).
  2:{ apply Forall_forall. intros c Hc. split; [|by apply Hin2].
      unfold bounds. rewrite lookup_compute_iqr_bounds.
      rewrite decide_True by done. eauto. }
  2:{ apply lookup_top. }
  fold f3. unfold outcome at 1. cbn [length app]. rewrite Nat.add_0_r.
  rewrite run_bind, (combined_anomaly_score_ok _ _ f3).
  2:{ apply elem_of_upd, elem_of_upd_new. by left. }
  2:{ apply elem_of_upd_new. by left. }
  2:{ apply lookup_top. }
  fold f4. unfold outcome. cbn [length app]. rewrite Nat.add_0_r.
  rewrite !length_app. cbn [length]. rewrite <- !app_assoc. cbn [app].
  unfold mret, Imp.M_ret. f_equal. f_equal. lia.
Qed.

End WithSqrt.

(** ** Whole runs *)

Lemma result_outcome (out : Imp.exn + Imp.frame) (junk h : list Imp.frame) :
  Imp.result (outcome out junk h) = out.
Proof.
  unfold Imp.result, outcome. destruct out as [e|f']; [done|]. simpl.
  by rewrite lookup_returned.
Qed.

Lemma outcome_prefix (out : Imp.exn + Imp.frame) (junk h : list Imp.frame) :
  h `prefix_of` (outcome out junk h).2
  ∧ ∀ r, (outcome out junk h).1 = inr r →
      length h ≤ r ∧ is_Some ((outcome out junk h).2 !! r).
Proof.
  unfold outcome. destruct out as [e|f']; simpl.
  - split; [by apply prefix_app_r|]. done.
  - split; [by apply prefix_app_r|]. intros r [= <-]. split; [lia|].
    rewrite lookup_returned. eauto.
Qed.

Lemma run_load_data (fs : gmap string Imp.frame) (filepath : string)
    (h : list Imp.frame) :
  Imp.load_data fs filepath h
  = match fs !! filepath with
    | None => (inl (Imp.FileNotFoundError filepath), h)
    | Some f =>
        if decide ("timestamp" ∈ Imp.columns f) then
          if decide (Imp.required ∖ Imp.columns f = ∅)
          then (inr (length h), h ++ [f])
          else (inl (Imp.ValueError (Imp.MissingColumns (reported_missing f))), h ++ [f])
        else (inl (Imp.ValueError (Imp.MissingColumns (reported_missing f))), h)
    end.
Proof.
  unfold Imp.load_data, reported_missing.
  destruct (fs !! filepath) as [f|]; [|done].
  rewrite run_bind. unfold Imp.read_csv.
  rewrite filter_cons, filter_nil.
  destruct (decide ("timestamp" ∈ Imp.columns f)) as [Hts|Hts].
  - rewrite decide_False by (by intros ?). unfold Imp.alloc at 1.
    by destruct (decide (Imp.required ∖ Imp.columns f = ∅)).
  - by rewrite decide_True by done.
Qed.

Lemma timestamp_required : "timestamp" ∈ Imp.required.
Proof.
  apply elem_of_union_l. rewrite !elem_of_union, !elem_of_singleton. auto.
Qed.

Lemma reported_missing_spec (f : Imp.frame) (c : string) :
  c ∈ reported_missing f → c ∈ Imp.required ∧ c ∉ Imp.columns f.
Proof.
  unfold reported_missing.
  destruct (decide ("timestamp" ∈ Imp.columns f)) as [Hts|Hts].
  - by intros ?%elem_of_difference.
  - intros ->%elem_of_list_to_set%list_elem_of_singleton.
    split; [apply timestamp_required|done].
Qed.

Section WithSqrt.

Variable sqrt : Q → Q.

Lemma required_columns (f : Imp.frame) :
  Imp.required ⊆ Imp.columns f → Forall (λ c, c ∈ Imp.columns f) clean_needs.
Proof.
  intros Hsub. apply Forall_forall. intros c Hc. apply Hsub.
  unfold Imp.required. unfold clean_needs in Hc.
  apply elem_of_cons in Hc as [->|Hc].
  { apply elem_of_union_l. rewrite !elem_of_union, !elem_of_singleton. auto. }
  apply elem_of_cons in Hc as [->|Hc].
  { apply elem_of_union_l. rewrite !elem_of_union, !elem_of_singleton. auto. }
  apply elem_of_union_r. by apply elem_of_list_to_set.
Qed.

(** With the file present, its columns complete and a row in it, the
    whole run returns the scored table. *)
Lemma main_ok (fs : gmap string Imp.frame) (raw_path : string) (f : Imp.frame)
    (h : list Imp.frame) :
  fs !! raw_path = Some f → Imp.required ⊆ Imp.columns f →
  Imp.rows f ≠ [] →
  ∃ cs, Imp.result (Imp.main sqrt fs raw_path h)
        = inr (Imp.Frame cs
                 (run_anomaly_detection sqrt
                    (engineer_features sqrt (clean_data (Imp.rows f))))).
Proof.
  intros Hfs Hsub Hrows. pose proof (required_columns f Hsub) as Hneeds.
  assert (Imp.required ∖ Imp.columns f = ∅) as Hmiss.
  { by apply subseteq_empty_difference_L. }
  unfold Imp.main, Imp.run_pipeline.
  assert ("timestamp" ∈ Imp.columns f) as Hts.
  { apply Hsub, timestamp_required. }
  rewrite run_bind, run_bind, run_load_data, Hfs, !decide_True by done.
  rewrite run_bind, (clean_data_ok _ _ f Hneeds Hrows (lookup_top h f)).
  set (f1 := Imp.Frame (Imp.columns f) (clean_data (Imp.rows f))).
  unfold outcome at 1. cbn [length app]. rewrite Nat.add_0_r.
  rewrite run_bind, (engineer_features_ok sqrt _ _ f1 Hneeds (lookup_top _ f1)).
  set (f2 := Imp.Frame
               (Imp.columns f1 ∪ list_to_set (numeric_cols ≫= feature_labels))
               (engineer_features sqrt (Imp.rows f1))).
  unfold outcome at 1. cbn [length].
  unfold mret at 1, Imp.M_ret at 1.
  edestruct (run_anomaly_detection_ok sqrt
               (((h ++ [f]) ++ [f1]) ++ [f1] ++ [f2])
               (length ((h ++ [f]) ++ [f1]) + 1) f2) as (cs & junk & ->).
  - apply Forall_forall. intros c Hc. unfold f2, f1. cbn [Imp.columns].
    apply elem_of_union_l. rewrite Forall_forall in Hneeds. apply Hneeds.
    unfold clean_needs. apply elem_of_cons in Hc as [->|Hc]; [right; by left|].
    do 2 right. by apply SENSOR_COLS_numeric.
  - apply (lookup_returned _ [f1] f2).
  - exists cs. apply result_outcome.
Qed.

(** With the file present and its columns complete but no row in it,
    the run stops in [clean_data]. *)
Lemma main_empty (fs : gmap string Imp.frame) (raw_path : string) (f : Imp.frame)
    (h : list Imp.frame) :
  fs !! raw_path = Some f → Imp.required ⊆ Imp.columns f →
  Imp.rows f = [] →
  (Imp.main sqrt fs raw_path h).1
  = inl (Imp.ValueError Imp.NoObjectsToConcatenate).
Proof.
  intros Hfs Hsub Hrows. pose proof (required_columns f Hsub) as Hneeds.
  assert (Imp.required ∖ Imp.columns f = ∅) as Hmiss.
  { by apply subseteq_empty_difference_L. }
  assert ("timestamp" ∈ Imp.columns f) as Hts.
  { apply Hsub, timestamp_required. }
  unfold Imp.main, Imp.run_pipeline.
  rewrite run_bind, run_bind, run_load_data, Hfs, !decide_True by done.
  by rewrite run_bind, (clean_data_empty _ _ f Hneeds Hrows (lookup_top h f)).
Qed.

End WithSqrt.

(** ** What a run raises, and what it leaves *)

Lemma returns_copy_unchanged (F : nat → Imp.M nat) (h : list Imp.frame)
    (df : nat) (f : Imp.frame) :
  returns_copy F f any_outcome → h !! df = Some f →
  argument_unchanged h df f (F df h).
Proof.
  intros (out & junk & _ & HF) Hdf. rewrite (HF h df Hdf).
  destruct (outcome_prefix out junk h) as [Hpre Hnew].
  split; [|done]. by apply (prefix_lookup_Some h).
Qed.

Lemma length_non_null (p : list (option Q)) : length (non_null p) ≤ length p.
Proof.
  unfold non_null. induction p as [|[q|] p IH]; csimpl; lia.
Qed.

Section Properties.

Variable sqrt : Q → Q.
Hypothesis sqrt_zero : ∀ q, (q == 0)%Q → (sqrt q == 0)%Q.

Lemma std_short (p : list (option Q)) : length p ≤ 1 → std sqrt p = None.
Proof.
  intros H. unfold std. destruct (mean p); [|done].
  pose proof (length_non_null p). rewrite decide_True; [done|lia].
Qed.

Lemma zscore_cell_short (x : option Q) (p : list (option Q)) :
  length p ≤ 1 → zscore_cell sqrt x p = Some 0%Q.
Proof.
  intros H. unfold zscore_cell. rewrite std_short by done.
  by destruct (cell_sub x (mean p)).
Qed.

(** On a partition of one row, or of constant readings, the z-score is
    the default 0. *)
Lemma compute_z_scores_default (df : table) (cols : list string) (c : string)
    (r : row) :
  zscore_labels_fresh cols → c ∈ cols → r ∈ compute_z_scores sqrt df cols →
  length (partition (machine_id r) (groupby c df)) ≤ 1
  ∨ (∃ x, constant_on df (machine_id r) c x) →
  getnum r (c +:+ "_zscore") = Some 0%Q.
Proof.
  intros Hfresh Hc Hr [Hone|[x Hx]].
  - apply list_elem_of_lookup in Hr as [i Hi].
    destruct (lookup_compute_z_scores sqrt df cols c i r Hfresh Hc Hi)
      as (r0 & _ & Hk & ->).
    assert (machine_id r0 = machine_id r) as -> by (injection Hk; congruence).
    by apply zscore_cell_short.
  - by apply (compute_z_scores_constant sqrt sqrt_zero df cols
                (machine_id r) c x).
Qed.

(** On a partition of one row the rolling deviation and the difference
    are the default 0, whatever the readings. *)
Lemma engineer_features_default (df : table) (i : nat) (r : row) (c : string) :
  sort_values df !! i = Some r → c ∈ numeric_cols →
  length (partition (machine_id r) (groupby c (sort_values df))) ≤ 1 →
  ∃ r', engineer_features sqrt df !! i = Some r'
        ∧ getnum r' (c +:+ "_roll_std") = Some 0%Q
        ∧ getnum r' (c +:+ "_diff") = Some 0%Q.
Proof.
  intros Hi Hc Hone. set (s := sort_values df) in *.
  destruct (lookup_engineer_features sqrt df i r Hi) as (r' & Hr' & _).
  exists r'. split; [done|].
  destruct (column_foldl_add_features sqrt s numeric_cols c
              numeric_cols_feature_labels_fresh Hc) as (_ & Cs & Cd).
  destruct (feature_cells sqrt s c i r Hi) as (_ & Fs & Fd & bc & Hhist).
  set (hist := partition (machine_id r) (groupby c (take (S i) s))) in *.
  assert (hist = [getnum r c]) as Hh.
  { assert (length hist ≤ 1) as Hlen.
    { unfold hist, groupby. rewrite fmap_take.
      rewrite (partition_take_prefix _ (S i)), length_take.
      fold (groupby c s). lia. }
    rewrite Hhist, length_app in Hlen. simpl in Hlen.
    destruct bc; [by rewrite Hhist|simpl in Hlen; lia]. }
  rewrite Hh in Fs, Fd. cbn in Fs, Fd.
  rewrite std_short in Fs by (simpl; lia).
  split.
  - by apply (getnum_lookup_column _ _ i _ _ _ Cs Hr').
  - by apply (getnum_lookup_column _ _ i _ _ _ Cd Hr').
Qed.

(** What the whole run raises: what [load_data] raises, and the error of
    [clean_data] on a file with all required columns and no row. *)
Lemma main_raises (fs : gmap string Imp.frame) (filepath : string)
    (h : list Imp.frame) (e : Imp.exn) :
  (Imp.main sqrt fs filepath h).1 = inl e
  ↔ (Imp.load_data fs filepath h).1 = inl e
    ∨ (e = Imp.ValueError Imp.NoObjectsToConcatenate
       ∧ ∃ f, fs !! filepath = Some f ∧ Imp.required ⊆ Imp.columns f
              ∧ Imp.rows f = []).
Proof.
  destruct (fs !! filepath) as [f|] eqn:Hfs.
  - destruct (decide (Imp.required ⊆ Imp.columns f)) as [Hsub|Hsub].
    + assert ((Imp.load_data fs filepath h).1 = inr (length h)) as ->.
      { rewrite run_load_data, Hfs.
        rewrite decide_True by (apply Hsub, timestamp_required).
        by rewrite decide_True by (by apply subseteq_empty_difference_L). }
      destruct (Imp.rows f) as [|r0 t0] eqn:Hrows.
      * rewrite (main_empty sqrt fs filepath f h Hfs Hsub Hrows). split.
        -- intros [= <-]. right. split; [done|]. by exists f.
        -- by intros [?|[-> _]].
      * assert (Imp.rows f ≠ []) as Hne by (by rewrite Hrows).
        destruct (main_ok sqrt fs filepath f h Hfs Hsub Hne) as [cs Hres].
        unfold Imp.result in Hres.
        destruct ((Imp.main sqrt fs filepath h).1) as [e'|r]; [done|].
        split; [done|].
        intros [?|[_ (f' & [= <-] & _ & Hr')]]; [done|]. congruence.
    + assert ((Imp.main sqrt fs filepath h).1
              = (Imp.load_data fs filepath h).1) as ->.
      { unfold Imp.main, Imp.run_pipeline.
        rewrite run_bind, run_bind, run_load_data, Hfs.
        destruct (decide ("timestamp" ∈ Imp.columns f)); [|done].
        rewrite decide_False; [done|].
        intros Hm. by apply Hsub, empty_difference_subseteq_L. }
      split; [by left|]. by intros [?|[_ (f' & [= <-] & ? & _)]].
  - assert ((Imp.main sqrt fs filepath h).1
            = (Imp.load_data fs filepath h).1) as ->.
    { unfold Imp.main, Imp.run_pipeline.
      by rewrite run_bind, run_bind, run_load_data, Hfs. }
    split; [by left|]. by intros [?|[_ (f' & ? & _)]].
Qed.

Lemma load_data_FileNotFoundError (fs : gmap string Imp.frame)
    (filepath : string) (h : list Imp.frame) :
  (Imp.load_data fs filepath h).1 = inl (Imp.FileNotFoundError filepath)
  ↔ fs !! filepath = None.
Proof.
  rewrite run_load_data. destruct (fs !! filepath) as [f|]; [|done].
  split; [|done]. by repeat destruct (decide _).
Qed.

Lemma load_data_ValueError (fs : gmap string Imp.frame) (filepath : string)
    (h : list Imp.frame) (missing : gset string) :
  (Imp.load_data fs filepath h).1
  = inl (Imp.ValueError (Imp.MissingColumns missing))
  ↔ ∃ f, fs !! filepath = Some f
         ∧ (∃ c, c ∈ Imp.required ∧ c ∉ Imp.columns f)
         ∧ missing = reported_missing f.
Proof.
  rewrite run_load_data.
  destruct (fs !! filepath) as [f|]; [|split; [done|by intros (f & ? & _)]].
  destruct (decide ("timestamp" ∈ Imp.columns f)) as [Hts|Hts].
  - destruct (decide (Imp.required ∖ Imp.columns f = ∅)) as [Hm|Hm]; simpl.
    + split; [done|]. intros (f' & [= <-] & (c & Hc & Hnc) & _).
      apply empty_difference_subseteq_L in Hm. exfalso. by apply Hnc, Hm.
    + split.
      * intros [= <-]. exists f. split; [done|]. split; [|done].
        apply set_choose_L in Hm as [c Hc].
        apply elem_of_difference in Hc. by exists c.
      * by intros (f' & [= <-] & _ & ->).
  - simpl. split.
    + intros [= <-]. exists f. split; [done|]. split; [|done].
      exists "timestamp". split; [apply timestamp_required|done].
    + by intros (f' & [= <-] & _ & ->).
Qed.

Lemma load_data_raises (fs : gmap string Imp.frame) (filepath : string)
    (h : list Imp.frame) (e : Imp.exn) :
  (Imp.load_data fs filepath h).1 = inl e →
  e = Imp.FileNotFoundError filepath
  ∨ ∃ missing, e = Imp.ValueError (Imp.MissingColumns missing).
Proof.
  rewrite run_load_data. destruct (fs !! filepath) as [f|]; simpl.
  - repeat destruct (decide _); simpl; try done; intros [= <-]; eauto.
  - intros [= <-]. by left.
Qed.

(** X29. [load_data] raises [FileNotFoundError] exactly when the file does
    not exist, and a [ValueError] that names columns exactly when the file
    exists and lacks a required column; the labels the error names are
    required columns the file lacks: all of them, or [timestamp] alone when
    that column is absent and the reader fails first.  [load_data] raises
    nothing else.  The whole run (load, clean, features, scoring) raises
    what [load_data] raises and, on a file with all required columns and
    no row, the [ValueError] of [clean_data]; it raises nothing else, and
    on a file with all required columns and a row it returns the scored
    table. *)
Theorem pipeline_outcomes (fs : gmap string Imp.frame)
    (filepath : string) (h : list Imp.frame) :
  ((Imp.load_data fs filepath h).1 = inl (Imp.FileNotFoundError filepath)
   ↔ fs !! filepath = None)
  ∧ (∀ missing,
       (Imp.load_data fs filepath h).1
       = inl (Imp.ValueError (Imp.MissingColumns missing))
       ↔ ∃ f, fs !! filepath = Some f
              ∧ (∃ c, c ∈ Imp.required ∧ c ∉ Imp.columns f)
              ∧ missing = reported_missing f)
  ∧ (∀ f c, c ∈ reported_missing f → c ∈ Imp.required ∧ c ∉ Imp.columns f)
  ∧ (∀ e, (Imp.load_data fs filepath h).1 = inl e →
          e = Imp.FileNotFoundError filepath
          ∨ ∃ missing, e = Imp.ValueError (Imp.MissingColumns missing))
  ∧ (∀ e, (Imp.main sqrt fs filepath h).1 = inl e
          ↔ (Imp.load_data fs filepath h).1 = inl e
            ∨ (e = Imp.ValueError Imp.NoObjectsToConcatenate
               ∧ ∃ f, fs !! filepath = Some f ∧ Imp.required ⊆ Imp.columns f
                      ∧ Imp.rows f = []))
  ∧ (∀ f, fs !! filepath = Some f → Imp.required ⊆ Imp.columns f →
       Imp.rows f ≠ [] →
       ∃ cs, Imp.result (Imp.main sqrt fs filepath h)
             = inr (Imp.Frame cs
                      (run_anomaly_detection sqrt
                         (engineer_features sqrt (clean_data (Imp.rows f)))))).
Proof.
  split; [apply load_data_FileNotFoundError|].
  split; [intros missing; apply load_data_ValueError|].
  split; [apply reported_missing_spec|].
  split; [apply load_data_raises|].
  split; [intros e; apply main_raises|].
  intros f Hfs Hsub Hrows. by apply main_ok.
Qed.

(** X30. The statistical edge cases give default values: a partition of one
    row or of constant readings has z-score 0, and a partition of one row
    has rolling deviation 0 and difference 0. *)
Theorem edge_cases_take_defaults :
  (∀ df cols c r, zscore_labels_fresh cols → c ∈ cols →
     r ∈ compute_z_scores sqrt df cols →
     length (partition (machine_id r) (groupby c df)) ≤ 1
     ∨ (∃ x, constant_on df (machine_id r) c x) →
     getnum r (c +:+ "_zscore") = Some 0%Q)
  ∧ (∀ df i r c, sort_values df !! i = Some r → c ∈ numeric_cols →
       length (partition (machine_id r) (groupby c (sort_values df))) ≤ 1 →
       ∃ r', engineer_features sqrt df !! i = Some r'
             ∧ getnum r' (c +:+ "_roll_std") = Some 0%Q
             ∧ getnum r' (c +:+ "_diff") = Some 0%Q).
Proof.
  split.
  - intros df cols c r. apply compute_z_scores_default.
  - intros df i r c. apply engineer_features_default.
Qed.

(** C10. No stage changes the table it is given: after a call of
    [clean_data], [engineer_features], [compute_z_scores],
    [flag_zscore_anomalies], [flag_iqr_anomalies] or
    [combined_anomaly_score] the argument holds the table it held before,
    so does every object that existed, and the table returned is an
    object allocated by the call. *)
Theorem stages_work_on_a_copy (cols : list string) (threshold : Q)
    (bounds : gmap string (option Q * option Q))
    (h : list Imp.frame) (df : nat) (f : Imp.frame) :
  h !! df = Some f →
  argument_unchanged h df f (Imp.clean_data df h)
  ∧ argument_unchanged h df f (Imp.engineer_features sqrt df h)
  ∧ argument_unchanged h df f (Imp.compute_z_scores sqrt df cols h)
  ∧ argument_unchanged h df f (Imp.flag_zscore_anomalies df cols threshold h)
  ∧ argument_unchanged h df f (Imp.flag_iqr_anomalies df bounds cols h)
  ∧ argument_unchanged h df f (Imp.combined_anomaly_score df h).
Proof.
  intros Hdf. split; [|split; [|split; [|split; [|split]]]].
  - apply returns_copy_unchanged; [apply clean_data_local|done].
  - apply returns_copy_unchanged; [apply engineer_features_local|done].
  - apply (returns_copy_unchanged (λ df, Imp.compute_z_scores sqrt df cols));
      [apply compute_z_scores_local|done].
  - apply (returns_copy_unchanged
             (λ df, Imp.flag_zscore_anomalies df cols threshold));
      [apply flag_zscore_anomalies_local|done].
  - apply (returns_copy_unchanged
             (λ df, Imp.flag_iqr_anomalies df bounds cols));
      [apply flag_iqr_anomalies_local|done].
  - apply returns_copy_unchanged; [apply combined_anomaly_score_local|done].
Qed.

End Properties.

(** ** Sample tables *)

Lemma Qsqrt_zero (q : Q) : (q == 0)%Q → (Qsqrt q == 0)%Q.
Proof.
  unfold Qeq, Qsqrt. simpl. intros H. rewrite Z.mul_1_r in H. rewrite H.
  reflexivity.
Qed.

Lemma SENSOR_COLS_zscore_labels_fresh : zscore_labels_fresh SENSOR_COLS.
Proof.
  intros c c' Hc. revert c'. rewrite <- Forall_forall.
  revert c Hc. rewrite <- Forall_forall.
  apply (bool_decide_unpack _). by vm_compute.
Qed.

Lemma flat_table_constant (c : string) :
  c ∈ SENSOR_COLS → ∃ x, constant_on flat_table "M1" c x.
Proof.
  unfold SENSOR_COLS. rewrite !elem_of_cons, elem_of_nil.
  intros [->|[->|[->|[->|[]]]]];
    [exists 60%Q|exists 1%Q|exists 6%Q|exists 12%Q];
    intros r [-> _]%elem_of_replicate _; reflexivity.
Qed.

(** C1, on the flat signal of the test suite with the default threshold:
    no row is flagged. *)
Lemma constant_partition_not_flagged_witness :
  (∀ q, (q == 0)%Q → (Qsqrt q == 0)%Q)
  ∧ zscore_labels_fresh SENSOR_COLS
  ∧ (0 < Z_THRESHOLD)%Q
  ∧ (∀ c, c ∈ SENSOR_COLS → ∃ x, constant_on flat_table "M1" c x)
  ∧ (∀ r, r ∈ flag_zscore_anomalies
                (compute_z_scores Qsqrt flat_table SENSOR_COLS)
                SENSOR_COLS Z_THRESHOLD →
          machine_id r = "M1" → flag r !! "anomaly_zscore" = Some false).
Proof.
  split; [exact Qsqrt_zero|].
  split; [exact SENSOR_COLS_zscore_labels_fresh|].
  split; [reflexivity|].
  split; [exact flat_table_constant|].
  intros r Hr Hm.
  exact (proj2 (constant_partition_not_flagged Qsqrt Qsqrt_zero flat_table
                  SENSOR_COLS "M1" SENSOR_COLS_zscore_labels_fresh)
           Z_THRESHOLD r eq_refl flat_table_constant Hr Hm).
Defined.

(** C4, at a table whose temperature column holds no value: the column is
    still missing on both rows after [clean_data], so that not every
    sensor value of the cleaned table is present. *)
Theorem clean_data_null_column_stays_null :
  column "temperature_c" (clean_data null_column_table) = [None; None]
  ∧ ¬ (∀ r c, r ∈ clean_data null_column_table → c ∈ numeric_cols →
         getnum r c ≠ None).
Proof.
  assert (column "temperature_c" (clean_data null_column_table) = [None; None])
    as Hc by (by vm_compute).
  split; [exact Hc|]. intros H.
  destruct (clean_data null_column_table) as [|r t]; [done|].
  apply (H r "temperature_c"); [by left| |by injection Hc].
  by apply (bool_decide_unpack _).
Qed.

Lemma raw_table_cleaned (r : row) (c : string) :
  r ∈ clean_data raw_table → c ∈ numeric_cols → is_Some (getnum r c).
Proof.
  intros Hr. revert c. rewrite <- Forall_forall.
  revert r Hr. rewrite <- Forall_forall.
  apply (bool_decide_unpack _). by vm_compute.
Qed.

(** C6, at the same table, cleaned: the rolling mean of the temperature is
    missing on both rows, where the rolling deviation and the difference
    are 0, so that not every derived cell is present. *)
Theorem engineer_features_null_roll_mean :
  let out := engineer_features Qsqrt (clean_data null_column_table) in
  column "temperature_c_roll_mean" out = [None; None]
  ∧ column "temperature_c_roll_std" out = [Some 0%Q; Some 0%Q]
  ∧ column "temperature_c_diff" out = [Some 0%Q; Some 0%Q]
  ∧ ¬ (∀ r' c sfx, r' ∈ out → c ∈ numeric_cols → sfx ∈ feature_suffixes →
         is_Some (getnum r' (c +:+ sfx))).
Proof.
  intros out.
  assert (column "temperature_c_roll_mean" out = [None; None]) as Hc.
  { by vm_compute. }
  split; [exact Hc|]. split; [by vm_compute|]. split; [by vm_compute|].
  intros H. destruct out as [|r t]; [done|].
  destruct (H r "temperature_c" "_roll_mean") as [v Hv].
  - by left.
  - by apply (bool_decide_unpack _).
  - by apply (bool_decide_unpack _).
  - injection Hc as Hc _. change (getnum r "temperature_c_roll_mean") with
      (getnum r ("temperature_c" +:+ "_roll_mean")) in Hc. congruence.
Qed.

(** On the cleaned sample the rows come out sorted and no derived cell is
    missing. *)
Lemma engineer_features_derived_columns_witness :
  (∀ r c, r ∈ clean_data raw_table → c ∈ numeric_cols → is_Some (getnum r c))
  ∧ key <$> engineer_features Qsqrt (clean_data raw_table)
    = key <$> sort_values (clean_data raw_table)
  ∧ (∀ r' c sfx, r' ∈ engineer_features Qsqrt (clean_data raw_table) →
       c ∈ numeric_cols → sfx ∈ feature_suffixes →
       is_Some (getnum r' (c +:+ sfx))).
Proof.
  split; [exact raw_table_cleaned|].
  destruct (engineer_features_derived_columns Qsqrt (clean_data raw_table)
              raw_table_cleaned) as (Hk & _ & Hn).
  exact (conj Hk Hn).
Defined.

Lemma raw_frame_complete : Imp.required ⊆ Imp.columns raw_frame.
Proof. apply (bool_decide_unpack _). by vm_compute. Qed.

(** C8, at a file of a header line and no data line and at a file without
    the columns [timestamp] and [label].  The first has every required
    column and [load_data] returns its table, yet the run raises the
    [ValueError] of [clean_data].  On the second two required columns are
    missing and the [ValueError] of [load_data] names [timestamp] alone. *)
Theorem header_only_file_raises :
  Imp.required ⊆ Imp.columns header_only_frame
  ∧ Imp.result (Imp.load_data header_only_files "data/raw_sensor_data.csv" [])
    = inr header_only_frame
  ∧ (Imp.main Qsqrt header_only_files "data/raw_sensor_data.csv" []).1
    = inl (Imp.ValueError Imp.NoObjectsToConcatenate)
  ∧ Imp.required ∖ Imp.columns no_timestamp_frame = {[ "timestamp"; "label" ]}
  ∧ (Imp.load_data no_timestamp_files "data/raw_sensor_data.csv" []).1
    = inl (Imp.ValueError (Imp.MissingColumns {[ "timestamp" ]})).
Proof.
  assert (Imp.required ∖ Imp.columns header_only_frame = ∅) as Hm.
  { by apply subseteq_empty_difference_L, raw_frame_complete. }
  split; [exact raw_frame_complete|]. split.
  { rewrite run_load_data. unfold header_only_files.
    rewrite lookup_singleton_eq.
    rewrite decide_True by (apply raw_frame_complete, timestamp_required).
    by rewrite decide_True by done. }
  split.
  { by apply (main_empty Qsqrt _ _ header_only_frame);
      [apply lookup_singleton_eq|apply raw_frame_complete|]. }
  split.
  { apply (bool_decide_unpack _). by vm_compute. }
  rewrite run_load_data. unfold no_timestamp_files.
  rewrite lookup_singleton_eq. rewrite decide_False.
  - unfold reported_missing. rewrite decide_False; [done|].
    apply (bool_decide_unpack _). by vm_compute.
  - apply (bool_decide_unpack _). by vm_compute.
Qed.

(** C10, on a heap that holds the sample table. *)
Lemma stages_work_on_a_copy_witness :
  [raw_frame] !! 0 = Some raw_frame
  ∧ argument_unchanged [raw_frame] 0 raw_frame (Imp.clean_data 0 [raw_frame])
  ∧ argument_unchanged [raw_frame] 0 raw_frame
      (Imp.engineer_features Qsqrt 0 [raw_frame])
  ∧ argument_unchanged [raw_frame] 0 raw_frame
      (Imp.compute_z_scores Qsqrt 0 SENSOR_COLS [raw_frame])
  ∧ argument_unchanged [raw_frame] 0 raw_frame
      (Imp.flag_zscore_anomalies 0 SENSOR_COLS Z_THRESHOLD [raw_frame])
  ∧ argument_unchanged [raw_frame] 0 raw_frame
      (Imp.flag_iqr_anomalies 0 ∅ SENSOR_COLS [raw_frame])
  ∧ argument_unchanged [raw_frame] 0 raw_frame
      (Imp.combined_anomaly_score 0 [raw_frame]).
Proof.
  split; [reflexivity|].
  exact (stages_work_on_a_copy Qsqrt SENSOR_COLS Z_THRESHOLD ∅
           [raw_frame] 0 raw_frame eq_refl).
Defined.

(** The sample table, cleaned: sorted, the repeated key dropped, the
    missing vibration filled, the temperature and the cycle time clipped. *)
Example clean_data_sample :
  key <$> clean_data raw_table
  = [(1%Z, "M1"); (2%Z, "M1"); (1%Z, "M2"); (2%Z, "M2")]
  ∧ column "temperature_c" (clean_data raw_table)
    = [Some 60%Q; Some 61%Q; Some 70%Q; Some 200%Q]
  ∧ column "vibration_mm_s" (clean_data raw_table)
    = [Some 2%Q; Some 2%Q; Some 1%Q; Some 1%Q]
  ∧ column "cycle_time_s" (clean_data raw_table)
    = [Some 12%Q; Some (1 # 10)%Q; Some 13%Q; Some 12%Q].
Proof. by vm_compute. Qed.

(** ** Further properties of [clean_data] *)

Lemma Sorted_rows_lookup (t : table) (i j : nat) (a b : row) :
  Sorted_rows t → i < j → t !! i = Some a → t !! j = Some b →
  row_leb a b = true.
Proof.
  intros Hs. revert i j. induction Hs as [|x t Hx Hs IH]; intros i j Hij Ha Hb.
  - done.
  - destruct j as [|j]; [lia|]. destruct i as [|i].
    + injection Ha as ->. rewrite Forall_forall in Hx. apply Hx.
      exact (list_elem_of_lookup_2 t j b Hb).
    + apply (IH i j); [lia|done|done].
Qed.

Lemma row_leb_antisym (a b : row) :
  row_leb a b = true → row_leb b a = true → key a = key b.
Proof.
  unfold row_leb, key. intros Hab Hba.
  destruct (decide (machine_id a = machine_id b)) as [E|N].
  - rewrite decide_True in Hba by done. f_equal; [|done].
    apply Z.leb_le in Hab, Hba. lia.
  - rewrite decide_False in Hba by done.
    destruct N. by apply string_leb_antisym.
Qed.

Lemma clean_data_ordered_rows (t : table) (i j : nat) (a b : row) :
  i < j → clean_data t !! i = Some a → clean_data t !! j = Some b →
  row_leb a b = true ∧ key a ≠ key b.
Proof.
  intros Hij Ha Hb. split.
  - by apply (Sorted_rows_lookup (clean_data t) i j); [apply clean_data_sorted|..].
  - intros Hk. pose proof (clean_data_NoDup t) as Hn.
    assert (i = j); [|lia].
    apply (NoDup_lookup _ i j (key a) Hn); rewrite list_lookup_fmap.
    + by rewrite Ha.
    + by rewrite Hb, Hk.
Qed.

(** X1. The rows [clean_data] returns are in the order of (machine_id,
    timestamp), machines by string order, and within one machine the
    timestamps increase strictly. *)
Theorem clean_data_strictly_ordered (t : table) (i j : nat) (a b : row) :
  i < j → clean_data t !! i = Some a → clean_data t !! j = Some b →
  row_leb a b = true
  ∧ (machine_id a = machine_id b → (timestamp a < timestamp b)%Z)
  ∧ (machine_id a ≠ machine_id b →
       String.leb (machine_id a) (machine_id b) = true).
Proof.
  intros Hij Ha Hb.
  destruct (clean_data_ordered_rows t i j a b Hij Ha Hb) as [Hle Hne].
  split; [done|]. unfold row_leb in Hle. split; intros Hm.
  - rewrite decide_True in Hle by done. apply Z.leb_le in Hle.
    assert (timestamp a ≠ timestamp b); [|lia].
    intros Ht. apply Hne. unfold key. by rewrite Ht, Hm.
  - by rewrite decide_False in Hle.
Qed.

(** *** The order of the input rows *)

Lemma Sorted_rows_unique (t1 t2 : table) :
  Sorted_rows t1 → Sorted_rows t2 → NoDup (key <$> t1) → t1 ≡ₚ t2 → t1 = t2.
Proof.
  intros Hs1. revert t2. induction Hs1 as [|x t1 Hx Hs1 IH]; intros t2 Hs2 Hn Hp.
  - by apply Permutation_nil_l in Hp.
  - destruct Hs2 as [|y t2 Hy Hs2].
    + by apply Permutation_nil_r in Hp.
    + assert (x = y) as ->.
      { rewrite fmap_cons in Hn. apply NoDup_cons in Hn as [Hnx Hn].
        assert (x ∈ y :: t2) as Hxy by (rewrite <- Hp; left).
        assert (y ∈ x :: t1) as Hyx by (rewrite Hp; left).
        apply elem_of_cons in Hxy as [->|Hxy]; [done|].
        apply elem_of_cons in Hyx as [->|Hyx]; [done|].
        rewrite Forall_forall in Hx, Hy.
        destruct Hnx. rewrite (row_leb_antisym x y (Hx y Hyx) (Hy x Hxy)).
        by apply list_elem_of_fmap_2. }
      f_equal. apply IH; [done| |by apply Permutation_cons_inv in Hp].
      rewrite fmap_cons in Hn. by apply NoDup_cons in Hn as [_ Hn].
Qed.

Lemma sort_values_Permutation_eq (t t' : table) :
  NoDup (key <$> t) → t ≡ₚ t' → sort_values t = sort_values t'.
Proof.
  intros Hn Hp. apply Sorted_rows_unique; [apply sort_values_sorted..| |].
  - by rewrite (sort_values_Permutation t).
  - by rewrite !sort_values_Permutation.
Qed.

(** X2. On a table without repeated keys, [clean_data] does not depend on the
    order in which the rows are given. *)
Theorem clean_data_order_independent (t t' : table) :
  NoDup (key <$> t) → t ≡ₚ t' → clean_data t = clean_data t'.
Proof.
  intros Hn Hp. unfold clean_data.
  rewrite (drop_duplicates_id t) by done.
  rewrite (drop_duplicates_id t') by (by rewrite <- Hp).
  by rewrite (sort_values_Permutation_eq t t').
Qed.

(** *** What the filling does to one cell *)

Lemma ffill_from_lookup_Some (last : option Q) (xs : list (option Q))
    (k : nat) (v : Q) :
  xs !! k = Some (Some v) → ffill_from last xs !! k = Some (Some v).
Proof.
  revert last k. induction xs as [|x xs IH]; intros last k Hk; [done|].
  destruct k as [|k].
  - injection Hk as ->. done.
  - destruct x; simpl; by apply IH.
Qed.

Lemma bfill_lookup_Some (xs : list (option Q)) (k : nat) (v : Q) :
  xs !! k = Some (Some v) → bfill xs !! k = Some (Some v).
Proof.
  revert k. induction xs as [|x xs IH]; intros k Hk; [done|].
  destruct k as [|k].
  - injection Hk as ->. done.
  - destruct x; simpl; by apply IH.
Qed.

Lemma ffill_from_gap (last : option Q) (xs : list (option Q)) (k : nat) :
  xs !! S k = Some None →
  ffill_from last xs !! S k = ffill_from last xs !! k
  ∧ is_Some (ffill_from last xs !! k).
Proof.
  revert last k. induction xs as [|x xs IH]; intros last k Hk; [done|].
  destruct k as [|k].
  - destruct xs as [|y xs]; [done|]. injection Hk as ->.
    destruct x; simpl; eauto.
  - destruct x; simpl; by apply IH.
Qed.

Lemma bfill_cons_head (x : option Q) (xs : list (option Q)) :
  bfill (x :: x :: xs) !! 1 = bfill (x :: x :: xs) !! 0.
Proof. destruct x; simpl; [done|]. by destruct (bfill xs). Qed.

Lemma bfill_repeat (xs : list (option Q)) (k : nat) (x : option Q) :
  xs !! k = Some x → xs !! S k = Some x → bfill xs !! S k = bfill xs !! k.
Proof.
  revert k. induction xs as [|y xs IH]; intros k Hk HSk; [done|].
  destruct k as [|k].
  - injection Hk as ->. destruct xs as [|z xs]; [done|]. injection HSk as ->.
    apply bfill_cons_head.
  - destruct y; simpl; by apply IH.
Qed.

Lemma ffill_bfill_gap (xs : list (option Q)) (k : nat) :
  xs !! S k = Some None → ffill_bfill xs !! S k = ffill_bfill xs !! k.
Proof.
  intros Hk. unfold ffill_bfill, ffill.
  destruct (ffill_from_gap None xs k Hk) as [He [x Hx]].
  apply (bfill_repeat _ k x); [done|by rewrite He].
Qed.

Lemma ffill_bfill_lookup_Some (xs : list (option Q)) (k : nat) (v : Q) :
  xs !! k = Some (Some v) → ffill_bfill xs !! k = Some (Some v).
Proof.
  intros Hk. apply bfill_lookup_Some. by apply ffill_from_lookup_Some.
Qed.

Lemma groupby_take (c : string) (s : table) (i : nat) :
  groupby c (take i s) = take i (groupby c s).
Proof. unfold groupby. by rewrite fmap_take. Qed.

Lemma lookup_filled (s : table) (c : string) (i : nat) (r : row) :
  s !! i = Some r →
  filled s c !! i
  = Some (match default None
                  (ffill_bfill (partition (machine_id r) (groupby c s))
                     !! length (partition (machine_id r) (groupby c (take i s))))
          with
          | Some q => Some q
          | None => mean (column c s)
          end).
Proof.
  intros Hi. unfold filled, fillna. rewrite list_lookup_fmap.
  rewrite (lookup_transform _ _ i (machine_id r) (getnum r c)).
  - rewrite groupby_take. cbn [fmap option_fmap option_map].
    by destruct (default None _).
  - unfold groupby. by rewrite list_lookup_fmap, Hi.
Qed.

Lemma lookup_groupby (c : string) (s : table) (i : nat) (r : row) :
  s !! i = Some r → groupby c s !! i = Some (machine_id r, getnum r c).
Proof. intros Hi. unfold groupby. by rewrite list_lookup_fmap, Hi. Qed.

Lemma position_in_partition (c : string) (s : table) (i : nat) (r : row) :
  s !! i = Some r →
  partition (machine_id r) (groupby c s)
    !! length (partition (machine_id r) (groupby c (take i s)))
  = Some (getnum r c).
Proof.
  intros Hi. rewrite groupby_take.
  apply partition_lookup_pos. by apply lookup_groupby.
Qed.

Lemma position_in_partition_S (c : string) (s : table) (i : nat) (p : row) :
  s !! i = Some p →
  length (partition (machine_id p) (groupby c (take (S i) s)))
  = S (length (partition (machine_id p) (groupby c (take i s)))).
Proof.
  intros Hi. rewrite !groupby_take.
  rewrite (partition_take_S _ i (machine_id p) (getnum p c))
    by (by apply lookup_groupby).
  rewrite length_app. simpl. lia.
Qed.

(** X3. A reading that is present is never replaced by a neighbour's or by a
    mean: [clean_data] keeps it when it lies in the range of its sensor and
    sets it to the nearer bound when it does not. *)
Theorem clean_data_keeps_valid_readings (t : table) (i : nat) (r : row)
    (c : string) (lo hi v : Q) :
  sort_values (drop_duplicates t) !! i = Some r →
  (c, (lo, hi)) ∈ VALUE_RANGES → getnum r c = Some v →
  ∃ r', clean_data t !! i = Some r' ∧ key r' = key r
        ∧ ((lo <= v <= hi)%Q → getnum r' c = Some v)
        ∧ ((v < lo)%Q → getnum r' c = Some lo)
        ∧ ((hi < v)%Q → getnum r' c = Some hi).
Proof.
  intros Hi He Hv. set (s := sort_values (drop_duplicates t)) in *.
  exists (clean_row s i r). rewrite lookup_clean_data. fold s. rewrite Hi.
  split; [done|]. split.
  { unfold clean_row, fill_row. by rewrite clip_row_key, foldl_set_num_key. }
  rewrite (getnum_clean_row s i r c lo hi He), (lookup_filled s c i r Hi).
  rewrite (ffill_bfill_lookup_Some _ _ v)
    by (by rewrite position_in_partition, Hv).
  pose proof (VALUE_RANGES_ordered c lo hi He) as Hlh.
  cbn [from_option id]. split; [|split]; intros H; unfold clip.
  - by apply clip_fixed.
  - destruct (Qlt_le_dec v lo) as [|H']; [done|]. lra.
  - destruct (Qlt_le_dec v lo) as [H'|_]; [lra|].
    destruct (Qlt_le_dec hi v) as [|H']; [done|]. lra.
Qed.

(** X4. A missing reading takes the cleaned value of the previous row of the
    same machine, whenever the machine has a previous row. *)
Theorem clean_data_fills_from_previous_row (t : table) (i : nat) (p r : row)
    (c : string) :
  sort_values (drop_duplicates t) !! i = Some p →
  sort_values (drop_duplicates t) !! S i = Some r →
  machine_id p = machine_id r → c ∈ numeric_cols → getnum r c = None →
  ∃ p' r', clean_data t !! i = Some p' ∧ clean_data t !! S i = Some r'
           ∧ key p' = key p ∧ key r' = key r ∧ getnum r' c = getnum p' c.
Proof.
  intros Hp Hr Hm Hc Hn. set (s := sort_values (drop_duplicates t)) in *.
  exists (clean_row s i p), (clean_row s (S i) r).
  rewrite !lookup_clean_data. fold s. rewrite Hp, Hr.
  split; [done|]. split; [done|].
  split. { unfold clean_row, fill_row. by rewrite clip_row_key, foldl_set_num_key. }
  split. { unfold clean_row, fill_row. by rewrite clip_row_key, foldl_set_num_key. }
  destruct (numeric_VALUE_RANGES c Hc) as (lo & hi & He).
  rewrite !(getnum_clean_row _ _ _ c lo hi He).
  rewrite (lookup_filled s c i p Hp), (lookup_filled s c (S i) r Hr).
  pose proof (position_in_partition c s (S i) r Hr) as Hpos.
  rewrite <- Hm in *. rewrite (position_in_partition_S c s i p Hp) in *.
  rewrite Hn in Hpos. by rewrite (ffill_bfill_gap _ _ Hpos).
Qed.

(** X6. A machine without any reading of a sensor receives, on each of its
    rows, the mean of the column over all machines (of the table after the
    duplicates are dropped and the rows sorted), clipped to the range. *)
Theorem clean_data_mean_fallback (t : table) (m c : string) (lo hi : Q)
    (i : nat) (r : row) :
  (c, (lo, hi)) ∈ VALUE_RANGES →
  (∀ r0, r0 ∈ drop_duplicates t → machine_id r0 = m → getnum r0 c = None) →
  sort_values (drop_duplicates t) !! i = Some r → machine_id r = m →
  ∃ r', clean_data t !! i = Some r' ∧ key r' = key r
        ∧ getnum r' c
          = clip lo hi (mean (column c (sort_values (drop_duplicates t)))).
Proof.
  intros He Hnone Hi Hm. set (s := sort_values (drop_duplicates t)) in *.
  exists (clean_row s i r). rewrite lookup_clean_data. fold s. rewrite Hi.
  split; [done|]. split.
  { unfold clean_row, fill_row. by rewrite clip_row_key, foldl_set_num_key. }
  rewrite (getnum_clean_row s i r c lo hi He), (lookup_filled s c i r Hi).
  assert (Forall (λ x, x = None) (partition (machine_id r) (groupby c s))) as Hall.
  { rewrite Forall_forall. intros x Hx.
    apply elem_of_partition in Hx as (r0 & Hr0 & Hm0 & <-).
    apply Hnone; [|congruence].
    by apply (sort_values_elem r0 (drop_duplicates t)). }
  rewrite ffill_bfill_settled by (by right).
  rewrite position_in_partition by done.
  rewrite Forall_forall in Hall.
  rewrite (Hall (getnum r c)); [done|].
  eapply list_elem_of_lookup_2. by apply position_in_partition.
Qed.

Lemma ffill_bfill_leading (xs : list (option Q)) :
  xs !! 0 = Some None → is_Some (xs !! 1) →
  ffill_bfill xs !! 0 = ffill_bfill xs !! 1.
Proof.
  destruct xs as [|x [|y xs]]; [done|by intros _ []|].
  intros [= ->] _. unfold ffill_bfill, ffill. simpl.
  destruct y; simpl; [done|]. by destruct (bfill (ffill_from None xs)).
Qed.

Lemma partition_nil_rows_of (m c : string) (t : table) :
  rows_of m t = [] → partition m (groupby c t) = [].
Proof.
  unfold rows_of, partition, groupby. intros H.
  induction t as [|r t IH]; [done|].
  rewrite filter_cons in H. rewrite fmap_cons, filter_cons. simpl.
  destruct (decide (machine_id r = m)); [done|]. by apply IH.
Qed.

(** X5. A missing reading on the first row of a machine takes the cleaned
    value of the next row of that machine. *)
Theorem clean_data_leading_gap_takes_next (t : table) (i : nat) (r n : row)
    (c : string) :
  sort_values (drop_duplicates t) !! i = Some r →
  sort_values (drop_duplicates t) !! S i = Some n →
  machine_id r = machine_id n →
  rows_of (machine_id r) (take i (sort_values (drop_duplicates t))) = [] →
  c ∈ numeric_cols → getnum r c = None →
  ∃ r' n', clean_data t !! i = Some r' ∧ clean_data t !! S i = Some n'
           ∧ key r' = key r ∧ key n' = key n ∧ getnum r' c = getnum n' c.
Proof.
  intros Hr Hn Hm Hfirst Hc Hnone. set (s := sort_values (drop_duplicates t)) in *.
  exists (clean_row s i r), (clean_row s (S i) n).
  rewrite !lookup_clean_data. fold s. rewrite Hr, Hn.
  split; [done|]. split; [done|].
  split. { unfold clean_row, fill_row. by rewrite clip_row_key, foldl_set_num_key. }
  split. { unfold clean_row, fill_row. by rewrite clip_row_key, foldl_set_num_key. }
  destruct (numeric_VALUE_RANGES c Hc) as (lo & hi & He).
  rewrite !(getnum_clean_row _ _ _ c lo hi He).
  rewrite (lookup_filled s c i r Hr), (lookup_filled s c (S i) n Hn).
  pose proof (position_in_partition c s i r Hr) as Hpos.
  pose proof (position_in_partition c s (S i) n Hn) as Hpos'.
  rewrite <- Hm in *. rewrite (position_in_partition_S c s i r Hr) in *.
  rewrite (partition_nil_rows_of _ c _ Hfirst) in *. cbn [length] in *.
  rewrite Hnone in Hpos.
  by rewrite (ffill_bfill_leading _ Hpos) by (by eexists).
Qed.

(** *** Tables that need no repair *)

Lemma fill_missing_complete (s : table) :
  (∀ r c, r ∈ s → c ∈ numeric_cols → is_Some (getnum r c)) →
  fill_missing s = s.
Proof.
  intros Hall. apply list_eq. intros i. rewrite lookup_fill_missing.
  destruct (s !! i) as [r|] eqn:E; [|done]. simpl. f_equal.
  apply foldl_set_num_id. intros c Hc.
  assert (Forall is_Some (column c s)) as Hsome.
  { unfold column. rewrite Forall_fmap, Forall_forall. intros r0 Hr0.
    by apply Hall. }
  rewrite filled_settled_id by (by left).
  unfold column. rewrite list_lookup_fmap, E. simpl.
  destruct (Hall r c (list_elem_of_lookup_2 _ _ _ E) Hc) as [v Hv].
  unfold getnum in *. destruct (num r !! c) as [x|]; [done|]. done.
Qed.

Lemma clip_row_in_range (r : row) :
  (∀ c lo hi, (c, (lo, hi)) ∈ VALUE_RANGES →
     ∃ v, num r !! c = Some (Some v) ∧ (lo <= v <= hi)%Q) →
  clip_row r = r.
Proof.
  intros H. unfold clip_row. apply foldl_clip_entry_id.
  intros [c [lo hi]] He. cbn [fst snd].
  destruct (H c lo hi He) as (v & Hv & Hin).
  unfold getnum. rewrite Hv. f_equal. symmetry. exact (clip_fixed lo hi v Hin).
Qed.

(** X7. On a table of at least one row, without repeated keys and without
    missing readings, [clean_data] only sorts and clips; and when every
    reading lies in its range as well, it only sorts. *)
Theorem clean_data_of_complete_table (t : table) :
  t ≠ [] →
  NoDup (key <$> t) →
  (∀ r c, r ∈ t → c ∈ numeric_cols → is_Some (getnum r c)) →
  clean_data t = clip_ranges (sort_values t)
  ∧ ((∀ r c lo hi v, r ∈ t → (c, (lo, hi)) ∈ VALUE_RANGES →
        getnum r c = Some v → (lo <= v <= hi)%Q) →
     clean_data t = sort_values t).
Proof.
  intros _ Hn Hall.
  assert (clean_data t = clip_ranges (sort_values t)) as Hc.
  { unfold clean_data. rewrite (drop_duplicates_id t Hn).
    rewrite fill_missing_complete; [done|].
    intros r c Hr Hc. apply Hall; [|done]. by apply (sort_values_elem r t). }
  split; [done|]. intros Hrange. rewrite Hc, clip_ranges_fmap.
  rewrite <- (list_fmap_id (sort_values t)) at 2.
  apply list_fmap_ext. intros i r Hi. simpl.
  apply list_elem_of_lookup_2, (sort_values_elem r t) in Hi.
  apply clip_row_in_range. intros c lo hi He.
  destruct (Hall r c Hi (VALUE_RANGES_numeric c lo hi He)) as [v Hv].
  exists v. split.
  - unfold getnum in Hv. destruct (num r !! c) as [x|]; simpl in Hv; by subst.
  - by apply (Hrange r c lo hi v).
Qed.

(** ** Further properties of [engineer_features] *)

Lemma numeric_cols_not_derived (c : string) :
  c ∈ numeric_cols → ¬ derived_label c.
Proof.
  intros Hc (c' & sfx & Hc' & Hs & ->).
  by apply (proj1 numeric_cols_feature_labels_fresh (c' +:+ sfx) c' sfx).
Qed.

Section Features.

Variable sqrt : Q → Q.

Lemma lookup_add_features (acc : table) (col : string) (i : nat) (r' : row) :
  add_features sqrt acc col !! i = Some r' →
  ∃ r, acc !! i = Some r ∧ key r' = key r ∧ flag r' = flag r
       ∧ ∀ c, (∀ sfx, sfx ∈ feature_suffixes → c ≠ col +:+ sfx) →
              num r' !! c = num r !! c.
Proof.
  unfold add_features. rewrite !lookup_set_column.
  destruct (acc !! i) as [r|]; [|done]. simpl. intros [= <-].
  exists r. split; [done|]. split; [done|]. split; [done|].
  intros c Hc. simpl.
  rewrite !lookup_insert_ne; [done|..].
  - intros E. by apply (Hc "_roll_mean"); [apply roll_mean_suffix|].
  - intros E. by apply (Hc "_roll_std"); [apply roll_std_suffix|].
  - intros E. by apply (Hc "_diff"); [apply diff_suffix|].
Qed.

Lemma lookup_foldl_add_features (cols : list string) (s : table) (i : nat)
    (r' : row) :
  foldl (add_features sqrt) s cols !! i = Some r' →
  ∃ r, s !! i = Some r ∧ key r' = key r ∧ flag r' = flag r
       ∧ ∀ c, (∀ c' sfx, c' ∈ cols → sfx ∈ feature_suffixes → c ≠ c' +:+ sfx) →
              num r' !! c = num r !! c.
Proof.
  revert s. induction cols as [|col cols IH]; intros s Hi.
  - exists r'. eauto.
  - simpl in Hi. apply IH in Hi as (r1 & Hi & Hk1 & Hf1 & Hn1).
    apply lookup_add_features in Hi as (r & Hi & Hk & Hf & Hn).
    exists r. split; [done|]. split; [congruence|]. split; [congruence|].
    intros c Hc. rewrite Hn1, Hn; [done|..].
    + intros sfx Hs. apply Hc; [by left|done].
    + intros c' sfx Hc' Hs. apply Hc; [by right|done].
Qed.

Lemma length_engineer_features (df : table) :
  length (engineer_features sqrt df) = length df.
Proof.
  rewrite <- (sort_values_length df), <- !(length_fmap key).
  by rewrite key_engineer_features.
Qed.

(** X8. [engineer_features] only adds columns: the table it returns has the
    rows of the input sorted by (machine_id, timestamp), each with its key,
    its flags and every column other than the derived ones as they were,
    the sensor readings among them; and on a table that [clean_data]
    returned the rows stay where they are. *)
Theorem engineer_features_keeps_input (df : table) :
  length (engineer_features sqrt df) = length df
  ∧ (∀ i r', engineer_features sqrt df !! i = Some r' →
       ∃ r, sort_values df !! i = Some r ∧ key r' = key r ∧ flag r' = flag r
            ∧ (∀ c, ¬ derived_label c → num r' !! c = num r !! c)
            ∧ (∀ c, c ∈ numeric_cols → getnum r' c = getnum r c))
  ∧ (∀ t, sort_values (clean_data t) = clean_data t).
Proof.
  split; [apply length_engineer_features|]. split.
  - intros i r' Hi. unfold engineer_features in Hi.
    apply lookup_foldl_add_features in Hi as (r & Hi & Hk & Hf & Hn).
    exists r. split; [done|]. split; [done|]. split; [done|].
    assert (∀ c, ¬ derived_label c → num r' !! c = num r !! c) as Hd.
    { intros c Hc. apply Hn. intros c' sfx Hc' Hs ->. apply Hc.
      by exists c', sfx. }
    split; [done|]. intros c Hc. unfold getnum.
    by rewrite Hd by (by apply numeric_cols_not_derived).
  - intros t. apply sort_values_id, clean_data_sorted.
Qed.

Hypothesis sqrt_zero : ∀ q, (q == 0)%Q → (sqrt q == 0)%Q.

Lemma non_null_all_Some (x : Q) (xs : list (option Q)) :
  Forall (λ v, v = Some x) xs → Forall (λ y, y == x)%Q (non_null xs).
Proof.
  induction 1 as [|v xs -> _ IH]; [constructor|].
  change (non_null (Some x :: xs)) with (x :: non_null xs).
  constructor; [reflexivity|done].
Qed.

(** X10. A flat signal has flat features: where a machine reads the constant
    [x] in a sensor column, each of its rows gets a rolling mean equal to
    [x], a rolling deviation equal to 0 and a difference equal to 0. *)
Theorem flat_signal_features (df : table) (m c : string) (x : Q) (r' : row) :
  c ∈ numeric_cols → constant_on df m c x →
  r' ∈ engineer_features sqrt df → machine_id r' = m →
  ∃ mu sd d,
    getnum r' (c +:+ "_roll_mean") = Some mu ∧ (mu == x)%Q
    ∧ getnum r' (c +:+ "_roll_std") = Some sd ∧ (sd == 0)%Q
    ∧ getnum r' (c +:+ "_diff") = Some d ∧ (d == 0)%Q.
Proof.
  intros Hc Hconst [i Hi]%list_elem_of_lookup Hm.
  set (s := sort_values df).
  destruct (lookup_foldl_add_features numeric_cols s i r' Hi)
    as (r & Hr & Hk & _ & _).
  assert (machine_id r = m) as Hmr by (injection Hk; congruence).
  destruct (feature_cells sqrt s c i r Hr) as (Hmean & Hstd & Hdiff & before & Hb).
  cbv zeta in Hmean, Hstd, Hdiff.
  destruct (column_foldl_add_features sqrt s numeric_cols c
              numeric_cols_feature_labels_fresh Hc) as (Hcm & Hcs & Hcd).
  fold (engineer_features sqrt df) in Hcm, Hcs, Hcd.
  rewrite (getnum_lookup_column _ _ i r' _ _ Hcm Hi Hmean).
  rewrite (getnum_lookup_column _ _ i r' _ _ Hcs Hi Hstd).
  rewrite (getnum_lookup_column _ _ i r' _ _ Hcd Hi Hdiff).
  set (hist := partition (machine_id r) (groupby c (take (S i) s))) in *.
  set (w := drop (length hist - WINDOW_SIZE) hist).
  assert (Forall (λ v, v = Some x) hist) as Hhist.
  { rewrite Forall_forall. intros v Hv.
    apply elem_of_partition in Hv as (r0 & Hr0 & Hm0 & <-).
    apply (λ H, elem_of_sublist _ _ _ H (sublist_take _ _)) in Hr0.
    apply (sort_values_elem r0 df) in Hr0. apply Hconst; [done|congruence]. }
  assert (Forall (λ v, v = Some x) w) as Hw.
  { rewrite Forall_forall in Hhist |- *. intros v Hv. apply Hhist.
    exact (elem_of_sublist _ _ _ Hv (sublist_drop _ _)). }
  assert (w ≠ []) as Hne.
  { unfold w. rewrite Hb. intros E%(f_equal length).
    rewrite length_drop, length_app in E. simpl in E. unfold WINDOW_SIZE in E. lia. }
  pose proof (non_null_all_Some x w Hw) as Hnn.
  assert (is_Some (mean w)) as [mu Hmu].
  { apply mean_is_Some. destruct w as [|v w']; [done|]. exists v.
    split; [by left|]. apply Forall_cons in Hw as [-> _]. done. }
  assert (∃ sd, match std sqrt w with Some v => Some v | None => Some 0%Q end
                = Some sd ∧ (sd == 0)%Q) as (sd & Hsd & Hsd0).
  { destruct (std sqrt w) as [v|] eqn:Hv.
    - exists v. split; [done|]. by apply (std_const sqrt sqrt_zero x w).
    - by exists 0%Q. }
  assert (∃ d, match reverse hist with
               | a :: b :: _ =>
                   match cell_sub a b with Some v => Some v | None => Some 0%Q end
               | _ => Some 0%Q
               end = Some d ∧ (d == 0)%Q) as (d & Hd & Hd0).
  { destruct (reverse hist) as [|a [|b l]] eqn:Hrev; [by exists 0%Q..|].
    assert (a = Some x ∧ b = Some x) as [-> ->].
    { rewrite Forall_forall in Hhist.
      split; apply Hhist; apply elem_of_reverse; rewrite Hrev;
        [left|right; left]. }
    exists (x - x)%Q. split; [done|ring]. }
  exists mu, sd, d. rewrite Hmu. fold w. rewrite Hsd, Hd.
  split; [done|]. split; [by apply (mean_const x w)|]. done.
Qed.

End Features.

(** ** Further properties of the z-scores *)

Lemma filter_fmap {A B : Type} (P : B → Prop) `{!∀ b, Decision (P b)}
    (f : A → B) (l : list A) :
  filter P (f <$> l) = f <$> filter (λ a, P (f a)) l.
Proof.
  induction l as [|a l IH]; [done|].
  rewrite fmap_cons, !filter_cons. destruct (decide (P (f a))).
  - by rewrite fmap_cons, IH.
  - done.
Qed.

Lemma partition_groupby (m c : string) (df : table) :
  partition m (groupby c df) = (λ r, getnum r c) <$> rows_of m df.
Proof.
  unfold partition, groupby, rows_of. rewrite filter_fmap.
  by rewrite <- list_fmap_compose.
Qed.

Section Zscore.

Variable sqrt : Q → Q.

Lemma zscore_row_snoc (df : table) (cols : list string) (c : string) (r : row) :
  zscore_row sqrt df (cols ++ [c]) r
  = set_num (zscore_row sqrt df cols r) (c +:+ "_zscore")
      (zscore_cell sqrt (getnum r c) (partition (machine_id r) (groupby c df))).
Proof. unfold zscore_row. by rewrite foldl_snoc. Qed.

Lemma zscore_row_key (df : table) (cols : list string) (r : row) :
  key (zscore_row sqrt df cols r) = key r
  ∧ flag (zscore_row sqrt df cols r) = flag r.
Proof.
  induction cols as [|c cols IH] using rev_ind; [done|].
  rewrite zscore_row_snoc. done.
Qed.

Lemma zscore_row_other (df : table) (cols : list string) (r : row) (c : string) :
  (∀ c', c' ∈ cols → c ≠ c' +:+ "_zscore") →
  num (zscore_row sqrt df cols r) !! c = num r !! c.
Proof.
  induction cols as [|c0 cols IH] using rev_ind; intros Hc; [done|].
  rewrite zscore_row_snoc. simpl. rewrite lookup_insert_ne.
  - apply IH. intros c' Hc'. apply Hc. apply elem_of_app. by left.
  - intros E. apply (Hc c0); [|done]. apply elem_of_app. right. by left.
Qed.

Lemma zscore_row_zscore (df : table) (cols : list string) (r : row) (c : string) :
  c ∈ cols →
  getnum (zscore_row sqrt df cols r) (c +:+ "_zscore")
  = zscore_cell sqrt (getnum r c) (partition (machine_id r) (groupby c df)).
Proof.
  induction cols as [|c0 cols IH] using rev_ind; intros Hc.
  - by apply elem_of_nil in Hc.
  - rewrite zscore_row_snoc. destruct (decide (c = c0)) as [->|Hne].
    + by rewrite getnum_set_num_eq.
    + rewrite getnum_set_num_ne.
      * apply IH. apply elem_of_app in Hc as [Hc|Hc]; [done|].
        apply list_elem_of_singleton in Hc. done.
      * intros E. by apply string_app_inj_r in E.
Qed.

Lemma zscore_labels_fresh_app (cols : list string) (c : string) :
  zscore_labels_fresh (cols ++ [c]) →
  zscore_labels_fresh cols ∧ ∀ c', c' ∈ cols → c ≠ c' +:+ "_zscore".
Proof.
  intros H. split.
  - intros a b Ha Hb. apply H; apply elem_of_app; by left.
  - intros c' Hc'. apply H; apply elem_of_app; [right; by left|by left].
Qed.

(** [compute_z_scores] works row by row. *)
Lemma compute_z_scores_fmap (df : table) (cols : list string) :
  zscore_labels_fresh cols →
  compute_z_scores sqrt df cols = zscore_row sqrt df cols <$> df.
Proof.
  induction cols as [|c cols IH] using rev_ind; intros Hf.
  - unfold compute_z_scores, zscore_row. simpl. by rewrite list_fmap_id.
  - apply zscore_labels_fresh_app in Hf as [Hf Hc].
    unfold compute_z_scores at 1. rewrite foldl_snoc.
    fold (compute_z_scores sqrt df cols). unfold add_zscore.
    rewrite (zscore_column_ext sqrt c _ df)
      by (by apply (groupby_compute_z_scores sqrt df cols c)).
    rewrite (IH Hf). apply list_eq. intros i.
    rewrite lookup_set_column, !list_lookup_fmap.
    destruct (df !! i) as [r|] eqn:Hi; [|done]. simpl.
    by rewrite (lookup_zscore_column sqrt c df i r Hi), zscore_row_snoc.
Qed.

Lemma rows_of_compute_z_scores (df : table) (cols : list string) (m : string) :
  zscore_labels_fresh cols →
  rows_of m (compute_z_scores sqrt df cols)
  = zscore_row sqrt df cols <$> rows_of m df.
Proof.
  intros Hf. rewrite compute_z_scores_fmap by done. unfold rows_of.
  rewrite filter_fmap. f_equal. apply list_filter_iff. intros r.
  unfold key. pose proof (proj1 (zscore_row_key df cols r)) as Hk.
  injection Hk as _ ->. done.
Qed.

(** X12. The z-scores of a machine depend on the rows of that machine alone:
    two tables that agree on the rows of machine [m] give these rows the
    same z-scores, whatever the other machines read. *)
Theorem compute_z_scores_per_machine (df1 df2 : table) (cols : list string)
    (m : string) :
  zscore_labels_fresh cols → rows_of m df1 = rows_of m df2 →
  rows_of m (compute_z_scores sqrt df1 cols)
  = rows_of m (compute_z_scores sqrt df2 cols).
Proof.
  intros Hf He. rewrite !rows_of_compute_z_scores by done. rewrite <- He.
  apply list_fmap_ext. intros i r Hi.
  assert (machine_id r = m) as Hm.
  { apply list_elem_of_lookup_2 in Hi. unfold rows_of in Hi.
    by apply list_elem_of_filter in Hi as [? _]. }
  unfold zscore_row. rewrite Hm.
  assert (∀ c, partition m (groupby c df1) = partition m (groupby c df2)) as Hp.
  { intros c. by rewrite !partition_groupby, He. }
  generalize r at 2 4. induction cols as [|c cols IH]; intros acc; [done|].
  simpl. rewrite Hp. apply IH.
  intros a b Ha Hb. apply Hf; by right.
Qed.

(** *** The z-scores of a partition are defined *)

Lemma zscore_cell_is_Some (x : option Q) (p : list (option Q)) :
  is_Some (zscore_cell sqrt x p).
Proof. unfold zscore_cell. by destruct (cell_div _ _). Qed.

Lemma partition_zscores (df : table) (cols : list string) (c m : string) :
  zscore_labels_fresh cols → c ∈ cols →
  partition m (groupby (c +:+ "_zscore") (compute_z_scores sqrt df cols))
  = (λ x, zscore_cell sqrt x (partition m (groupby c df)))
      <$> partition m (groupby c df).
Proof.
  intros Hf Hc. rewrite !partition_groupby, rows_of_compute_z_scores by done.
  rewrite <- !list_fmap_compose. apply list_fmap_ext. intros i r Hi. simpl.
  assert (machine_id r = m) as Hm.
  { apply list_elem_of_lookup_2 in Hi. unfold rows_of in Hi.
    by apply list_elem_of_filter in Hi as [? _]. }
  by rewrite zscore_row_zscore, partition_groupby, Hm.
Qed.

(** X13. The z-scores a machine receives for a sensor are all defined, one
    for each of its rows: none is missing. *)
Theorem z_scores_are_defined (df : table) (cols : list string) (c m : string) :
  zscore_labels_fresh cols → c ∈ cols →
  ∃ zs, partition m (groupby (c +:+ "_zscore") (compute_z_scores sqrt df cols))
        = Some <$> zs
        ∧ length zs = length (rows_of m df).
Proof.
  intros Hf Hc. rewrite partition_zscores by done.
  set (p := partition m (groupby c df)).
  assert (Forall is_Some ((λ x, zscore_cell sqrt x p) <$> p)) as Hsome.
  { rewrite Forall_fmap. apply Forall_true. intros x. apply zscore_cell_is_Some. }
  rewrite (Forall_is_Some_fmap _ Hsome). eexists. split; [done|].
  unfold non_null. assert (∀ xs : list (option Q), Forall is_Some xs →
    length (omap id xs) = length xs) as Hlen.
  { induction 1 as [|y ys [v ->] _ IH]; [done|]. csimpl. by rewrite IH. }
  rewrite (Hlen _ Hsome), length_fmap. unfold p.
  by rewrite partition_groupby, length_fmap.
Qed.

End Zscore.

(** *** The threshold *)

Lemma zscore_exceeds_monotone (t1 t2 : Q) (cols : list string) (r : row) :
  (t1 <= t2)%Q → zscore_exceeds t2 cols r = true →
  zscore_exceeds t1 cols r = true.
Proof.
  intros Ht. unfold zscore_exceeds. rewrite !existsb_exists.
  intros (zc & Hin & H). exists zc. split; [done|].
  apply cell_ltb_iff in H as (x & y & [= <-] & Hy & Hlt).
  apply cell_ltb_iff. exists t1, y. split; [done|]. split; [done|]. lra.
Qed.

(** X14. Raising the threshold never flags a row that was not flagged before. *)
Theorem flag_zscore_anomalies_monotone (df : table) (cols : list string)
    (t1 t2 : Q) (i : nat) (r1 r2 : row) :
  (t1 <= t2)%Q →
  flag_zscore_anomalies df cols t1 !! i = Some r1 →
  flag_zscore_anomalies df cols t2 !! i = Some r2 →
  getflag r2 "anomaly_zscore" = true → getflag r1 "anomaly_zscore" = true.
Proof.
  intros Ht. rewrite !lookup_flag_zscore_anomalies.
  destruct (df !! i) as [r|]; [|done]. simpl. intros [= <-] [= <-].
  unfold getflag. simpl. rewrite !lookup_insert. simpl.
  by apply zscore_exceeds_monotone.
Qed.

(** ** Further properties of the IQR bounds *)

Lemma Qinsert_Forall (P : Q → Prop) (x : Q) (ys : list Q) :
  P x → Forall P ys → Forall P (Qinsert x ys).
Proof.
  intros Hx. induction 1 as [|y ys Hy Hys IH]; simpl.
  - by constructor.
  - destruct (Qle_bool x y); repeat constructor; done.
Qed.

Lemma Qinsert_length (x : Q) (ys : list Q) :
  length (Qinsert x ys) = S (length ys).
Proof.
  induction ys as [|y ys IH]; [done|]. simpl.
  destruct (Qle_bool x y); simpl; by rewrite ?IH.
Qed.

Lemma Qsort_length (ys : list Q) : length (Qsort ys) = length ys.
Proof.
  induction ys as [|y ys IH]; [done|]. simpl.
  by rewrite Qinsert_length, IH.
Qed.

Lemma Qsort_Forall (P : Q → Prop) (ys : list Q) :
  Forall P ys → Forall P (Qsort ys).
Proof.
  induction 1 as [|y ys Hy Hys IH]; [constructor|].
  simpl. by apply Qinsert_Forall.
Qed.

Lemma Qinsert_sorted (x : Q) (ys : list Q) :
  Qsorted ys → Qsorted (Qinsert x ys).
Proof.
  induction 1 as [|y ys Hy Hs IH]; simpl.
  - by repeat constructor.
  - destruct (Qle_bool x y) eqn:E.
    + apply Qle_bool_iff in E. constructor; [|by constructor].
      constructor; [done|]. eapply Forall_impl; [exact Hy|].
      intros z Hz. simpl in Hz. lra.
    + assert (y <= x)%Q as Hyx.
      { destruct (Qlt_le_dec y x) as [H|H]; [lra|].
        apply Qle_bool_iff in H. congruence. }
      constructor; [|done]. by apply Qinsert_Forall.
Qed.

Lemma Qsort_sorted (ys : list Q) : Qsorted (Qsort ys).
Proof.
  induction ys as [|y ys IH]; [constructor|]. simpl. by apply Qinsert_sorted.
Qed.

Lemma Qsorted_lookup (l : list Q) (i j : nat) (a b : Q) :
  Qsorted l → i ≤ j → l !! i = Some a → l !! j = Some b → (a <= b)%Q.
Proof.
  intros Hs. revert i j. induction Hs as [|x l Hx Hs IH]; intros i j Hij Ha Hb.
  - done.
  - destruct i as [|i], j as [|j]; try lia.
    + injection Ha as ->. injection Hb as ->. lra.
    + injection Ha as ->. rewrite Forall_forall in Hx. apply Hx.
      exact (list_elem_of_lookup_2 l j b Hb).
    + apply (IH i j); [lia|done|done].
Qed.

(** The interpolation of [quantile] at the virtual index [h]. *)
Lemma interpolation_bounds (ys : list Q) (y0 h : Q) :
  Qsorted ys → ys ≠ [] →
  (0 <= h <= inject_Z (Z.of_nat (length ys - 1)))%Q →
  let i := Z.to_nat (Qfloor h) in
  let a := default y0 (ys !! i) in
  let b := default a (ys !! S i) in
  ys !! i = Some a ∧ (a <= b)%Q
  ∧ (a <= a + (b - a) * (h - inject_Z (Qfloor h)) <= b)%Q
  ∧ (S i < length ys → ys !! S i = Some b).
Proof.
  intros Hs Hne [H0 Hh] i a b.
  assert (0 ≤ Qfloor h)%Z as Hf0.
  { rewrite <- (Qfloor_Z 0). by apply Qfloor_resp_le. }
  assert (Qfloor h ≤ Z.of_nat (length ys - 1))%Z as Hfn.
  { rewrite <- (Qfloor_Z (Z.of_nat _)). by apply Qfloor_resp_le. }
  assert (i < length ys) as Hi.
  { unfold i. destruct ys; [done|]. simpl in *. lia. }
  apply lookup_lt_is_Some in Hi as [a' Ha'].
  assert (a = a') as Ea by (unfold a; by rewrite Ha').
  rewrite <- Ea in Ha'. split; [done|].
  assert (a <= b)%Q as Hab.
  { unfold b. destruct (ys !! S i) as [b'|] eqn:Hb'; simpl; [|lra].
    apply (Qsorted_lookup ys i (S i)); [done|lia|done|done]. }
  split; [done|]. split.
  - pose proof (Qfloor_le h). pose proof (Qlt_floor h).
    rewrite inject_Z_plus in *. change (inject_Z 1) with 1%Q in *.
    nra.
  - intros Hlt. apply lookup_lt_is_Some in Hlt as [b' Hb'].
    unfold b. by rewrite Hb'.
Qed.

Lemma interpolation_monotone (ys : list Q) (y0 h1 h2 : Q) :
  Qsorted ys → ys ≠ [] →
  (0 <= h1)%Q → (h1 <= h2)%Q → (h2 <= inject_Z (Z.of_nat (length ys - 1)))%Q →
  (interpolate ys y0 h1 <= interpolate ys y0 h2)%Q.
Proof.
  intros Hs Hne H0 H12 Hn. unfold interpolate.
  destruct (interpolation_bounds ys y0 h1 Hs Hne) as (Ha1 & Hab1 & Hv1 & Hb1);
    [lra|].
  destruct (interpolation_bounds ys y0 h2 Hs Hne) as (Ha2 & Hab2 & Hv2 & Hb2);
    [lra|].
  cbv zeta in *.
  pose proof (Qfloor_resp_le h1 h2 H12) as Hf.
  assert (0 ≤ Qfloor h1)%Z as Hf0.
  { rewrite <- (Qfloor_Z 0). by apply Qfloor_resp_le. }
  destruct (decide (Qfloor h1 = Qfloor h2)) as [E|N].
  - rewrite <- E in *.
    set (a := default y0 (ys !! Z.to_nat (Qfloor h1))) in *.
    set (b := default a (ys !! S (Z.to_nat (Qfloor h1)))) in *.
    nra.
  - set (i1 := Z.to_nat (Qfloor h1)) in *. set (i2 := Z.to_nat (Qfloor h2)) in *.
    assert (S i1 ≤ i2) as Hi by (unfold i1, i2; lia).
    assert (S i1 < length ys) as Hlt.
    { apply lookup_lt_Some in Ha2. lia. }
    specialize (Hb1 Hlt).
    pose proof (Qsorted_lookup ys (S i1) i2 _ _ Hs Hi Hb1 Ha2). lra.
Qed.

Lemma quantile_interpolate (q : Q) (xs : list (option Q)) :
  quantile q xs
  = match Qsort (non_null xs) with
    | [] => None
    | y0 :: ys =>
        Some (interpolate (y0 :: ys) y0
                (q * inject_Z (Z.of_nat (length (y0 :: ys) - 1))))
    end.
Proof. unfold quantile. by destruct (Qsort (non_null xs)). Qed.

Lemma quantile_monotone (q1 q2 : Q) (xs : list (option Q)) (v1 v2 : Q) :
  (0 <= q1)%Q → (q1 <= q2)%Q → (q2 <= 1)%Q →
  quantile q1 xs = Some v1 → quantile q2 xs = Some v2 → (v1 <= v2)%Q.
Proof.
  intros H0 H12 H1. rewrite !quantile_interpolate.
  pose proof (Qsort_sorted (non_null xs)) as Hs.
  destruct (Qsort (non_null xs)) as [|y0 ys] eqn:E; [done|].
  intros [= <-] [= <-].
  set (n := inject_Z (Z.of_nat (length (y0 :: ys) - 1))).
  assert (0 <= n)%Q as Hn.
  { unfold n. change 0%Q with (inject_Z 0). rewrite <- Zle_Qle. lia. }
  apply interpolation_monotone; [done|done|..]; change (_ - 0) with (length (y0 :: ys) - 1);
    fold n; clearbody n; nra.
Qed.

Lemma quantile_is_Some (q : Q) (xs : list (option Q)) :
  (∃ x, x ∈ xs ∧ x ≠ None) → is_Some (quantile q xs).
Proof.
  intros Hx. unfold quantile.
  destruct (Qsort (non_null xs)) as [|y0 ys] eqn:E; [|by eexists].
  apply (f_equal length) in E. rewrite Qsort_length in E.
  apply nil_length_inv in E. apply non_null_nil in E.
  destruct Hx as (x & Hin & Hne). rewrite Forall_forall in E. by destruct (Hne (E x Hin)).
Qed.

Lemma quantile_within (q : Q) (xs : list (option Q)) (lo hi v : Q) :
  (0 <= q)%Q → (q <= 1)%Q →
  Forall (λ y, lo <= y <= hi)%Q (non_null xs) →
  quantile q xs = Some v → (lo <= v <= hi)%Q.
Proof.
  intros H0 H1 Hall. rewrite quantile_interpolate.
  pose proof (Qsort_sorted (non_null xs)) as Hs.
  pose proof (Qsort_Forall _ _ Hall) as Hin.
  destruct (Qsort (non_null xs)) as [|y0 ys] eqn:E; [done|].
  intros [= <-]. unfold interpolate.
  try change (length ys - 0) with (length (y0 :: ys) - 1).
  set (n := inject_Z (Z.of_nat (length (y0 :: ys) - 1))).
  assert (0 <= n)%Q as Hn.
  { unfold n. change 0%Q with (inject_Z 0). rewrite <- Zle_Qle. lia. }
  destruct (interpolation_bounds (y0 :: ys) y0 (q * n)%Q)
    as (Ha & Hab & Hv & Hb);
    [done|done|change (_ - 0) with (length (y0 :: ys) - 1); fold n; clearbody n; nra|].
  cbv zeta in *. rewrite Forall_forall in Hin.
  set (i := Z.to_nat (Qfloor (q * n))) in *.
  set (a := default y0 ((y0 :: ys) !! i)) in *.
  set (b := default a ((y0 :: ys) !! S i)) in *.
  pose proof (Hin a (list_elem_of_lookup_2 _ _ _ Ha)) as Hina.
  assert (lo <= b <= hi)%Q as Hinb.
  { unfold b. destruct ((y0 :: ys) !! S i) as [b'|] eqn:Hb'; simpl; [|done].
    apply Hin. exact (list_elem_of_lookup_2 _ _ _ Hb'). }
  lra.
Qed.

Lemma column_has_value_elem (c : string) (df : table) :
  column_has_value c df ↔ ∃ x, x ∈ column c df ∧ x ≠ None.
Proof.
  unfold column_has_value, column. split.
  - intros (r & Hr & Hne). exists (getnum r c). split; [|done].
    by apply (list_elem_of_fmap_2 (λ r, getnum r c)).
  - intros (x & [r [-> Hr]]%list_elem_of_fmap & Hne). by exists r.
Qed.

(** X15. For a multiplier that is not negative the interval of
    [compute_iqr_bounds] is never empty: on a column that holds a reading
    both quartiles and both bounds are defined, and
    lower <= Q1 <= Q3 <= upper. *)
Theorem iqr_bounds_enclose_quartiles (df : table) (cols : list string)
    (multiplier : Q) (c : string) :
  (0 <= multiplier)%Q → c ∈ cols → column_has_value c df →
  ∃ q1 q3 lo hi,
    quantile (1 # 4) (column c df) = Some q1
    ∧ quantile (3 # 4) (column c df) = Some q3
    ∧ compute_iqr_bounds df cols multiplier !! c = Some (Some lo, Some hi)
    ∧ (lo <= q1)%Q ∧ (q1 <= q3)%Q ∧ (q3 <= hi)%Q.
Proof.
  intros Hm Hc Hv. apply column_has_value_elem in Hv.
  destruct (quantile_is_Some (1 # 4) _ Hv) as [q1 H1].
  destruct (quantile_is_Some (3 # 4) _ Hv) as [q3 H3].
  assert (q1 <= q3)%Q as H13.
  { apply (quantile_monotone (1 # 4) (3 # 4) (column c df)); try done. }
  exists q1, q3, (q1 - multiplier * (q3 - q1))%Q, (q3 + multiplier * (q3 - q1))%Q.
  split; [done|]. split; [done|]. split.
  - rewrite lookup_compute_iqr_bounds, decide_True by done.
    by rewrite (iqr_bounds_of_formula multiplier _ q1 q3).
  - split; [nra|]. split; [done|nra].
Qed.

(** X16. A row whose readings lie between the quartiles of their columns is
    not flagged by the IQR method, for any multiplier that is not
    negative. *)
Theorem interquartile_readings_not_flagged (df : table) (cols : list string)
    (multiplier : Q) (i : nat) (r : row) :
  (0 <= multiplier)%Q → df !! i = Some r →
  (∀ c, c ∈ cols → ∃ v q1 q3,
     getnum r c = Some v
     ∧ quantile (1 # 4) (column c df) = Some q1
     ∧ quantile (3 # 4) (column c df) = Some q3
     ∧ (q1 <= v <= q3)%Q) →
  ∃ r', flag_iqr_anomalies df (compute_iqr_bounds df cols multiplier) cols !! i
        = Some r'
        ∧ flag r' !! "anomaly_iqr" = Some false.
Proof.
  intros Hm Hi Hin. rewrite lookup_flag_iqr_anomalies, Hi. eexists.
  split; [done|]. simpl. rewrite lookup_insert. simpl. f_equal.
  apply not_true_is_false. rewrite existsb_exists.
  intros (c & Hc%list_elem_of_In & Ho).
  apply outside_bounds_iff in Ho as (v' & Hv' & Ho).
  destruct (Hin c Hc) as (v & q1 & q3 & Hv & H1 & H3 & Hq).
  rewrite lookup_compute_iqr_bounds, decide_True in Ho by done.
  rewrite (iqr_bounds_of_formula multiplier _ q1 q3 H1 H3) in Ho.
  simpl in Ho. assert (v' = v) as -> by congruence.
  destruct Ho as [(lo & [= <-] & Hlt)|(hi & [= <-] & Hlt)]; nra.
Qed.

(** X17. A column without any reading (an empty table included) gets NaN for
    both bounds, and such a column flags no row. *)
Theorem iqr_bounds_of_empty_column (df : table) (cols : list string)
    (multiplier : Q) (c : string) :
  c ∈ cols → ¬ column_has_value c df →
  compute_iqr_bounds df cols multiplier !! c = Some (None, None)
  ∧ ∀ r, outside_bounds (compute_iqr_bounds df cols multiplier) r c = false.
Proof.
  intros Hc Hv.
  assert (compute_iqr_bounds df cols multiplier !! c = Some (None, None)) as Hb.
  { rewrite lookup_compute_iqr_bounds, decide_True by done. f_equal.
    assert (non_null (column c df) = []) as Hnn.
    { apply non_null_nil. rewrite Forall_forall. intros x Hx.
      destruct x as [q|]; [|done]. destruct Hv.
      apply column_has_value_elem. by exists (Some q). }
    unfold iqr_bounds_of, quantile. by rewrite Hnn. }
  split; [done|]. intros r. unfold outside_bounds. rewrite Hb. simpl.
  by destruct (getnum r c).
Qed.

(** ** The scoring as a whole *)

Lemma compute_iqr_bounds_ext (df df' : table) (cols : list string)
    (multiplier : Q) :
  (∀ c, c ∈ cols → column c df = column c df') →
  compute_iqr_bounds df cols multiplier = compute_iqr_bounds df' cols multiplier.
Proof.
  intros H. apply map_eq. intros c. rewrite !lookup_compute_iqr_bounds.
  destruct (decide (c ∈ cols)); [|done]. by rewrite H.
Qed.

Lemma column_flag_zscore_anomalies (df : table) (cols : list string)
    (threshold : Q) (c : string) :
  column c (flag_zscore_anomalies df cols threshold) = column c df.
Proof.
  apply list_eq. intros i. unfold column.
  rewrite !list_lookup_fmap, lookup_flag_zscore_anomalies.
  by destruct (df !! i).
Qed.

Lemma existsb_ext {A : Type} (f g : A → bool) (l : list A) :
  (∀ a, a ∈ l → f a = g a) → existsb f l = existsb g l.
Proof.
  induction l as [|a l IH]; intros H; [done|]. simpl.
  rewrite (H a) by (by left). f_equal. apply IH. intros b Hb. apply H. by right.
Qed.

Section Scoring.

Variable sqrt : Q → Q.

Lemma column_compute_z_scores_other (df : table) (cols : list string) (c : string) :
  (∀ c', c' ∈ cols → c ≠ c' +:+ "_zscore") →
  column c (compute_z_scores sqrt df cols) = column c df.
Proof.
  intros H. by rewrite !column_groupby, groupby_compute_z_scores.
Qed.

Lemma length_run_anomaly_detection (df : table) :
  length (run_anomaly_detection sqrt df) = length df.
Proof.
  unfold run_anomaly_detection.
  rewrite combined_anomaly_score_fmap, length_fmap.
  unfold flag_iqr_anomalies, flag_zscore_anomalies.
  rewrite !length_set_flag_column. apply length_compute_z_scores.
Qed.

(** X18. [run_anomaly_detection] row by row: the row at each position keeps
    its key and every column other than the four z-score columns; these
    hold the z-scores of the row within its machine; [anomaly_zscore] says
    whether one of them exceeds 3 in absolute value, [anomaly_iqr] whether
    a reading lies outside the bounds computed from the input table, and
    [anomaly_combined] is their disjunction.  No other flag changes. *)
Theorem run_anomaly_detection_rows (df : table) :
  length (run_anomaly_detection sqrt df) = length df
  ∧ ∀ i r, df !! i = Some r →
      ∃ r', run_anomaly_detection sqrt df !! i = Some r'
        ∧ key r' = key r
        ∧ (∀ c, (∀ c', c' ∈ SENSOR_COLS → c ≠ c' +:+ "_zscore") →
                num r' !! c = num r !! c)
        ∧ (∀ c, c ∈ SENSOR_COLS →
                getnum r' (c +:+ "_zscore")
                = zscore_cell sqrt (getnum r c)
                    (partition (machine_id r) (groupby c df)))
        ∧ flag r'
          = <["anomaly_combined" :=
                zscore_exceeds Z_THRESHOLD SENSOR_COLS r'
                || existsb (outside_bounds
                              (compute_iqr_bounds df SENSOR_COLS IQR_MULTIPLIER) r)
                     SENSOR_COLS]>
              (<["anomaly_iqr" :=
                   existsb (outside_bounds
                              (compute_iqr_bounds df SENSOR_COLS IQR_MULTIPLIER) r)
                     SENSOR_COLS]>
                 (<["anomaly_zscore" :=
                      zscore_exceeds Z_THRESHOLD SENSOR_COLS r']> (flag r))).
Proof.
  pose proof SENSOR_COLS_zscore_labels_fresh as Hfresh.
  split; [apply length_run_anomaly_detection|].
  unfold run_anomaly_detection.
  set (t1 := compute_z_scores sqrt df SENSOR_COLS).
  set (t2 := flag_zscore_anomalies t1 SENSOR_COLS Z_THRESHOLD).
  assert (compute_iqr_bounds t2 SENSOR_COLS IQR_MULTIPLIER
          = compute_iqr_bounds df SENSOR_COLS IQR_MULTIPLIER) as ->.
  { apply compute_iqr_bounds_ext. intros c Hc. unfold t2, t1.
    rewrite column_flag_zscore_anomalies.
    apply column_compute_z_scores_other. intros c' Hc'. by apply Hfresh. }
  set (bounds := compute_iqr_bounds df SENSOR_COLS IQR_MULTIPLIER).
  intros i r Hi.
  rewrite combined_anomaly_score_fmap, list_lookup_fmap,
    lookup_flag_iqr_anomalies.
  unfold t2. rewrite lookup_flag_zscore_anomalies.
  unfold t1. rewrite compute_z_scores_fmap, list_lookup_fmap, Hi by done.
  cbn [fmap option_fmap option_map].
  destruct (zscore_row_key sqrt df SENSOR_COLS r) as [Hk Hf].
  assert (∀ c, (∀ c', c' ∈ SENSOR_COLS → c ≠ c' +:+ "_zscore") →
               num (zscore_row sqrt df SENSOR_COLS r) !! c = num r !! c) as Ho.
  { intros c Hc. by apply zscore_row_other. }
  pose proof (λ c, zscore_row_zscore sqrt df SENSOR_COLS r c) as Hz.
  generalize dependent (zscore_row sqrt df SENSOR_COLS r). intros r1 Hk Hf Ho Hz.
  eexists. split; [done|].
  split; [exact Hk|]. split; [exact Ho|]. split; [exact Hz|].
  assert (existsb
            (outside_bounds bounds
               (set_flag r1 "anomaly_zscore"
                  (zscore_exceeds Z_THRESHOLD SENSOR_COLS r1))) SENSOR_COLS
          = existsb (outside_bounds bounds r) SENSOR_COLS) as Hq.
  { apply existsb_ext. intros c Hc. unfold outside_bounds, getnum.
    cbn [num set_flag]. rewrite (Ho c); [done|].
    intros c' Hc'. by apply Hfresh. }
  rewrite Hq. unfold combine_row, getflag. cbn [flag set_flag].
  change (zscore_exceeds Z_THRESHOLD SENSOR_COLS (set_flag _ _ _))
    with (zscore_exceeds Z_THRESHOLD SENSOR_COLS r1).
  rewrite lookup_insert_ne, !lookup_insert by done. cbn [from_option id].
  rewrite Hf. done.
Qed.

End Scoring.

(** ** What the stages raise, and what they leave *)

Lemma result_of_block (body : nat → Imp.M unit) (f f' : Imp.frame)
    (res : Imp.exn + unit) (h : list Imp.frame) (df : nat) :
  runs_on_top body f res f' → h !! df = Some f →
  Imp.result ((df' ← Imp.copy df; body df' ;; mret df') h)
  = match res with inl e => inl e | inr _ => inr f' end.
Proof.
  intros Hb Hdf. rewrite run_bind, (run_copy h df f Hdf), run_bind, (Hb h).
  destruct res as [e|[]]; [done|].
  unfold mret, Imp.M_ret, Imp.result. cbn [fst snd]. by rewrite lookup_top.
Qed.

Lemma runs_on_top_require_update (labels new : list string)
    (g : table → table) (f : Imp.frame) :
  runs_on_top (λ r, Imp.require r labels ;; Imp.update r new g) f
    (req_result labels f)
    (match req_result labels f with inl _ => f | inr _ => upd new g f end).
Proof.
  intros h0. rewrite run_bind, run_require_top.
  destruct (req_result labels f) as [e|[]]; [done|]. apply run_update_top.
Qed.

(** X19. [combined_anomaly_score] needs both flags: on a table without
    [anomaly_zscore] it raises [KeyError] naming that column, on a table
    with it and without [anomaly_iqr] it raises [KeyError] naming the
    latter, and otherwise it returns the table with the combined flag. *)
Theorem combined_anomaly_score_needs_both_flags (h : list Imp.frame) (df : nat)
    (f : Imp.frame) :
  h !! df = Some f →
  Imp.result (Imp.combined_anomaly_score df h)
  = if decide ("anomaly_zscore" ∈ Imp.columns f) then
      if decide ("anomaly_iqr" ∈ Imp.columns f)
      then inr (upd ["anomaly_combined"] combined_anomaly_score f)
      else inl (Imp.KeyError "anomaly_iqr")
    else inl (Imp.KeyError "anomaly_zscore").
Proof.
  intros Hdf. unfold Imp.combined_anomaly_score.
  rewrite (result_of_block _ f _ _ h df
             (runs_on_top_require_update _ _ _ f) Hdf).
  unfold req_result. rewrite !filter_cons, filter_nil.
  destruct (decide ("anomaly_zscore" ∈ Imp.columns f)) as [Hz|Hz].
  - rewrite decide_False by (by intros ?).
    destruct (decide ("anomaly_iqr" ∈ Imp.columns f)) as [Hi|Hi].
    + by rewrite decide_False by (by intros ?).
    + by rewrite decide_True.
  - by rewrite decide_True.
Qed.

(** X20. [flag_zscore_anomalies] needs the z-score columns of
    [compute_z_scores]: with all of them present it returns the flagged
    table, and with one absent it raises [KeyError] naming an absent
    z-score column. *)
Theorem flag_zscore_anomalies_needs_z_scores (cols : list string)
    (threshold : Q) (h : list Imp.frame) (df : nat) (f : Imp.frame) :
  h !! df = Some f →
  (Forall (λ c, (c +:+ "_zscore") ∈ Imp.columns f) cols →
   Imp.result (Imp.flag_zscore_anomalies df cols threshold h)
   = inr (upd ["anomaly_zscore"]
            (λ t, flag_zscore_anomalies t cols threshold) f))
  ∧ (¬ Forall (λ c, (c +:+ "_zscore") ∈ Imp.columns f) cols →
     ∃ c, c ∈ cols ∧ ((c +:+ "_zscore") ∉ Imp.columns f)
          ∧ Imp.result (Imp.flag_zscore_anomalies df cols threshold h)
            = inl (Imp.KeyError (c +:+ "_zscore"))).
Proof.
  intros Hdf. unfold Imp.flag_zscore_anomalies.
  rewrite (result_of_block _ f _ _ h df
             (runs_on_top_require_update _ _ _ f) Hdf).
  unfold req_result.
  destruct (filter _ _) as [|zc l] eqn:E.
  - split; [done|]. intros Hn. destruct Hn. rewrite Forall_forall. intros c Hc.
    destruct (decide ((c +:+ "_zscore") ∈ Imp.columns f)) as [|Hno]; [done|].
    assert ((c +:+ "_zscore")
            ∈ filter (λ c, c ∉ Imp.columns f) ((λ c, c +:+ "_zscore") <$> cols))
      as Hin.
    { apply list_elem_of_filter. split; [done|].
      by apply (list_elem_of_fmap_2 (λ c, c +:+ "_zscore")). }
    rewrite E in Hin. by apply elem_of_nil in Hin.
  - assert (zc ∈ filter (λ c, c ∉ Imp.columns f) ((λ c, c +:+ "_zscore") <$> cols))
      as Hin by (rewrite E; left).
    apply list_elem_of_filter in Hin as [Hno Hin].
    apply list_elem_of_fmap in Hin as (c & -> & Hc).
    split.
    + intros Hall. rewrite Forall_forall in Hall. by destruct (Hno (Hall c Hc)).
    + intros _. by exists c.
Qed.

Lemma bounds_loop_on_top (bounds : gmap string (option Q * option Q))
    (cols : list string) (f : Imp.frame) :
  runs_on_top (λ r, Imp.for_each cols (λ col,
                 match bounds !! col with
                 | None => Imp.raise (Imp.KeyError col)
                 | Some _ => Imp.require r [col]
                 end)) f
    (match filter (λ c, c ∉ dom bounds ∨ c ∉ Imp.columns f) cols with
     | [] => inr ()
     | c :: _ => inl (Imp.KeyError c)
     end) f.
Proof.
  induction cols as [|c cols IH]; intros h0; [done|].
  cbn [Imp.for_each]. rewrite run_bind, filter_cons.
  destruct (bounds !! c) as [b|] eqn:Hb.
  - rewrite run_require_top. unfold req_result.
    rewrite filter_cons, filter_nil.
    destruct (decide (c ∉ Imp.columns f)) as [Hc|Hc].
    + rewrite decide_True by (by right). done.
    + rewrite decide_False; [apply IH|].
      intros [Hd|Hd]; [|done]. apply Hd, elem_of_dom. by eexists.
  - rewrite decide_True; [done|]. left. by apply not_elem_of_dom.
Qed.

(** X21. [flag_iqr_anomalies] reads, for each configured column in turn, its
    entry of the dictionary of bounds and the column itself: it raises
    [KeyError] naming the first configured column that the dictionary or
    the table lacks, and returns the flagged table when there is none. *)
Theorem flag_iqr_anomalies_needs_bounds
    (bounds : gmap string (option Q * option Q)) (cols : list string)
    (h : list Imp.frame) (df : nat) (f : Imp.frame) :
  h !! df = Some f →
  Imp.result (Imp.flag_iqr_anomalies df bounds cols h)
  = match filter (λ c, c ∉ dom bounds ∨ c ∉ Imp.columns f) cols with
    | [] => inr (upd ["anomaly_iqr"] (λ t, flag_iqr_anomalies t bounds cols) f)
    | c :: _ => inl (Imp.KeyError c)
    end.
Proof.
  intros Hdf. unfold Imp.flag_iqr_anomalies.
  rewrite (result_of_block _ f
             (match filter (λ c, c ∉ dom bounds ∨ c ∉ Imp.columns f) cols with
              | [] => upd ["anomaly_iqr"] (λ t, flag_iqr_anomalies t bounds cols) f
              | _ :: _ => f
              end)
             (match filter (λ c, c ∉ dom bounds ∨ c ∉ Imp.columns f) cols with
              | [] => inr ()
              | c :: _ => inl (Imp.KeyError c)
              end) h df); [by destruct (filter _ cols)| |done].
  intros h0. rewrite run_bind, (bounds_loop_on_top bounds cols f h0).
  destruct (filter _ cols); [|done]. apply run_update_top.
Qed.

(** X22. [compute_iqr_bounds] only reads the table: the heap is the same after
    the call, whether it returns or raises.  It raises [KeyError] naming
    the first configured column the table lacks; otherwise the dictionary
    it returns has an entry for exactly the configured columns. *)
Theorem compute_iqr_bounds_reads_only (cols : list string) (multiplier : Q)
    (h : list Imp.frame) (df : nat) (f : Imp.frame) :
  h !! df = Some f →
  (Imp.compute_iqr_bounds df cols multiplier h).2 = h
  ∧ match filter (λ c, c ∉ Imp.columns f) cols with
    | [] => ∃ b, (Imp.compute_iqr_bounds df cols multiplier h).1 = inr b
                 ∧ b = compute_iqr_bounds (Imp.rows f) cols multiplier
                 ∧ dom b = list_to_set cols
    | c :: _ => (Imp.compute_iqr_bounds df cols multiplier h).1
                = inl (Imp.KeyError c)
    end.
Proof.
  intros Hdf. unfold Imp.compute_iqr_bounds, Imp.require, Imp.deref.
  rewrite !run_bind, Hdf.
  destruct (filter _ cols) as [|c l]; [|done].
  cbn. rewrite run_bind, Hdf. cbn. split; [done|].
  eexists. split; [done|]. split; [done|].
  apply set_eq. intros c. rewrite elem_of_dom, elem_of_list_to_set.
  rewrite lookup_compute_iqr_bounds. destruct (decide (c ∈ cols)).
  - split; [done|]. by eexists.
  - split; [by intros [? ?]|done].
Qed.

Section Schema.

Variable sqrt : Q → Q.

Lemma run_anomaly_detection_frame (h : list Imp.frame) (df : nat) (f : Imp.frame) :
  Forall (λ c, c ∈ Imp.columns f) ("machine_id" :: SENSOR_COLS) → h !! df = Some f →
  ∃ junk,
    Imp.run_anomaly_detection sqrt df h
    = outcome
        (inr (Imp.Frame
                (Imp.columns f ∪ list_to_set (SENSOR_COLS ≫= zscore_label)
                 ∪ list_to_set ["anomaly_zscore"] ∪ list_to_set ["anomaly_iqr"]
                 ∪ list_to_set ["anomaly_combined"])
                (run_anomaly_detection sqrt (Imp.rows f))))
        junk h.
Proof.
  intros Hneeds Hdf. unfold Imp.run_anomaly_detection.
  assert (∀ c, c ∈ SENSOR_COLS → c ∈ Imp.columns f) as Hin.
  { apply Forall_cons in Hneeds as [_ H]. by apply Forall_forall. }
  set (f1 := Imp.Frame (Imp.columns f ∪ list_to_set (SENSOR_COLS ≫= zscore_label))
               (compute_z_scores sqrt (Imp.rows f) SENSOR_COLS)).
  set (f2 := upd ["anomaly_zscore"]
               (λ t, flag_zscore_anomalies t SENSOR_COLS Z_THRESHOLD) f1).
  set (bounds := compute_iqr_bounds (Imp.rows f2) SENSOR_COLS IQR_MULTIPLIER).
  set (f3 := upd ["anomaly_iqr"]
               (λ t, flag_iqr_anomalies t bounds SENSOR_COLS) f2).
  set (f4 := upd ["anomaly_combined"] combined_anomaly_score f3).
  exists [f1; f2; f3]. change (Imp.Frame _ _) with f4.
  rewrite run_bind, (compute_z_scores_ok sqrt SENSOR_COLS h df f Hneeds Hdf).
  fold f1. unfold outcome at 1. cbn [length app]. rewrite Nat.add_0_r.
  rewrite run_bind, (flag_zscore_anomalies_ok _ _ _ _ f1).
  2:{ apply Forall_forall. intros c Hc. unfold f1. cbn [Imp.columns].
      apply elem_of_union_r, elem_of_list_to_set.
      apply list_elem_of_fmap in Hc as (c' & -> & Hc').
      apply list_elem_of_bind. exists c'. split; [|done].
      unfold zscore_label. by left. }
  2:{ apply lookup_top. }
  fold f2. unfold outcome at 1. cbn [length app]. rewrite Nat.add_0_r.
  assert (∀ c, c ∈ SENSOR_COLS → c ∈ Imp.columns f2) as Hin2.
  { intros c Hc. apply elem_of_upd. unfold f1. cbn [Imp.columns].
    apply elem_of_union_l. by apply Hin. }
  rewrite run_bind, (compute_iqr_bounds_ok _ _ _ _ f2).
  2:{ by apply Forall_forall. }
  2:{ apply lookup_top. }
  fold bounds.
  rewrite run_bind, (flag_iqr_anomalies_ok _ _ _ _ f2).
  2:{ apply Forall_forall. intros c Hc. split; [|by apply Hin2].
      unfold bounds. rewrite lookup_compute_iqr_bounds.
      rewrite decide_True by done. eauto. }
  2:{ apply lookup_top. }
  fold f3. unfold outcome at 1. cbn [length app]. rewrite Nat.add_0_r.
  rewrite run_bind, (combined_anomaly_score_ok _ _ f3).
  2:{ apply elem_of_upd, elem_of_upd_new. by left. }
  2:{ apply elem_of_upd_new. by left. }
  2:{ apply lookup_top. }
  fold f4. unfold outcome. cbn [length app]. rewrite Nat.add_0_r.
  rewrite !length_app. cbn [length]. rewrite <- !app_assoc. cbn [app].
  unfold mret, Imp.M_ret. f_equal. f_equal. lia.
Qed.

(** X23. The table a run returns on a file with all required columns and
    at least one row: one row for each distinct (timestamp, machine_id)
    pair of the file, and as columns those of the file, the fifteen
    derived features, the four z-scores and the three flags. *)
Theorem pipeline_output_schema (fs : gmap string Imp.frame) (raw_path : string)
    (f : Imp.frame) (h : list Imp.frame) :
  fs !! raw_path = Some f → Imp.required ⊆ Imp.columns f →
  Imp.rows f ≠ [] →
  ∃ out, Imp.result (Imp.main sqrt fs raw_path h) = inr out
         ∧ Imp.columns out
           = Imp.columns f ∪ list_to_set (numeric_cols ≫= feature_labels)
             ∪ list_to_set (SENSOR_COLS ≫= zscore_label)
             ∪ list_to_set flag_labels
         ∧ length (Imp.rows out) + length (duplicated (Imp.rows f))
           = length (Imp.rows f).
Proof.
  intros Hfs Hsub Hrows. pose proof (required_columns f Hsub) as Hneeds.
  assert (Imp.required ∖ Imp.columns f = ∅) as Hmiss.
  { by apply subseteq_empty_difference_L. }
  unfold Imp.main, Imp.run_pipeline.
  assert ("timestamp" ∈ Imp.columns f) as Hts.
  { apply Hsub, timestamp_required. }
  rewrite run_bind, run_bind, run_load_data, Hfs, !decide_True by done.
  rewrite run_bind, (clean_data_ok _ _ f Hneeds Hrows (lookup_top h f)).
  set (f1 := Imp.Frame (Imp.columns f) (clean_data (Imp.rows f))).
  unfold outcome at 1. cbn [length app]. rewrite Nat.add_0_r.
  rewrite run_bind, (engineer_features_ok sqrt _ _ f1 Hneeds (lookup_top _ f1)).
  set (f2 := Imp.Frame
               (Imp.columns f1 ∪ list_to_set (numeric_cols ≫= feature_labels))
               (engineer_features sqrt (Imp.rows f1))).
  unfold outcome at 1. cbn [length].
  unfold mret at 1, Imp.M_ret at 1.
  edestruct (run_anomaly_detection_frame
               (((h ++ [f]) ++ [f1]) ++ [f1] ++ [f2])
               (length ((h ++ [f]) ++ [f1]) + 1) f2) as (junk & ->).
  - apply Forall_forall. intros c Hc. unfold f2, f1. cbn [Imp.columns].
    apply elem_of_union_l. rewrite Forall_forall in Hneeds. apply Hneeds.
    unfold clean_needs. apply elem_of_cons in Hc as [->|Hc]; [right; by left|].
    do 2 right. by apply SENSOR_COLS_numeric.
  - apply (lookup_returned _ [f1] f2).
  - eexists. split; [apply result_outcome|]. cbn [Imp.columns Imp.rows]. split.
    + apply set_eq. intros x. unfold flag_labels, f2, f1. cbn [Imp.columns].
      rewrite !elem_of_union, !elem_of_list_to_set, !elem_of_cons, !elem_of_nil.
      tauto.
    + unfold f2, f1. cbn [Imp.rows].
      rewrite length_run_anomaly_detection, length_engineer_features.
      apply length_clean_data.
Qed.

End Schema.

(** ** The generator of synthetic readings *)

Lemma py_max_nonneg (x : Q) : (0 <= py_max 0 x)%Q.
Proof. unfold py_max. destruct (Qlt_le_dec 0 x); lra. Qed.

Section Generator.

Variable random_stream : Z → nat → Q.
Variable normal_stream : Z → nat → Q.

Lemma generate_sample_row (seed : Z) (m : string) (ts : Z) (hours : Q)
    (anomaly : bool) (d : draws) (i : nat) (start_time interval_seconds : Z) :
  ts = (start_time + Z.of_nat i * interval_seconds)%Z →
  m = default EmptyString (MACHINES !! (i mod length MACHINES)) →
  generated_row start_time interval_seconds i
    (_generate_sample random_stream normal_stream seed m ts hours anomaly d).1.
Proof.
  intros -> ->. unfold _generate_sample.
  destruct (if anomaly then _ else _) as [factor d1].
  unfold BASE_PARAMS. cbn [foldl sample_sensor np_random_normal fst snd].
  split; [done|]. split; [done|]. split; [|split].
  - intros c Hc. unfold SENSOR_COLS in Hc.
    rewrite !elem_of_cons, elem_of_nil in Hc.
    destruct Hc as [->|[->|[->|[->|[]]]]]; eexists;
      (split; [unfold getnum; cbn [num set_num]; by simplify_map_eq
              |apply py_max_nonneg]).
  - unfold getnum. cbn [num set_num]. simplify_map_eq. by eexists.
  - unfold getnum. cbn [num set_num]. simplify_map_eq.
    destruct anomaly; [by right|by left].
Qed.

Lemma records_generate_step (seed : Z) (anomaly_rate : Q)
    (start_time interval_seconds : Z) (st : gen_state) (i : nat) :
  ∃ r, records (generate_step random_stream normal_stream seed anomaly_rate
                  start_time interval_seconds st i)
       = records st ++ [r]
       ∧ generated_row start_time interval_seconds i r.
Proof.
  unfold generate_step, random_random.
  destruct (_generate_sample _ _ _ _ _ _ _ _) as [r d] eqn:E.
  exists r. split; [done|].
  apply (f_equal fst) in E. cbn [fst] in E. rewrite <- E.
  by apply generate_sample_row.
Qed.

Lemma records_generate_steps (seed : Z) (anomaly_rate : Q)
    (start_time interval_seconds : Z) (n a : nat) (st : gen_state) :
  ∃ new,
    records (foldl (generate_step random_stream normal_stream seed anomaly_rate
                      start_time interval_seconds) st (seq a n))
    = records st ++ new
    ∧ length new = n
    ∧ ∀ k r, new !! k = Some r →
             generated_row start_time interval_seconds (a + k) r.
Proof.
  revert a st. induction n as [|n IH]; intros a st.
  - exists []. by rewrite app_nil_r.
  - cbn [seq foldl].
    destruct (records_generate_step seed anomaly_rate start_time
                interval_seconds st a) as (r & Hr & Hrow).
    destruct (IH (S a) (generate_step random_stream normal_stream seed
                          anomaly_rate start_time interval_seconds st a))
      as (new & Hnew & Hlen & Hall).
    exists (r :: new). rewrite Hnew, Hr, <- app_assoc. split; [done|].
    split; [simpl; lia|]. intros [|k] r' Hk.
    + injection Hk as <-. by rewrite Nat.add_0_r.
    + replace (a + S k) with (S a + k) by lia. by apply Hall.
Qed.

Lemma generate_sensor_data_spec (n_samples : Z) (anomaly_rate : Q)
    (start_time : option Z) (interval_seconds : Z) (seed : Z) :
  length (generate_sensor_data random_stream normal_stream n_samples
            anomaly_rate start_time interval_seconds seed)
  = Z.to_nat n_samples
  ∧ ∀ i r,
      generate_sensor_data random_stream normal_stream n_samples anomaly_rate
        start_time interval_seconds seed !! i = Some r →
      generated_row (default default_start_time start_time) interval_seconds i r.
Proof.
  unfold generate_sensor_data, generate_loop.
  destruct (foldl _ _ MACHINES) as [hours d].
  destruct (records_generate_steps seed anomaly_rate
              (default default_start_time start_time) interval_seconds
              (Z.to_nat n_samples) 0
              {| op_hours := hours; records := []; drawn := d |})
    as (new & -> & Hlen & Hall).
  cbn [records app]. split; [done|]. intros i r Hi. by apply (Hall i r).
Qed.

(** X24. Called with a start time, a seed that numpy accepts and a step that
    keeps every time stamp within the years 1 to 9999,
    [generate_sensor_data] returns [n_samples] rows (none for a negative
    number); the row of sample [i] belongs to machine [i mod 4] of
    [MACHINES] and is stamped [i] intervals after the start. *)
Theorem generate_sensor_data_rows (n_samples : Z) (anomaly_rate : Q)
    (start_time interval_seconds seed : Z) :
  generator_arguments n_samples start_time interval_seconds seed →
  length (generate_sensor_data random_stream normal_stream n_samples
            anomaly_rate (Some start_time) interval_seconds seed)
  = Z.to_nat n_samples
  ∧ ∀ i r,
      generate_sensor_data random_stream normal_stream n_samples anomaly_rate
        (Some start_time) interval_seconds seed !! i = Some r →
      timestamp r = (start_time + Z.of_nat i * interval_seconds)%Z
      ∧ (datetime_min ≤ timestamp r ≤ datetime_max)%Z
      ∧ MACHINES !! (i mod 4) = Some (machine_id r).
Proof.
  intros (_ & _ & Hrange).
  destruct (generate_sensor_data_spec n_samples anomaly_rate (Some start_time)
              interval_seconds seed) as [Hlen Hall].
  split; [done|]. intros i r Hi.
  assert (i < Z.to_nat n_samples) as Hlt'.
  { rewrite <- Hlen. by apply lookup_lt_Some in Hi. }
  destruct (Hall i r Hi) as (Hts & Hm & _). split; [done|].
  split; [rewrite Hts; by apply Hrange|].
  rewrite Hm. change (length MACHINES) with 4.
  assert (i mod 4 < length MACHINES) as Hlt.
  { change (length MACHINES) with 4. apply Nat.mod_upper_bound. lia. }
  apply lookup_lt_is_Some in Hlt as [m' Hm']. by rewrite Hm'.
Qed.

(** X25. Whatever the random draws, no generated sensor reading is negative
    or missing, the operating hours are present, and the label is 0 or
    1. *)
Theorem generate_sensor_data_no_negative_values (n_samples : Z)
    (anomaly_rate : Q) (start_time : option Z) (interval_seconds : Z)
    (seed : Z) :
  Forall (λ r,
            (∀ c, c ∈ SENSOR_COLS → ∃ v, getnum r c = Some v ∧ (0 <= v)%Q)
            ∧ is_Some (getnum r "operating_hours")
            ∧ (getnum r "label" = Some 0%Q ∨ getnum r "label" = Some 1%Q))
    (generate_sensor_data random_stream normal_stream n_samples anomaly_rate
       start_time interval_seconds seed).
Proof.
  rewrite Forall_forall. intros r [i Hi]%list_elem_of_lookup.
  destruct (generate_sensor_data_spec n_samples anomaly_rate start_time
              interval_seconds seed) as [_ Hall].
  by destruct (Hall i r Hi) as (_ & _ & H).
Qed.

Lemma generated_keys_NoDup (n_samples : Z) (anomaly_rate : Q)
    (start_time : option Z) (interval_seconds : Z) (seed : Z) :
  interval_seconds ≠ 0%Z →
  NoDup (key <$> generate_sensor_data random_stream normal_stream n_samples
                   anomaly_rate start_time interval_seconds seed).
Proof.
  intros Hiv.
  destruct (generate_sensor_data_spec n_samples anomaly_rate start_time
              interval_seconds seed) as [_ Hall].
  apply NoDup_alt. intros i j k Hi Hj.
  rewrite list_lookup_fmap in Hi, Hj.
  destruct (generate_sensor_data _ _ _ _ _ _ _ !! i) as [ri|] eqn:Ei; [|done].
  destruct (generate_sensor_data _ _ _ _ _ _ _ !! j) as [rj|] eqn:Ej; [|done].
  cbn [fmap option_fmap option_map] in Hi, Hj.
  assert (timestamp ri = timestamp rj) as Ht.
  { assert (key ri = key rj) as Hk by congruence. unfold key in Hk. congruence. }
  destruct (Hall i ri Ei) as (Hti & _). destruct (Hall j rj Ej) as (Htj & _).
  rewrite Hti, Htj in Ht. nia.
Qed.

(** X26. Of at least one sample, generated from a start time with a seed
    that numpy accepts and a step other than 0 that keeps every time stamp
    within the years 1 to 9999, the keys of the generated rows are
    pairwise distinct and no reading is missing, so [clean_data] drops no
    generated row and fills nothing: it sorts and clips. *)
Theorem clean_data_keeps_generated_rows (n_samples : Z) (anomaly_rate : Q)
    (start_time interval_seconds seed : Z) :
  generator_arguments n_samples start_time interval_seconds seed →
  (0 < n_samples)%Z → interval_seconds ≠ 0%Z →
  generate_sensor_data random_stream normal_stream n_samples
    anomaly_rate (Some start_time) interval_seconds seed ≠ []
  ∧ NoDup (key <$> generate_sensor_data random_stream normal_stream n_samples
                     anomaly_rate (Some start_time) interval_seconds seed)
  ∧ length (clean_data
              (generate_sensor_data random_stream normal_stream n_samples
                 anomaly_rate (Some start_time) interval_seconds seed))
    = Z.to_nat n_samples
  ∧ clean_data
      (generate_sensor_data random_stream normal_stream n_samples
         anomaly_rate (Some start_time) interval_seconds seed)
    = clip_ranges
        (sort_values
           (generate_sensor_data random_stream normal_stream n_samples
              anomaly_rate (Some start_time) interval_seconds seed)).
Proof.
  intros _ Hpos Hiv.
  pose proof (generated_keys_NoDup n_samples anomaly_rate (Some start_time)
                interval_seconds seed Hiv) as Hn.
  destruct (generate_sensor_data_spec n_samples anomaly_rate (Some start_time)
              interval_seconds seed) as [Hlen Hall].
  split.
  { intros E. rewrite E in Hlen. simpl in Hlen. lia. }
  set (t := generate_sensor_data _ _ _ _ _ _ _) in *.
  split; [done|].
  assert (clean_data t = clip_ranges (sort_values t)) as Hc.
  { unfold clean_data. rewrite (drop_duplicates_id t Hn).
    rewrite fill_missing_complete; [done|].
    intros r c Hr Hc. apply (sort_values_elem r t) in Hr.
    apply list_elem_of_lookup in Hr as [i Hi].
    destruct (Hall i r Hi) as (_ & _ & Hs & Hh & _).
    unfold numeric_cols, VALUE_RANGES in Hc. cbn [fmap list_fmap fst] in Hc.
    rewrite !elem_of_cons, elem_of_nil in Hc.
    destruct Hc as [->|[->|[->|[->|[->|[]]]]]]; [..|done];
      match goal with
      | |- is_Some (getnum r ?c) =>
          destruct (Hs c) as (v & Hv & _);
          [unfold SENSOR_COLS; rewrite !elem_of_cons; tauto|by rewrite Hv]
      end. }
  split; [|done].
  rewrite Hc, clip_ranges_fmap, length_fmap, sort_values_length. done.
Qed.

End Generator.

(** ** The further properties on the samples *)

(** The first two rows of the cleaned sample are rows of machine M1 in
    the order of their timestamps. *)
Lemma clean_data_strictly_ordered_witness :
  ∃ a b, 0 < 1 ∧ clean_data raw_table !! 0 = Some a
         ∧ clean_data raw_table !! 1 = Some b
         ∧ row_leb a b = true
         ∧ (machine_id a = machine_id b → (timestamp a < timestamp b)%Z).
Proof.
  destruct (clean_data raw_table !! 0) as [a|] eqn:Ea; [|by vm_compute in Ea].
  destruct (clean_data raw_table !! 1) as [b|] eqn:Eb; [|by vm_compute in Eb].
  exists a, b. split; [lia|]. split; [done|]. split; [done|].
  destruct (clean_data_strictly_ordered raw_table 0 1 a b) as (H1 & H2 & _);
    [lia|done|done|]. done.
Defined.

Lemma gap_table_NoDup : NoDup (key <$> gap_table).
Proof. apply (bool_decide_unpack _). by vm_compute. Qed.

(** The sample with gaps, given in reverse, is cleaned to the same
    table. *)
Lemma clean_data_order_independent_witness :
  NoDup (key <$> gap_table) ∧ gap_table ≡ₚ reverse gap_table
  ∧ clean_data gap_table = clean_data (reverse gap_table).
Proof.
  split; [exact gap_table_NoDup|].
  split; [symmetry; apply reverse_Permutation|].
  apply (clean_data_order_independent gap_table (reverse gap_table)).
  - exact gap_table_NoDup.
  - symmetry. apply reverse_Permutation.
Defined.

(** The temperature 250 of the raw sample is clipped to 200. *)
Lemma clean_data_keeps_valid_readings_witness :
  sort_values (drop_duplicates raw_table) !! 3
  = Some (sensor_row 2 "M2" (Some 250%Q) (Some 1%Q) (Some 6%Q) (Some 12%Q)
            (Some 10%Q))
  ∧ ("temperature_c", (0%Q, 200%Q)) ∈ VALUE_RANGES
  ∧ ∃ r', clean_data raw_table !! 3 = Some r'
          ∧ getnum r' "temperature_c" = Some 200%Q.
Proof.
  assert (sort_values (drop_duplicates raw_table) !! 3
          = Some (sensor_row 2 "M2" (Some 250%Q) (Some 1%Q) (Some 6%Q)
                    (Some 12%Q) (Some 10%Q))) as Hi by reflexivity.
  assert (("temperature_c", (0%Q, 200%Q)) ∈ VALUE_RANGES) as He by (by left).
  split; [exact Hi|]. split; [exact He|].
  destruct (clean_data_keeps_valid_readings raw_table 3 _ "temperature_c"
              0 200 250 Hi He eq_refl) as (r' & Hr' & _ & _ & _ & Hhi).
  exists r'. split; [exact Hr'|]. apply Hhi. reflexivity.
Defined.

(** The missing temperature of the second row of machine M1 becomes the
    temperature of its first row. *)
Lemma clean_data_fills_from_previous_row_witness :
  sort_values (drop_duplicates gap_table) !! 0
  = Some (sensor_row 1 "M1" (Some 60%Q) (Some 1%Q) (Some 6%Q) (Some 12%Q)
            (Some 5%Q))
  ∧ sort_values (drop_duplicates gap_table) !! 1
    = Some (sensor_row 2 "M1" None (Some 3%Q) (Some 6%Q) (Some 12%Q)
              (Some 6%Q))
  ∧ "temperature_c" ∈ numeric_cols
  ∧ ∃ p' r', clean_data gap_table !! 0 = Some p'
             ∧ clean_data gap_table !! 1 = Some r'
             ∧ getnum r' "temperature_c" = getnum p' "temperature_c".
Proof.
  split; [reflexivity|]. split; [reflexivity|]. split; [by left|].
  destruct (clean_data_fills_from_previous_row gap_table 0
              (sensor_row 1 "M1" (Some 60%Q) (Some 1%Q) (Some 6%Q) (Some 12%Q)
                 (Some 5%Q))
              (sensor_row 2 "M1" None (Some 3%Q) (Some 6%Q) (Some 12%Q)
                 (Some 6%Q))
              "temperature_c" eq_refl eq_refl eq_refl
              (list_elem_of_here _ _) eq_refl)
    as (p' & r' & Hp & Hr & _ & _ & He).
  exists p', r'. split; [exact Hp|]. split; [exact Hr|]. exact He.
Defined.

Lemma gap_table_M2_vibration (r0 : row) :
  r0 ∈ drop_duplicates gap_table → machine_id r0 = "M2" →
  getnum r0 "vibration_mm_s" = None.
Proof.
  change (drop_duplicates gap_table) with gap_table. unfold gap_table.
  rewrite !elem_of_cons, elem_of_nil. intros [->|[->|[->|[->|[]]]]]; done.
Qed.

(** Machine M2 of the sample with gaps has no vibration reading: its rows
    receive the mean of the column. *)
Lemma clean_data_mean_fallback_witness :
  ("vibration_mm_s", (0%Q, 50%Q)) ∈ VALUE_RANGES
  ∧ (∀ r0, r0 ∈ drop_duplicates gap_table → machine_id r0 = "M2" →
           getnum r0 "vibration_mm_s" = None)
  ∧ sort_values (drop_duplicates gap_table) !! 2
    = Some (sensor_row 1 "M2" (Some 70%Q) None None (Some 13%Q) (Some 9%Q))
  ∧ ∃ r', clean_data gap_table !! 2 = Some r'
          ∧ getnum r' "vibration_mm_s"
            = clip 0 50
                (mean (column "vibration_mm_s"
                         (sort_values (drop_duplicates gap_table)))).
Proof.
  assert (("vibration_mm_s", (0%Q, 50%Q)) ∈ VALUE_RANGES) as He
    by (right; by left).
  split; [exact He|]. split; [exact gap_table_M2_vibration|].
  split; [reflexivity|].
  destruct (clean_data_mean_fallback gap_table "M2" "vibration_mm_s" 0 50 2
              (sensor_row 1 "M2" (Some 70%Q) None None (Some 13%Q) (Some 9%Q))
              He gap_table_M2_vibration eq_refl eq_refl)
    as (r' & Hr' & _ & Hv).
  exists r'. split; [exact Hr'|exact Hv].
Defined.

(** The missing pressure on the first row of machine M2 becomes the
    pressure of its second row. *)
Lemma clean_data_leading_gap_takes_next_witness :
  sort_values (drop_duplicates gap_table) !! 2
  = Some (sensor_row 1 "M2" (Some 70%Q) None None (Some 13%Q) (Some 9%Q))
  ∧ sort_values (drop_duplicates gap_table) !! 3
    = Some (sensor_row 2 "M2" (Some 72%Q) None (Some 7%Q) (Some 13%Q)
              (Some 10%Q))
  ∧ rows_of "M2" (take 2 (sort_values (drop_duplicates gap_table))) = []
  ∧ ∃ r' n', clean_data gap_table !! 2 = Some r'
             ∧ clean_data gap_table !! 3 = Some n'
             ∧ getnum r' "pressure_bar" = getnum n' "pressure_bar".
Proof.
  split; [reflexivity|]. split; [reflexivity|]. split; [reflexivity|].
  destruct (clean_data_leading_gap_takes_next gap_table 2
              (sensor_row 1 "M2" (Some 70%Q) None None (Some 13%Q) (Some 9%Q))
              (sensor_row 2 "M2" (Some 72%Q) None (Some 7%Q) (Some 13%Q)
                 (Some 10%Q))
              "pressure_bar" eq_refl eq_refl eq_refl eq_refl)
    as (r' & n' & Hr & Hn & _ & _ & He).
  - right. right. by left.
  - reflexivity.
  - exists r', n'. split; [exact Hr|]. split; [exact Hn|exact He].
Defined.

Lemma complete_table_NoDup : NoDup (key <$> complete_table).
Proof. apply (bool_decide_unpack _). by vm_compute. Qed.

Lemma complete_table_complete (r : row) (c : string) :
  r ∈ complete_table → c ∈ numeric_cols → is_Some (getnum r c).
Proof.
  intros Hr. revert c. rewrite <- Forall_forall.
  revert r Hr. rewrite <- Forall_forall.
  apply (bool_decide_unpack _). by vm_compute.
Qed.

(** The complete sample is only sorted and clipped. *)
Lemma clean_data_of_complete_table_witness :
  complete_table ≠ []
  ∧ NoDup (key <$> complete_table)
  ∧ (∀ r c, r ∈ complete_table → c ∈ numeric_cols → is_Some (getnum r c))
  ∧ clean_data complete_table = clip_ranges (sort_values complete_table).
Proof.
  assert (complete_table ≠ []) as Hne by done.
  split; [exact Hne|].
  split; [exact complete_table_NoDup|]. split; [exact complete_table_complete|].
  exact (proj1 (clean_data_of_complete_table complete_table Hne
                  complete_table_NoDup complete_table_complete)).
Defined.

Lemma flat_table_temperature : constant_on flat_table "M1" "temperature_c" 60.
Proof. intros r [-> _]%elem_of_replicate _. reflexivity. Qed.

(** The flat signal of the test suite has flat temperature features. *)
Lemma flat_signal_features_witness :
  (∀ q, (q == 0)%Q → (Qsqrt q == 0)%Q)
  ∧ "temperature_c" ∈ numeric_cols
  ∧ constant_on flat_table "M1" "temperature_c" 60
  ∧ ∀ r', r' ∈ engineer_features Qsqrt flat_table → machine_id r' = "M1" →
          ∃ mu sd d,
            getnum r' ("temperature_c" +:+ "_roll_mean") = Some mu
            ∧ (mu == 60)%Q
            ∧ getnum r' ("temperature_c" +:+ "_roll_std") = Some sd
            ∧ (sd == 0)%Q
            ∧ getnum r' ("temperature_c" +:+ "_diff") = Some d ∧ (d == 0)%Q.
Proof.
  split; [exact Qsqrt_zero|]. split; [by left|].
  split; [exact flat_table_temperature|]. intros r' Hr' Hm.
  exact (flat_signal_features Qsqrt Qsqrt_zero flat_table "M1" "temperature_c"
           60 r' (list_elem_of_here _ _) flat_table_temperature Hr' Hm).
Defined.

(** The z-scores of machine M1 of the raw sample are those it gets when
    the rows of machine M2 are left out. *)
Lemma compute_z_scores_per_machine_witness :
  zscore_labels_fresh SENSOR_COLS
  ∧ rows_of "M1" raw_table = rows_of "M1" (rows_of "M1" raw_table)
  ∧ rows_of "M1" (compute_z_scores Qsqrt raw_table SENSOR_COLS)
    = rows_of "M1" (compute_z_scores Qsqrt (rows_of "M1" raw_table) SENSOR_COLS).
Proof.
  split; [exact SENSOR_COLS_zscore_labels_fresh|]. split; [reflexivity|].
  exact (compute_z_scores_per_machine Qsqrt raw_table (rows_of "M1" raw_table)
           SENSOR_COLS "M1" SENSOR_COLS_zscore_labels_fresh eq_refl).
Defined.

(** Machine M1 of the raw sample has three rows and gets three
    temperature z-scores. *)
Lemma z_scores_are_defined_witness :
  zscore_labels_fresh SENSOR_COLS ∧ "temperature_c" ∈ SENSOR_COLS
  ∧ ∃ zs, partition "M1"
            (groupby ("temperature_c" +:+ "_zscore")
               (compute_z_scores Qsqrt raw_table SENSOR_COLS))
          = Some <$> zs
          ∧ length zs = length (rows_of "M1" raw_table).
Proof.
  split; [exact SENSOR_COLS_zscore_labels_fresh|]. split; [by left|].
  exact (z_scores_are_defined Qsqrt raw_table SENSOR_COLS "temperature_c" "M1"
           SENSOR_COLS_zscore_labels_fresh (list_elem_of_here _ _)).
Defined.

(** A row with z-score 5 is flagged at the threshold 4, and so it is at
    the threshold 3. *)
Lemma flag_zscore_anomalies_monotone_witness :
  ∃ r1 r2, (3 <= 4)%Q
    ∧ flag_zscore_anomalies scored_table ["temperature_c"] 3 !! 0 = Some r1
    ∧ flag_zscore_anomalies scored_table ["temperature_c"] 4 !! 0 = Some r2
    ∧ getflag r2 "anomaly_zscore" = true
    ∧ getflag r1 "anomaly_zscore" = true.
Proof.
  eexists _, _. split; [by vm_compute|]. split; [reflexivity|].
  split; [reflexivity|]. split; [reflexivity|].
  refine (flag_zscore_anomalies_monotone scored_table ["temperature_c"] 3 4 0
            _ _ _ eq_refl eq_refl eq_refl).
  by vm_compute.
Defined.

Lemma spike_table_has_value : column_has_value "temperature_c" spike_table.
Proof. eexists. split; [by left|done]. Qed.

(** On the readings 1, 2, 3, 4, 100 the default bounds enclose the
    quartiles. *)
Lemma iqr_bounds_enclose_quartiles_witness :
  (0 <= IQR_MULTIPLIER)%Q ∧ "temperature_c" ∈ ["temperature_c"]
  ∧ column_has_value "temperature_c" spike_table
  ∧ ∃ q1 q3 lo hi,
      quantile (1 # 4) (column "temperature_c" spike_table) = Some q1
      ∧ quantile (3 # 4) (column "temperature_c" spike_table) = Some q3
      ∧ compute_iqr_bounds spike_table ["temperature_c"] IQR_MULTIPLIER
          !! "temperature_c" = Some (Some lo, Some hi)
      ∧ (lo <= q1)%Q ∧ (q1 <= q3)%Q ∧ (q3 <= hi)%Q.
Proof.
  assert (0 <= IQR_MULTIPLIER)%Q as Hm by (by vm_compute).
  split; [exact Hm|]. split; [by left|]. split; [exact spike_table_has_value|].
  exact (iqr_bounds_enclose_quartiles spike_table ["temperature_c"]
           IQR_MULTIPLIER "temperature_c" Hm (list_elem_of_here _ _)
           spike_table_has_value).
Defined.

Lemma spike_table_middle (c : string) :
  c ∈ ["temperature_c"] →
  ∃ v q1 q3,
    getnum {| timestamp := 2; machine_id := "M1";
              num := {[ "temperature_c" := Some (inject_Z 3) ]}; flag := ∅ |} c
    = Some v
    ∧ quantile (1 # 4) (column c spike_table) = Some q1
    ∧ quantile (3 # 4) (column c spike_table) = Some q3
    ∧ (q1 <= v <= q3)%Q.
Proof.
  intros ->%list_elem_of_singleton. eexists _, _, _.
  split; [reflexivity|]. split; [by vm_compute|]. split; [by vm_compute|].
  split; by vm_compute.
Qed.

(** The reading 3 of the readings 1, 2, 3, 4, 100 lies between the
    quartiles 2 and 4 and is not flagged. *)
Lemma interquartile_readings_not_flagged_witness :
  (0 <= IQR_MULTIPLIER)%Q
  ∧ spike_table !! 2
    = Some {| timestamp := 2; machine_id := "M1";
              num := {[ "temperature_c" := Some (inject_Z 3) ]}; flag := ∅ |}
  ∧ ∃ r', flag_iqr_anomalies spike_table
            (compute_iqr_bounds spike_table ["temperature_c"] IQR_MULTIPLIER)
            ["temperature_c"] !! 2 = Some r'
          ∧ flag r' !! "anomaly_iqr" = Some false.
Proof.
  assert (0 <= IQR_MULTIPLIER)%Q as Hm by (by vm_compute).
  split; [exact Hm|]. split; [reflexivity|].
  exact (interquartile_readings_not_flagged spike_table ["temperature_c"]
           IQR_MULTIPLIER 2 _ Hm eq_refl spike_table_middle).
Defined.

Lemma null_column_table_temperature :
  ¬ column_has_value "temperature_c" null_column_table.
Proof.
  intros (r & Hr & Hne). unfold null_column_table in Hr.
  rewrite !elem_of_cons, elem_of_nil in Hr.
  destruct Hr as [->|[->|[]]]; by apply Hne.
Qed.

(** The temperature column without any reading gets NaN bounds. *)
Lemma iqr_bounds_of_empty_column_witness :
  "temperature_c" ∈ SENSOR_COLS
  ∧ ¬ column_has_value "temperature_c" null_column_table
  ∧ compute_iqr_bounds null_column_table SENSOR_COLS IQR_MULTIPLIER
      !! "temperature_c" = Some (None, None).
Proof.
  split; [by left|]. split; [exact null_column_table_temperature|].
  exact (proj1 (iqr_bounds_of_empty_column null_column_table SENSOR_COLS
                  IQR_MULTIPLIER "temperature_c" (list_elem_of_here _ _)
                  null_column_table_temperature)).
Defined.

(** On the raw sample, which has no flag yet, [combined_anomaly_score]
    raises [KeyError]. *)
Lemma combined_anomaly_score_needs_both_flags_witness :
  [raw_frame] !! 0 = Some raw_frame
  ∧ Imp.result (Imp.combined_anomaly_score 0 [raw_frame])
    = inl (Imp.KeyError "anomaly_zscore").
Proof.
  split; [reflexivity|].
  rewrite (combined_anomaly_score_needs_both_flags [raw_frame] 0 raw_frame eq_refl).
  rewrite decide_False; [done|]. apply (bool_decide_unpack _). by vm_compute.
Defined.

(** On the raw sample, which has no z-score yet, [flag_zscore_anomalies]
    raises [KeyError] naming a z-score column. *)
Lemma flag_zscore_anomalies_needs_z_scores_witness :
  [raw_frame] !! 0 = Some raw_frame
  ∧ ∃ c, c ∈ SENSOR_COLS
         ∧ Imp.result (Imp.flag_zscore_anomalies 0 SENSOR_COLS Z_THRESHOLD
                         [raw_frame])
           = inl (Imp.KeyError (c +:+ "_zscore")).
Proof.
  split; [reflexivity|].
  destruct (proj2 (flag_zscore_anomalies_needs_z_scores SENSOR_COLS Z_THRESHOLD
                     [raw_frame] 0 raw_frame eq_refl)) as (c & Hc & _ & He).
  - apply (bool_decide_unpack _). by vm_compute.
  - by exists c.
Defined.

(** With an empty dictionary of bounds [flag_iqr_anomalies] raises
    [KeyError] naming the first configured column. *)
Lemma flag_iqr_anomalies_needs_bounds_witness :
  [raw_frame] !! 0 = Some raw_frame
  ∧ Imp.result (Imp.flag_iqr_anomalies 0 ∅ SENSOR_COLS [raw_frame])
    = inl (Imp.KeyError "temperature_c").
Proof.
  split; [reflexivity|].
  rewrite (flag_iqr_anomalies_needs_bounds ∅ SENSOR_COLS [raw_frame] 0 raw_frame
             eq_refl).
  unfold SENSOR_COLS. rewrite filter_cons_True; [done|]. left.
  apply not_elem_of_empty.
Defined.

(** On the raw sample [compute_iqr_bounds] leaves the heap as it is. *)
Lemma compute_iqr_bounds_reads_only_witness :
  [raw_frame] !! 0 = Some raw_frame
  ∧ (Imp.compute_iqr_bounds 0 SENSOR_COLS IQR_MULTIPLIER [raw_frame]).2
    = [raw_frame].
Proof.
  split; [reflexivity|].
  exact (proj1 (compute_iqr_bounds_reads_only SENSOR_COLS IQR_MULTIPLIER
                  [raw_frame] 0 raw_frame eq_refl)).
Defined.

(** The run on the sample file returns four rows, one less than the file
    holds. *)
Lemma pipeline_output_schema_witness :
  raw_files !! "data/raw_sensor_data.csv" = Some raw_frame
  ∧ Imp.required ⊆ Imp.columns raw_frame
  ∧ Imp.rows raw_frame ≠ []
  ∧ ∃ out, Imp.result (Imp.main Qsqrt raw_files "data/raw_sensor_data.csv" [])
           = inr out
           ∧ Imp.columns out
             = Imp.columns raw_frame
               ∪ list_to_set (numeric_cols ≫= feature_labels)
               ∪ list_to_set (SENSOR_COLS ≫= zscore_label)
               ∪ list_to_set flag_labels
           ∧ length (Imp.rows out) + length (duplicated (Imp.rows raw_frame))
             = length (Imp.rows raw_frame).
Proof.
  assert (Imp.rows raw_frame ≠ []) as Hne by done.
  split; [reflexivity|]. split; [exact raw_frame_complete|].
  split; [exact Hne|].
  exact (pipeline_output_schema Qsqrt raw_files "data/raw_sensor_data.csv"
           raw_frame [] eq_refl raw_frame_complete Hne).
Defined.

Lemma sample_generator_arguments (n : Z) :
  (0 ≤ n ≤ 8)%Z → generator_arguments n default_start_time 60 42.
Proof.
  intros Hn. unfold generator_arguments, default_start_time, timedelta_max,
    datetime_min, datetime_max.
  split; [lia|]. split; [lia|]. intros i Hi. lia.
Qed.

(** Three samples a minute apart from the first of January 2024: three
    rows, the second one of the second machine, a minute after the
    start. *)
Lemma generate_sensor_data_rows_witness :
  generator_arguments 3 default_start_time 60 42
  ∧ length (generate_sensor_data (constant_stream (1 # 2)) (constant_stream 0)
              3 (1 # 20) (Some default_start_time) 60 42) = 3
  ∧ ∃ r, generate_sensor_data (constant_stream (1 # 2)) (constant_stream 0)
           3 (1 # 20) (Some default_start_time) 60 42 !! 1 = Some r
         ∧ timestamp r = (default_start_time + 60)%Z
         ∧ machine_id r = "MED-INJ-02".
Proof.
  assert (generator_arguments 3 default_start_time 60 42) as Hargs.
  { apply sample_generator_arguments. lia. }
  split; [exact Hargs|].
  destruct (generate_sensor_data_rows (constant_stream (1 # 2))
              (constant_stream 0) 3 (1 # 20) default_start_time 60 42 Hargs)
    as [Hlen Hrows].
  split; [exact Hlen|].
  destruct (generate_sensor_data (constant_stream (1 # 2)) (constant_stream 0)
              3 (1 # 20) (Some default_start_time) 60 42 !! 1) as [r|] eqn:E.
  - exists r. split; [done|]. destruct (Hrows 1 r E) as (Hts & _ & Hm).
    split; [exact Hts|]. by injection Hm.
  - apply lookup_ge_None in E. rewrite Hlen in E. simpl in E. lia.
Defined.

(** Eight samples a minute apart are all kept by [clean_data]. *)
Lemma clean_data_keeps_generated_rows_witness :
  generator_arguments 8 default_start_time 60 42 ∧ (0 < 8)%Z ∧ (60 ≠ 0)%Z
  ∧ length (clean_data
              (generate_sensor_data (constant_stream (1 # 2)) (constant_stream 0)
                 8 (1 # 20) (Some default_start_time) 60 42))
    = 8.
Proof.
  assert (generator_arguments 8 default_start_time 60 42) as Hargs.
  { apply sample_generator_arguments. lia. }
  split; [exact Hargs|]. split; [lia|]. split; [done|].
  exact (proj1 (proj2 (proj2 (clean_data_keeps_generated_rows
                         (constant_stream (1 # 2)) (constant_stream 0)
                         8 (1 # 20) default_start_time 60 42 Hargs
                         ltac:(lia) ltac:(done))))).
Defined.

Lemma raw_table_nonempty : raw_table ≠ [].
Proof. done. Qed.

(** The raw sample loses one row, the repeated key, and every reading of
    the cleaned sample lies in its range. *)
Lemma clean_data_range_and_count_witness :
  raw_table ≠ []
  ∧ length (clean_data raw_table) + length (duplicated raw_table)
    = length raw_table
  ∧ ∀ r c lo hi v, r ∈ clean_data raw_table → (c, (lo, hi)) ∈ VALUE_RANGES →
      getnum r c = Some v → (lo <= v <= hi)%Q.
Proof.
  split; [exact raw_table_nonempty|].
  destruct (clean_data_range_and_count raw_table raw_table_nonempty)
    as (Hlen & Hrange & _).
  exact (conj Hlen Hrange).
Defined.

Lemma complete_table_single_rows :
  Forall (λ r, length (partition (machine_id r)
                         (groupby "temperature_c" complete_table)) ≤ 1)
    (compute_z_scores Qsqrt complete_table SENSOR_COLS).
Proof. apply (bool_decide_unpack _). by vm_compute. Qed.

(** Each machine of the complete sample has one row: every temperature
    z-score is 0. *)
Lemma edge_cases_take_defaults_witness :
  (∀ q, (q == 0)%Q → (Qsqrt q == 0)%Q)
  ∧ ∀ r, r ∈ compute_z_scores Qsqrt complete_table SENSOR_COLS →
         getnum r ("temperature_c" +:+ "_zscore") = Some 0%Q.
Proof.
  split; [exact Qsqrt_zero|]. intros r Hr.
  apply (proj1 (edge_cases_take_defaults Qsqrt Qsqrt_zero) complete_table
           SENSOR_COLS "temperature_c" r SENSOR_COLS_zscore_labels_fresh
           (list_elem_of_here _ _) Hr).
  left. revert r Hr. apply Forall_forall. exact complete_table_single_rows.
Defined.
